(** * The Arrow C bridge of ocaml-arrow, [src/c_api/wrapper/arrow_c_api.cc]

    A shallow embedding of the bridge functions and of the part of the
    Arrow C++ library they call, followed by the properties of the bridge.

    - C integers ([int], [int64_t]) are [Z]; no arithmetic of the bridge can
      leave the machine range (the only arithmetic is the subtraction of a
      smaller non-negative row count from [only_first]).
    - Pointers are [ptr]; heap cells live in finite maps of the [World].
    - A bridge call is a function [World -> result A * World]: the state is
      threaded explicitly and survives a failure.
    - The parts of the library that the bridge only passes through (the
      readers of IPC, Feather, CSV and JSON files and the Parquet writer) are
      a [Library] of functions taken as given: what is proved of the entry
      points over them holds whatever these functions do. *)

From Stdlib Require Import ZArith String Ascii DecimalString.
From stdpp Require Import base gmap strings list fin_maps.

Local Open Scope Z_scope.

(** ** C scalars, pointers and strings *)

Definition loc := positive.

Inductive ptr :=
| NULL
| Ptr (l : loc).

(** [std::to_string] on an integer. *)
Definition to_string (z : Z) : string :=
  NilZero.string_of_int (Z.to_int z).

(** [snprintf(buf, size, "%s", s)]: at most [size - 1] bytes are written. *)
Definition snprintf_s (size : nat) (s : string) : string :=
  String.substring 0 (size - 1) s.

(** The elements of a list on which [f] is defined, in order. *)
Fixpoint filter_map {A B : Type} (f : A -> option B) (l : list A) : list B :=
  match l with
  | [] => []
  | x :: rest =>
      match f x with
      | Some y => y :: filter_map f rest
      | None => filter_map f rest
      end
  end.

(** ** The Arrow library, as far as the bridge uses it *)

Module arrow.

(** [arrow::Status]: [None] is OK, [Some s] an error whose [ToString] is [s];
    [arrow::Result<T>] likewise. *)
Definition Status := option string.

Inductive Result (A : Type) :=
| Value (a : A)
| Err (status : string).
Arguments Value {A} a.
Arguments Err {A} status.

(** [arrow::Type::type]: the enumerators the bridge names, with the values
    of the library's enum. *)
Definition Type_type := Z.
Definition BOOL : Type_type := 1.
Definition INT64 : Type_type := 9.
Definition DOUBLE : Type_type := 12.
Definition STRING : Type_type := 13.
Definition DATE32 : Type_type := 16.
Definition TIMESTAMP : Type_type := 18.

Inductive Compression :=
| UNCOMPRESSED | SNAPPY | GZIP | BROTLI | ZSTD | LZ4 | LZ4_FRAME | LZO | BZ2.

(** [arrow::DataType]: the type id and the rendering [ToString()]. *)
Record DataType := { id : Type_type; ToString : string }.

Record Field := { name : string; type : DataType }.

Definition Schema := list Field.

(** [arrow::Array]: a view of [arr_length] elements from [arr_offset] on
    the buffers identified by [arr_buffer]. Slicing never copies. *)
Record Array := {
  arr_type : DataType;
  arr_buffer : positive;
  arr_offset : Z;
  arr_length : Z
}.

(** [Array::Slice(offset, length)]: same buffers, clamped length. *)
Definition Array_Slice (a : Array) (offset length : Z) : Array :=
  {| arr_type := arr_type a;
     arr_buffer := arr_buffer a;
     arr_offset := arr_offset a + offset;
     arr_length := Z.min (arr_length a - offset) length |}.

(** [arrow::ChunkedArray]: the chunks of a column. *)
Definition ChunkedArray := list Array.

Definition ChunkedArray_length (c : ChunkedArray) : Z :=
  foldr (fun a n => arr_length a + n) 0 c.

(** First loop of [ChunkedArray::Slice]: skip the chunks before [offset]. *)
Fixpoint Slice_skip (chunks : list Array) (offset : Z) : list Array * Z :=
  match chunks with
  | [] => ([], offset)
  | c :: rest =>
      if arr_length c <=? offset then Slice_skip rest (offset - arr_length c)
      else (chunks, offset)
  end.

(** Second loop of [ChunkedArray::Slice]: take chunks while rows are wanted. *)
Fixpoint Slice_take (chunks : list Array) (offset length : Z) : list Array :=
  match chunks with
  | [] => []
  | c :: rest =>
      if 0 <? length
      then Array_Slice c offset length
             :: Slice_take rest 0 (length - (arr_length c - offset))
      else []
  end.

(** [ChunkedArray::Slice(offset, length)]; [None] is the library's abort
    on an offset past the end ([ARROW_CHECK_LE]). A zero-length slice of a
    column with chunks keeps one empty chunk. *)
Definition ChunkedArray_Slice (c : ChunkedArray) (offset length : Z)
  : option ChunkedArray :=
  if ChunkedArray_length c <? offset then None
  else
    let '(rest, off) := Slice_skip c offset in
    match c with
    | first :: _ =>
        if (offset =? ChunkedArray_length c) || (length =? 0)
        then Some [Array_Slice (List.hd (List.last c first) rest) 0 0]
        else Some (Slice_take rest off length)
    | [] => Some (Slice_take rest off length)
    end.

Record Table := {
  schema : Schema;
  columns : list ChunkedArray;
  num_rows : Z
}.

(** The loop of [Table::Slice] over the columns: each is sliced, and the
    row count becomes the length of the one sliced last. *)
Fixpoint Slice_columns (cols : list ChunkedArray) (offset length num_rows : Z)
  : option (list ChunkedArray * Z) :=
  match cols with
  | [] => Some ([], num_rows)
  | c :: rest =>
      match ChunkedArray_Slice c offset length with
      | None => None
      | Some c' =>
          match Slice_columns rest offset length (ChunkedArray_length c') with
          | None => None
          | Some (rest', n) => Some (c' :: rest', n)
          end
      end
  end.

(** [Table::Slice(offset, length)]. *)
Definition Table_Slice (t : Table) (offset length : Z) : option Table :=
  match Slice_columns (columns t) offset length length with
  | None => None
  | Some (cols, n) =>
      Some {| schema := schema t; columns := cols; num_rows := n |}
  end.

(** [Schema::GetFieldIndex]: the index of the only field of that name,
    [-1] when there is none or more than one. *)
Fixpoint field_indices (s : Schema) (n : string) (i : nat) : list nat :=
  match s with
  | [] => []
  | f :: rest =>
      if String.eqb (name f) n then i :: field_indices rest n (S i)
      else field_indices rest n (S i)
  end.

Definition GetFieldIndex (s : Schema) (n : string) : Z :=
  match field_indices s n 0 with
  | [i] => Z.of_nat i
  | _ => -1
  end.

(** [Table::column(i)]; [None] is an access out of range. *)
Definition column (t : Table) (i : Z) : option ChunkedArray :=
  if i <? 0 then None else columns t !! Z.to_nat i.

(** [Table::GetColumnByName]: a null result is [None]. *)
Definition GetColumnByName (t : Table) (n : string) : option ChunkedArray :=
  let i := GetFieldIndex (schema t) n in
  if i =? -1 then None else column t i.

Definition num_columns (t : Table) : Z := Z.of_nat (length (columns t)).

Record RecordBatch := {
  rb_schema : Schema;
  rb_columns : list Array;
  rb_num_rows : Z
}.

(** [RecordBatch::Slice(offset, length)]. *)
Definition RecordBatch_Slice (b : RecordBatch) (offset length : Z) : RecordBatch :=
  {| rb_schema := rb_schema b;
     rb_columns := (fun a => Array_Slice a offset length) <$> rb_columns b;
     rb_num_rows := Z.min (rb_num_rows b - offset) length |}.

Definition total_num_rows (batches : list RecordBatch) : Z :=
  foldr (fun b n => rb_num_rows b + n) 0 batches.

(** Column [i] of the table made of [batches]: one chunk per batch. *)
Definition batches_column (batches : list RecordBatch) (i : nat) : ChunkedArray :=
  filter_map (fun b => rb_columns b !! i) batches.

#[global] Instance DataType_eq_dec : EqDecision DataType.
Proof. solve_decision. Defined.
#[global] Instance Field_eq_dec : EqDecision Field.
Proof. solve_decision. Defined.

(** [Table::FromRecordBatches(schema, batches)]. *)
Definition schema_mismatch : string := "Invalid: Schema at index was different".

Definition FromRecordBatches_with (s : Schema) (batches : list RecordBatch)
  : Result Table :=
  if forallb (fun b => bool_decide (rb_schema b = s)) batches
  then Value {| schema := s;
                columns := batches_column batches <$> seq 0 (length s);
                num_rows := total_num_rows batches |}
  else Err schema_mismatch.

(** [Table::FromRecordBatches(batches)]: the schema is the one of the first
    batch, so the library refuses an empty vector. The wording of the status
    depends on the library's version. *)
Definition no_record_batch : string :=
  "Invalid: Must pass at least one record batch".

Definition FromRecordBatches (batches : list RecordBatch) : Result Table :=
  match batches with
  | [] => Err no_record_batch
  | b :: _ => FromRecordBatches_with (rb_schema b) batches
  end.

(** *** Files and their readers *)

(** A Parquet file: its schema and, for each row group, what the successive
    [ReadNext] on that row group produce: a decoded batch or an error. *)
Record ParquetFile := {
  pq_schema : Schema;
  pq_row_groups : list (list (Result RecordBatch))
}.

(** The content of a path. [Empty] is what an output stream leaves when it is
    opened; the other constructors stand for the bytes a writer emits. *)
Inductive File :=
| Directory
| Empty
| IpcFile (t : Table)
| FeatherFile (t : Table) (chunksize : Z) (compression : Compression)
| Parquet (f : ParquetFile).

(** [arrow::RecordBatchReader]: the results still to be delivered. *)
Definition RecordBatchReader := list (Result RecordBatch).

(** [RecordBatchReader::ReadNext(&batch)]: the status, the batch (null at the
    end of the stream) and the reader afterwards. *)
Definition ReadNext (r : RecordBatchReader)
  : Status * option RecordBatch * RecordBatchReader :=
  match r with
  | [] => (None, None, [])
  | Value b :: rest => (None, Some b, rest)
  | Err s :: rest => (Some s, None, rest)
  end.

(** [parquet::arrow::FileReader]. *)
Record FileReader := {
  fr_file : ParquetFile;
  fr_use_threads : bool
}.

Definition set_use_threads (r : FileReader) (use_threads : Z) : FileReader :=
  {| fr_file := fr_file r; fr_use_threads := negb (use_threads =? 0) |}.

Definition num_row_groups (r : FileReader) : Z :=
  Z.of_nat (length (pq_row_groups (fr_file r))).

(** [metadata()->num_rows()]: the rows of every batch of every row group. *)
Definition batch_of (r : Result RecordBatch) : option RecordBatch :=
  match r with
  | Value b => Some b
  | Err _ => None
  end.

Definition file_batches (f : ParquetFile) : list RecordBatch :=
  filter_map batch_of (concat (pq_row_groups f)).

Definition file_num_rows (f : ParquetFile) : Z :=
  total_num_rows (file_batches f).

(** Column selection: [None] reads every column. *)
Definition valid_columns (s : Schema) (cols : option (list Z)) : bool :=
  match cols with
  | None => true
  | Some cs => forallb (fun i => (0 <=? i) && (i <? Z.of_nat (length s))) cs
  end.

Definition select {A : Type} (cols : option (list Z)) (l : list A) : list A :=
  match cols with
  | None => l
  | Some cs => filter_map (fun i => l !! Z.to_nat i) cs
  end.

Definition project (cols : option (list Z)) (b : RecordBatch) : RecordBatch :=
  {| rb_schema := select cols (rb_schema b);
     rb_columns := select cols (rb_columns b);
     rb_num_rows := rb_num_rows b |}.

Definition project_result (cols : option (list Z)) (r : Result RecordBatch)
  : Result RecordBatch :=
  match r with
  | Value b => Value (project cols b)
  | Err s => Err s
  end.

Definition invalid_column : string := "Invalid: Invalid column index".
Definition invalid_row_group : string := "Invalid: Some index in row_group_indices is out of range".

(** The row groups asked for, one after the other; [None] when an index names
    no row group. *)
Fixpoint select_row_groups (f : ParquetFile) (row_groups : list Z)
  : option (list (Result RecordBatch)) :=
  match row_groups with
  | [] => Some []
  | g :: rest =>
      match (if g <? 0 then None else pq_row_groups f !! Z.to_nat g),
            select_row_groups f rest with
      | Some items, Some more => Some (items ++ more)
      | _, _ => None
      end
  end.

(** [FileReader::GetRecordBatchReader(row_groups, columns, &out)]. *)
Definition GetRecordBatchReader (r : FileReader) (row_groups : list Z)
    (cols : option (list Z)) : Result RecordBatchReader :=
  match select_row_groups (fr_file r) row_groups with
  | None => Err invalid_row_group
  | Some items =>
      if valid_columns (pq_schema (fr_file r)) cols
      then Value (project_result cols <$> items)
      else Err invalid_column
  end.

(** The first error among the results, or all their batches. *)
Fixpoint all_batches (items : list (Result RecordBatch)) : Result (list RecordBatch) :=
  match items with
  | [] => Value []
  | Err s :: _ => Err s
  | Value b :: rest =>
      match all_batches rest with
      | Value bs => Value (b :: bs)
      | Err s => Err s
      end
  end.

(** [FileReader::ReadTable(columns, &table)]: the whole file, under the
    file's own schema, also when the file has no row at all. *)
Definition ReadTable (r : FileReader) (cols : option (list Z)) : Result Table :=
  if valid_columns (pq_schema (fr_file r)) cols
  then match all_batches (project_result cols <$> concat (pq_row_groups (fr_file r))) with
       | Value bs => FromRecordBatches_with (select cols (pq_schema (fr_file r))) bs
       | Err s => Err s
       end
  else Err invalid_column.

(** [parquet::arrow::OpenFile]. *)
Definition not_parquet : string := "Invalid: Parquet magic bytes not found in footer".

Definition OpenFile (content : File) : Result FileReader :=
  match content with
  | Parquet f => Value {| fr_file := f; fr_use_threads := false |}
  | _ => Err not_parquet
  end.

Definition cannot_open (path : string) : string :=
  "IOError: Failed to open local file '" +:+ path +:+ "'".

(** *** The C data interface *)

(** [struct ArrowArray]: length, offset, buffers and children of an array
    crossing the boundary; [aa_release] tells whether the release callback is
    set. The children are seen through the types of the accompanying schema. *)
Record ArrowArray := {
  aa_length : Z;
  aa_offset : Z;
  aa_buffers : list positive;
  aa_children : list Array;
  aa_release : bool
}.

(** [struct ArrowSchema] of a record batch: one child per column. *)
Record ArrowSchema := {
  as_children : Schema;
  as_release : bool
}.

(** [arrow::ExportArray]. *)
Definition ExportArray (a : Array) : ArrowArray :=
  {| aa_length := arr_length a;
     aa_offset := arr_offset a;
     aa_buffers := [arr_buffer a];
     aa_children := [];
     aa_release := true |}.

(** [arrow::ExportSchema]. *)
Definition ExportSchema (s : Schema) : ArrowSchema :=
  {| as_children := s; as_release := true |}.

Definition released_schema : string := "Invalid: Cannot import released ArrowSchema".
Definition released_array : string := "Invalid: Cannot import released ArrowArray".
Definition children_mismatch : string :=
  "Invalid: ArrowArray struct has a different number of children than the schema".
Definition nonzero_offset : string :=
  "Invalid: ArrowArray struct has non-zero offset, cannot be imported as RecordBatch".

(** [arrow::ImportRecordBatch(array, schema)]: what the library answers on
    the content of the two structs. A released struct, a number of children
    other than the schema's and a struct array that starts at an offset are
    refused. The null count of the struct, which the library wants to be
    zero, is not part of [ArrowArray] here, and the structs are seen as
    values: that the import takes them over, or releases them when it
    refuses, is not followed. *)
Definition ImportRecordBatch (array : ArrowArray) (sch : ArrowSchema)
  : Result RecordBatch :=
  if negb (as_release sch) then Err released_schema
  else if negb (aa_release array) then Err released_array
  else if negb (length (aa_children array) =? length (as_children sch))%nat
  then Err children_mismatch
  else if negb (aa_offset array =? 0) then Err nonzero_offset
  else Value {| rb_schema := as_children sch;
                rb_columns := aa_children array;
                rb_num_rows := aa_length array |}.

(** [arrow::ipc::feather::WriteProperties]. *)
Record WriteProperties := {
  wp_chunksize : Z;
  wp_compression : Compression
}.

End arrow.
Import arrow.

(** ** The state of the process and the outcome of a call *)

(** [struct ParquetReader]: two owning pointers, null once reset. *)
Record ParquetReader := {
  reader : option FileReader;
  batch_reader : option RecordBatchReader
}.

(** The input and output operations of the library, as they are performed. *)
Inductive Call :=
| FileOutputStream_Open (path : string)
| ReadableFile_Open (path : string)
| ParquetFileReader_OpenFile (path : string) (mmap : Z)
| ipc_WriteTable (path : string) (t : Table)
| feather_WriteTable (path : string) (t : Table) (wp : WriteProperties)
| RecordBatchReader_ReadNext
| parquet_WriteTable (path : string) (t : Table) (chunk_size : Z)
    (compression : Compression).

(** - [tables]: the live [TablePtr] cells, each owning one reference to a table;
    - [readers]: the live [ParquetReader] cells;
    - [ints]: the caller's [int] cells, targets of out-parameters;
    - [files]: the file system;
    - [calls]: the library's input and output operations so far, latest last;
    - [lost]: the blocks of array descriptors that were allocated and never
      handed to anyone, latest first: each is known by the descriptors
      exported into it, which nothing will release. *)
Record World := {
  tables : gmap loc Table;
  readers : gmap loc ParquetReader;
  ints : gmap loc Z;
  files : gmap string File;
  calls : list Call;
  lost : list (list ArrowArray)
}.

Definition set_tables (f : gmap loc Table -> gmap loc Table) (w : World) : World :=
  {| tables := f (tables w); readers := readers w; ints := ints w;
     files := files w; calls := calls w; lost := lost w |}.

Definition set_readers (f : gmap loc ParquetReader -> gmap loc ParquetReader)
    (w : World) : World :=
  {| tables := tables w; readers := f (readers w); ints := ints w;
     files := files w; calls := calls w; lost := lost w |}.

Definition set_ints (f : gmap loc Z -> gmap loc Z) (w : World) : World :=
  {| tables := tables w; readers := readers w; ints := f (ints w);
     files := files w; calls := calls w; lost := lost w |}.

Definition set_files (f : gmap string File -> gmap string File) (w : World) : World :=
  {| tables := tables w; readers := readers w; ints := ints w;
     files := f (files w); calls := calls w; lost := lost w |}.

Definition log (c : Call) (w : World) : World :=
  {| tables := tables w; readers := readers w; ints := ints w;
     files := files w; calls := calls w ++ [c]; lost := lost w |}.

(** A block of descriptors goes out of reach. *)
Definition lose (block : list ArrowArray) (w : World) : World :=
  {| tables := tables w; readers := readers w; ints := ints w;
     files := files w; calls := calls w; lost := block :: lost w |}.

(** The exceptions of the host runtime the bridge raises. *)
Inductive caml_exn :=
| Failure (msg : string)
| Invalid_argument (msg : string).

(** How a piece of the bridge ends:
    - [Ok a]: it returns [a];
    - [Throw what]: a C++ [std::exception] is in flight;
    - [Raise e]: the host runtime's exception [e] is raised and the call is left;
    - [Fault]: the process does not survive (a null or dangling pointer is
      dereferenced, a vector is read out of range, the library aborts). *)
Inductive result (A : Type) :=
| Ok (a : A)
| Throw (what : string)
| Raise (e : caml_exn)
| Fault.
Arguments Ok {A} a.
Arguments Throw {A} what.
Arguments Raise {A} e.
Arguments Fault {A}.

Definition M (A : Type) : Type := World -> result A * World.

Definition ret {A : Type} (a : A) : M A := fun w => (Ok a, w).

Definition bind {A B : Type} (m : M A) (k : A -> M B) : M B :=
  fun w =>
    match m w with
    | (Ok a, w') => k a w'
    | (Throw what, w') => (Throw what, w')
    | (Raise e, w') => (Raise e, w')
    | (Fault, w') => (Fault, w')
    end.

Declare Scope bridge_scope.
Delimit Scope bridge_scope with bridge.
Notation "x <- m ;; k" := (bind m (fun x => k))
  (at level 100, m at next level, right associativity) : bridge_scope.
Notation "m ;;; k" := (bind m (fun _ => k))
  (at level 100, right associativity) : bridge_scope.
Local Open Scope bridge_scope.

Definition throw {A : Type} (what : string) : M A := fun w => (Throw what, w).
Definition fault {A : Type} : M A := fun w => (Fault, w).
Definition caml_failwith {A : Type} (msg : string) : M A :=
  fun w => (Raise (Failure msg), w).
Definition caml_invalid_argument {A : Type} (msg : string) : M A :=
  fun w => (Raise (Invalid_argument msg), w).
Definition modify (f : World -> World) : M unit := fun w => (Ok tt, f w).

(** [OCAML_BEGIN_PROTECT_EXN ... OCAML_END_PROTECT_EXN]: a C++ exception
    leaving the body becomes [caml_failwith] on its message, copied with
    [snprintf(err, 255, "%s", ...)]. *)
Definition OCAML_PROTECT_EXN {A : Type} (body : M A) : M A :=
  fun w =>
    match body w with
    | (Throw what, w') => (Raise (Failure (snprintf_s 255 what)), w')
    | r => r
    end.

(** [ok_exn] and [status_exn]. *)
Definition ok_exn {A : Type} (a : Result A) : M A :=
  match a with
  | Value v => ret v
  | Err status => throw status
  end.

Definition status_exn (st : Status) : M unit :=
  match st with
  | None => ret tt
  | Some status => throw status
  end.

(** *** Heap cells *)

(** [*table] *)
Definition deref_table (table : ptr) : M Table :=
  fun w =>
    match table with
    | NULL => (Fault, w)
    | Ptr l => match tables w !! l with
               | Some t => (Ok t, w)
               | None => (Fault, w)
               end
    end.

(** [new std::shared_ptr<arrow::Table>(std::move(t))] *)
Definition new_table (t : Table) : M ptr :=
  fun w =>
    let l := fresh (dom (tables w)) in
    (Ok (Ptr l), set_tables (insert l t) w).

(** [*pr] *)
Definition deref_reader (pr : ptr) : M ParquetReader :=
  fun w =>
    match pr with
    | NULL => (Fault, w)
    | Ptr l => match readers w !! l with
               | Some r => (Ok r, w)
               | None => (Fault, w)
               end
    end.

(** Assignment to a member of [*pr]. *)
Definition update_reader (pr : ptr) (f : ParquetReader -> ParquetReader) : M unit :=
  r <- deref_reader pr ;;
  match pr with
  | NULL => fault
  | Ptr l => modify (set_readers (insert l (f r)))
  end.

(** [new ParquetReader{...}] *)
Definition new_reader (r : ParquetReader) : M ptr :=
  fun w =>
    let l := fresh (dom (readers w)) in
    (Ok (Ptr l), set_readers (insert l r) w).

(** [*p = v] on an [int] cell. *)
Definition store_int (p : ptr) (v : Z) : M unit :=
  fun w =>
    match p with
    | NULL => (Fault, w)
    | Ptr l => match ints w !! l with
               | Some _ => (Ok tt, set_ints (insert l v) w)
               | None => (Fault, w)
               end
    end.

(** *** Streams *)

(** [arrow::io::FileOutputStream::Open(filename)]: the file is created or
    truncated; a directory cannot be opened. The stream is known by its path. *)
Definition FileOutputStream_Open_ (filename : string) : M (Result string) :=
  fun w =>
    match files w !! filename with
    | Some Directory => (Ok (Err (cannot_open filename)), log (FileOutputStream_Open filename) w)
    | _ => (Ok (Value filename),
            log (FileOutputStream_Open filename) (set_files (insert filename Empty) w))
    end.

(** [arrow::io::ReadableFile::Open(filename, pool)]: the content read. *)
Definition ReadableFile_Open_ (filename : string) : M (Result File) :=
  fun w =>
    match files w !! filename with
    | None | Some Directory =>
        (Ok (Err (cannot_open filename)), log (ReadableFile_Open filename) w)
    | Some content => (Ok (Value content), log (ReadableFile_Open filename) w)
    end.

(** ** The bridge *)

(** [check_column_idx] *)
Definition check_column_idx (column_idx n_cols : Z) : M unit :=
  if (column_idx <? 0) || (n_cols <=? column_idx)
  then caml_failwith
         (snprintf_s 127 ("invalid column index " +:+ to_string column_idx
                          +:+ " (ncols: " +:+ to_string n_cols +:+ ")"))
  else ret tt.

(** The chain of tests on [dt] in [table_chunked_column_]: the expected type
    and its name, or nothing for an unknown tag. *)
Definition expected_type_of (dt : Z) : option (Type_type * string) :=
  if dt =? 0 then Some (INT64, "int64")
  else if dt =? 1 then Some (DOUBLE, "float64")
  else if dt =? 2 then Some (STRING, "utf8")
  else if dt =? 3 then Some (DATE32, "date32")
  else if dt =? 4 then Some (TIMESTAMP, "timestamp")
  else if dt =? 5 then Some (BOOL, "bool")
  else None.

(** The message thrown for a chunk of another type. *)
Definition type_mismatch (expected_type_str : string) (expected_type : Type_type)
    (chunk : Array) : string :=
  "expected type with " +:+ expected_type_str +:+ " (id "
  +:+ to_string expected_type +:+ ") got " +:+ ToString (arr_type chunk).

(** The loop over the chunks of [table_chunked_column_]: chunk [i] is checked,
    then exported to [out + i]. [out] is the block obtained from [malloc],
    known by the descriptors exported into it so far. The exception thrown on
    a chunk of another type leaves the function without the block being freed
    or its descriptors released: the block is lost. *)
Fixpoint export_chunks (chunks : list Array) (expected_type : Type_type)
    (expected_type_str : string) (out : list ArrowArray) : M (list ArrowArray) :=
  match chunks with
  | [] => ret out
  | chunk :: rest =>
      if negb (id (arr_type chunk) =? expected_type)
      then
        modify (lose out) ;;;
        throw (type_mismatch expected_type_str expected_type chunk)
      else
        export_chunks rest expected_type expected_type_str (out ++ [ExportArray chunk])
  end.

(** [table_chunked_column_]. [column_name] is [None] for a null pointer. The
    result is the content of the block of descriptors handed to the caller.
    A column of a table is never null here, so the last test on [array]
    ("error finding column") has nothing to catch. *)
Definition table_chunked_column_ (table : ptr) (column_name : option string)
    (column_idx : Z) (nchunks : ptr) (dt : Z) : M (list ArrowArray) :=
  OCAML_PROTECT_EXN (
    expected <- match expected_type_of dt with
                | Some e => ret e
                | None => throw ("unknown datatype " +:+ to_string dt)
                end ;;
    t <- deref_table table ;;
    array <- match column_name with
             | Some n =>
                 match GetColumnByName t n with
                 | Some a => ret a
                 | None => throw ("cannot find column " +:+ n)
                 end
             | None =>
                 match column t column_idx with
                 | Some a => ret a
                 | None => fault
                 end
             end ;;
    store_int nchunks (Z.of_nat (length array)) ;;;
    export_chunks array (fst expected) (snd expected) []).

(** [table_chunked_column] *)
Definition table_chunked_column (table : ptr) (column_idx : Z) (nchunks : ptr)
    (dt : Z) : M (list ArrowArray) :=
  t <- deref_table table ;;
  let n_cols := num_columns t in
  check_column_idx column_idx n_cols ;;;
  table_chunked_column_ table None column_idx nchunks dt.

(** [table_chunked_column_by_name] *)
Definition table_chunked_column_by_name (table : ptr) (col_name : option string)
    (nchunks : ptr) (dt : Z) : M (list ArrowArray) :=
  table_chunked_column_ table col_name 0 nchunks dt.

(** [compression_of_int] *)
Definition compression_of_int (compression : Z) : Compression :=
  if compression =? 1 then SNAPPY
  else if compression =? 2 then GZIP
  else if compression =? 3 then BROTLI
  else if compression =? 4 then ZSTD
  else if compression =? 5 then LZ4
  else if compression =? 6 then LZ4_FRAME
  else if compression =? 7 then LZO
  else if compression =? 8 then BZ2
  else UNCOMPRESSED.

(** [arrow::ipc::NewFileWriter(sink, schema)]: the writer, known by its sink. *)
Definition ipc_NewFileWriter (sink : string) (s : Schema) : Result string :=
  Value sink.

(** [RecordBatchWriter::WriteTable(table)] of the IPC file writer. *)
Definition ipc_WriteTable_ (writer : string) (t : Table) : M Status :=
  fun w => (Ok None, log (ipc_WriteTable writer t)
                         (set_files (insert writer (IpcFile t)) w)).

(** The codecs of the Feather format: none, LZ4 frames and Zstandard. *)
Definition feather_codec (c : Compression) : bool :=
  match c with
  | UNCOMPRESSED | LZ4_FRAME | ZSTD => true
  | _ => false
  end.

Definition unsupported_codec : string :=
  "Invalid: Only LZ4_FRAME and ZSTD compression allowed".

(** [arrow::ipc::feather::WriteTable(table, sink, properties)]: a codec the
    format does not have is refused, and the table is not written. *)
Definition feather_WriteTable_ (t : Table) (sink : string) (wp : WriteProperties)
  : M Status :=
  fun w =>
    if feather_codec (wp_compression wp)
    then (Ok None, log (feather_WriteTable sink t wp)
                       (set_files (insert sink
                          (FeatherFile t (wp_chunksize wp) (wp_compression wp))) w))
    else (Ok (Some unsupported_codec), w).

(** [arrow_write_file] *)
Definition arrow_write_file (filename : string) (array : ArrowArray)
    (sch : ArrowSchema) (chunk_size : Z) : M unit :=
  OCAML_PROTECT_EXN (
    file <- FileOutputStream_Open_ filename ;;
    outfile <- ok_exn file ;;
    let record_batch := ImportRecordBatch array sch in
    batch <- ok_exn record_batch ;;
    let table := FromRecordBatches [batch] in
    table_ <- ok_exn table ;;
    let batch_writer := ipc_NewFileWriter outfile (schema table_) in
    writer <- ok_exn batch_writer ;;
    st <- ipc_WriteTable_ writer table_ ;;
    status_exn st).

(** [feather_write_file] *)
Definition feather_write_file (filename : string) (array : ArrowArray)
    (sch : ArrowSchema) (chunk_size compression : Z) : M unit :=
  OCAML_PROTECT_EXN (
    file <- FileOutputStream_Open_ filename ;;
    outfile <- ok_exn file ;;
    let record_batch := ImportRecordBatch array sch in
    batch <- ok_exn record_batch ;;
    let table := FromRecordBatches [batch] in
    let wp := {| wp_chunksize := chunk_size;
                 wp_compression := compression_of_int compression |} in
    table_ <- ok_exn table ;;
    st <- feather_WriteTable_ table_ outfile wp ;;
    status_exn st).

(** The column vector built from [col_idxs] and [ncols]: every column when
    [ncols] is zero. *)
Definition columns_arg (col_idxs : list Z) : option (list Z) :=
  match col_idxs with
  | [] => None
  | _ => Some col_idxs
  end.

(** [parquet::ParquetFileReader::OpenFile(filename, mmap)]: the parsed file;
    it throws when the file cannot be opened or is no Parquet file. *)
Definition ParquetFileReader_OpenFile_ (filename : string) (mmap : Z) : M ParquetFile :=
  fun w =>
    let w' := log (ParquetFileReader_OpenFile filename mmap) w in
    match files w !! filename with
    | None | Some Directory => (Throw (cannot_open filename), w')
    | Some (Parquet f) => (Ok f, w')
    | Some _ => (Throw not_parquet, w')
    end.

(** [parquet::arrow::FileReader::Make(pool, std::move(preader), &reader)]. *)
Definition FileReader_Make (preader : ParquetFile) : Status * FileReader :=
  (None, {| fr_file := preader; fr_use_threads := false |}).

(** The row groups [0 .. n - 1], as [std::iota] fills them. *)
Definition iota (n : Z) : list Z := Z.of_nat <$> seq 0 (Z.to_nat n).

(** [parquet_reader_open] *)
Definition parquet_reader_open (filename : string) (col_idxs : list Z)
    (use_threads mmap : Z) : M ptr :=
  OCAML_PROTECT_EXN (
    preader <- ParquetFileReader_OpenFile_ filename mmap ;;
    let '(st, reader0) := FileReader_Make preader in
    status_exn st ;;;
    let reader1 := if 0 <=? use_threads then set_use_threads reader0 use_threads
                   else reader0 in
    let all_groups := iota (num_row_groups reader1) in
    batch_reader_ <- ok_exn (GetRecordBatchReader reader1 all_groups (columns_arg col_idxs)) ;;
    new_reader {| reader := Some reader1; batch_reader := Some batch_reader_ |}).

(** [parquet_reader_next] *)
Definition parquet_reader_next (pr : ptr) : M ptr :=
  r <- deref_reader pr ;;
  match batch_reader r with
  | None => caml_failwith "reader has already been closed"
  | Some it =>
      OCAML_PROTECT_EXN (
        let '(st, batch, it') := ReadNext it in
        modify (log RecordBatchReader_ReadNext) ;;;
        update_reader pr (fun r => {| reader := reader r; batch_reader := Some it' |}) ;;;
        status_exn st ;;;
        match batch with
        | None => ret NULL
        | Some b =>
            let table_ := FromRecordBatches [b] in
            table <- ok_exn table_ ;;
            new_table table
        end)
  end.

(** [parquet_reader_close] *)
Definition parquet_reader_close (pr : ptr) : M unit :=
  update_reader pr (fun r => {| reader := reader r; batch_reader := None |}) ;;;
  update_reader pr (fun r => {| reader := None; batch_reader := batch_reader r |}).

(** [parquet_reader_free]: [delete] on a null pointer does nothing. *)
Definition parquet_reader_free (pr : ptr) : M unit :=
  match pr with
  | NULL => ret tt
  | Ptr l =>
      deref_reader pr ;;;
      modify (set_readers (delete l))
  end.

(** The [while (only_first > 0)] loop of [parquet_read_table] on one row
    group's batch reader. Each turn calls [ReadNext]; the result is the limit
    left and the batches collected. *)
Fixpoint read_batches (batch_reader_ : RecordBatchReader) (only_first : Z)
    (batches : list RecordBatch) : M (Z * list RecordBatch) :=
  if 0 <? only_first then
    modify (log RecordBatchReader_ReadNext) ;;;
    match batch_reader_ with
    | [] => ret (only_first, batches)
    | Err status :: _ => throw status
    | Value batch :: rest =>
        if only_first <=? rb_num_rows batch
        then ret (0, batches ++ [RecordBatch_Slice batch 0 only_first])
        else read_batches rest (only_first - rb_num_rows batch) (batches ++ [batch])
    end
  else ret (only_first, batches).

(** The loop of [parquet_read_table] over the row groups still to visit. *)
Fixpoint read_row_groups (reader_ : FileReader) (cols : option (list Z))
    (row_group_idxs : list Z) (only_first : Z) (batches : list RecordBatch)
  : M (list RecordBatch) :=
  match row_group_idxs with
  | [] => ret batches
  | row_group_idx :: more =>
      batch_reader_ <- ok_exn (GetRecordBatchReader reader_ [row_group_idx] cols) ;;
      r <- read_batches batch_reader_ only_first batches ;;
      if fst r <=? 0 then ret (snd r)
      else read_row_groups reader_ cols more (fst r) (snd r)
  end.

(** [parquet_read_table] *)
Definition parquet_read_table (filename : string) (col_idxs : list Z)
    (use_threads only_first : Z) : M ptr :=
  OCAML_PROTECT_EXN (
    file <- ReadableFile_Open_ filename ;;
    infile <- ok_exn file ;;
    reader0 <- ok_exn (OpenFile infile) ;;
    let reader1 := if 0 <=? use_threads then set_use_threads reader0 use_threads
                   else reader0 in
    table <- (if only_first <? 0
              then ok_exn (ReadTable reader1 (columns_arg col_idxs))
              else
                batches <- read_row_groups reader1 (columns_arg col_idxs)
                             (iota (num_row_groups reader1)) only_first [] ;;
                let table_ := FromRecordBatches batches in
                ok_exn table_) ;;
    new_table table).

(** [table_slice] *)
Definition table_slice (table : ptr) (offset length : Z) : M ptr :=
  (if offset <? 0 then caml_invalid_argument "negative offset" else ret tt) ;;;
  (if length <? 0 then caml_invalid_argument "negative length" else ret tt) ;;;
  t <- deref_table table ;;
  match Table_Slice t offset length with
  | Some slice => new_table slice
  | None => fault
  end.

(** [table_num_rows] *)
Definition table_num_rows (table : ptr) : M Z :=
  match table with
  | Ptr _ => t <- deref_table table ;; ret (num_rows t)
  | NULL => ret 0
  end.

(** [table_schema] *)
Definition table_schema (table : ptr) : M ArrowSchema :=
  t <- deref_table table ;;
  ret (ExportSchema (schema t)).

(** [free_table] *)
Definition free_table (table : ptr) : M unit :=
  match table with
  | Ptr l =>
      deref_table table ;;;
      modify (set_tables (delete l))
  | NULL => ret tt
  end.

(** ** Shared storage *)

(** The buffers a table refers to, and the handles that share a buffer. *)
Definition table_buffers (t : Table) : list positive :=
  arr_buffer <$> concat (columns t).

Definition owners (w : World) (b : positive) : gset loc :=
  dom (filter (fun lt => b ∈ table_buffers lt.2) (tables w)).

(** The cells a chunk views, in order: [arr_length] positions of its buffer
    from [arr_offset] on, read at the type of the chunk. *)
Definition Array_cells (a : Array) : list (DataType * positive * Z) :=
  (fun i => (arr_type a, arr_buffer a, arr_offset a + Z.of_nat i))
    <$> seq 0 (Z.to_nat (arr_length a)).

(** The cells of the rows of a column, in order. *)
Definition ChunkedArray_cells (c : ChunkedArray) : list (DataType * positive * Z) :=
  foldr (fun a cells => Array_cells a ++ cells) [] c.

(** [slice] is a view of the rows [offset .. offset + length - 1] of [t]: it
    has the columns of [t], and the rows of each are the very cells of these
    rows of the source. *)
Definition views_rows (slice t : Table) (offset length : Z) : Prop :=
  Forall2 (fun c' c =>
             ChunkedArray_cells c'
             = take (Z.to_nat length) (drop (Z.to_nat offset) (ChunkedArray_cells c)))
          (columns slice) (columns t).

(** ** States of a streaming reader *)

(** The Closed state of a reader cell: both owning pointers are null. *)
Definition Closed (w : World) (l : loc) : Prop :=
  readers w !! l = Some {| reader := None; batch_reader := None |}.

(** ** Sample data *)

Definition int64_type : DataType := {| id := INT64; ToString := "int64" |}.
Definition double_type : DataType := {| id := DOUBLE; ToString := "double" |}.

Definition sample_array (ty : DataType) (buffer : positive) (n : Z) : Array :=
  {| arr_type := ty; arr_buffer := buffer; arr_offset := 0; arr_length := n |}.

Definition sample_schema : Schema :=
  [ {| name := "x"; type := int64_type |}; {| name := "y"; type := double_type |} ].

(** Seven rows; the second chunk of column [x] is of another type than the
    first. *)
Definition sample_table : Table :=
  {| schema := sample_schema;
     columns := [ [sample_array int64_type 1 3; sample_array double_type 2 4];
                  [sample_array double_type 3 7] ];
     num_rows := 7 |}.

Definition sample_batch (bx byy : positive) (n : Z) : RecordBatch :=
  {| rb_schema := sample_schema;
     rb_columns := [sample_array int64_type bx n; sample_array double_type byy n];
     rb_num_rows := n |}.

(** Eight rows in two row groups: batches of 3 and 3 rows, then one of 2. *)
Definition sample_file : ParquetFile :=
  {| pq_schema := sample_schema;
     pq_row_groups := [ [Value (sample_batch 11 12 3); Value (sample_batch 13 14 3)];
                        [Value (sample_batch 15 16 2)] ] |}.

(** A Parquet file of the same schema without any row group. *)
Definition empty_file : ParquetFile :=
  {| pq_schema := sample_schema; pq_row_groups := [] |}.

Definition sample_reader : ParquetReader :=
  {| reader := Some {| fr_file := sample_file; fr_use_threads := false |};
     batch_reader := Some (concat (pq_row_groups sample_file)) |}.

Definition sample_world : World :=
  {| tables := {[ 5%positive := sample_table ]};
     readers := {[ 2%positive := sample_reader ]};
     ints := {[ 1%positive := 7 ]};
     files := {[ "data.parquet" := Parquet sample_file;
                 "empty.parquet" := Parquet empty_file ]};
     calls := [];
     lost := [] |}.

(** A path of 295 bytes that names no file. *)
Definition long_path : string :=
  String.concat "/" (replicate 40 "nested") +:+ "/missing.parquet".

(** A record batch of three rows as it crosses the boundary. *)
Definition sample_ArrowArray : ArrowArray :=
  {| aa_length := 3;
     aa_offset := 0;
     aa_buffers := [];
     aa_children := [sample_array int64_type 21 3; sample_array double_type 22 3];
     aa_release := true |}.

Definition sample_ArrowSchema : ArrowSchema := ExportSchema sample_schema.

(** ** Vocabulary of the column accessors *)

(** The first chunk of a column whose type id is not the expected one. *)
Definition first_mismatch (chunks : list Array) (expected_type : Type_type)
  : option Array :=
  List.find (fun c => negb (id (arr_type c) =? expected_type)) chunks.

(** The chunks before it: all of them when every chunk is as expected. *)
Fixpoint before_mismatch (chunks : list Array) (expected_type : Type_type)
  : list Array :=
  match chunks with
  | [] => []
  | c :: rest =>
      if negb (id (arr_type c) =? expected_type) then []
      else c :: before_mismatch rest expected_type
  end.

(** A failed call leaves the [int] cell [n] as it was. *)
Definition leaves_int_unmodified {A : Type} (call : M A) (w : World) (n : loc) : Prop :=
  forall e w', call w = (Raise e, w') -> ints w' !! n = ints w !! n.

(** ** Handles and failures *)

(** Two states with the same handles: the table cells are the same, and the
    same reader cells are live. *)
Definition same_handles (w w' : World) : Prop :=
  tables w' = tables w /\ dom (readers w') = dom (readers w).

(** A failing call gives the caller no partial result: when it raises, no
    handle has been made or freed, and no table has changed. *)
Definition no_partial_result {A : Type} (m : M A) : Prop :=
  forall w e w', m w = (Raise e, w') -> same_handles w w'.

(** A piece of the bridge that makes no handle and frees none, however it
    ends. *)
Definition keeps_handles {A : Type} (m : M A) : Prop :=
  forall w r w', m w = (r, w') -> same_handles w w'.

(** A piece of the bridge that touches the handles only if it returns. *)
Definition handles_only_on_return {A : Type} (m : M A) : Prop :=
  forall w r w', m w = (r, w') -> (exists a, r = Ok a) \/ same_handles w w'.

(** ** Well-formed tables *)

(** Every chunk has a length, and every column has as many rows as the table. *)
Definition nonneg_chunks (c : ChunkedArray) : Prop :=
  Forall (fun a => 0 <= arr_length a) c.

Definition well_formed (t : Table) : Prop :=
  Forall (fun c => nonneg_chunks c /\ ChunkedArray_length c = num_rows t) (columns t).

(** ** Well-formed Parquet files *)

(** Every row group decodes without error into batches of the file's schema. *)
Definition good_item (s : Schema) (r : Result RecordBatch) : Prop :=
  exists b, r = Value b /\ 0 <= rb_num_rows b /\ rb_schema b = s.

Definition well_formed_file (f : ParquetFile) : Prop :=
  Forall (Forall (good_item (pq_schema f))) (pq_row_groups f).

(** ** More of the bridge *)

(** The loop of [free_chunked_column] over [arrays[0 .. nchunks - 1]]: the
    descriptors whose release callback is called, in order. Reading past the
    block is a fault. *)
Fixpoint release_chunks (arrays : list ArrowArray) (nchunks : nat) {struct nchunks}
  : M (list ArrowArray) :=
  match nchunks with
  | O => ret []
  | S n =>
      match arrays with
      | [] => fault
      | a :: rest =>
          released <- release_chunks rest n ;;
          ret (if aa_release a then a :: released else released)
      end
  end.

(** [free_chunked_column]: the result lists the descriptors released before
    the block is freed. A count of zero or less releases nothing. *)
Definition free_chunked_column (arrays : list ArrowArray) (nchunks : Z)
  : M (list ArrowArray) :=
  release_chunks arrays (Z.to_nat nchunks).

(** [FileReader::GetSchema(&schema)]: the schema of the file, which was
    converted once already when the reader was made. *)
Definition GetSchema (r : FileReader) : Status * Schema :=
  (None, pq_schema (fr_file r)).

(** [parquet_schema]. The [int64_t] cell of [num_rows] lives with the [int]
    cells. *)
Definition parquet_schema (filename : string) (num_rows_ : ptr) : M ArrowSchema :=
  OCAML_PROTECT_EXN (
    file <- ReadableFile_Open_ filename ;;
    infile <- ok_exn file ;;
    reader_ <- ok_exn (OpenFile infile) ;;
    let '(st, schema_) := GetSchema reader_ in
    status_exn st ;;;
    store_int num_rows_ (file_num_rows (fr_file reader_)) ;;;
    ret (ExportSchema schema_)).

(** [create_table] *)
Definition create_table (array : ArrowArray) (sch : ArrowSchema) : M ptr :=
  OCAML_PROTECT_EXN (
    let record_batch := ImportRecordBatch array sch in
    batch <- ok_exn record_batch ;;
    let table := FromRecordBatches [batch] in
    t <- ok_exn table ;;
    new_table t).

(** [feather_write_table] *)
Definition feather_write_table (filename : string) (table : ptr)
    (chunk_size compression : Z) : M unit :=
  OCAML_PROTECT_EXN (
    file <- FileOutputStream_Open_ filename ;;
    outfile <- ok_exn file ;;
    let wp := {| wp_chunksize := chunk_size;
                 wp_compression := compression_of_int compression |} in
    t <- deref_table table ;;
    st <- feather_WriteTable_ t outfile wp ;;
    status_exn st).

(** [Table::Make(schema, columns)]: the row count is the length of the first
    column, 0 without columns. *)
Definition Table_Make (s : Schema) (cols : list ChunkedArray) : Table :=
  {| schema := s;
     columns := cols;
     num_rows := match cols with
                 | [] => 0
                 | c :: _ => ChunkedArray_length c
                 end |}.

(** [arrow::ConcatenateTables(tables)] with the default options: the schemas
    must all equal the first one; column [i] of the result is made of the
    chunks of column [i] of every table, in the order of the tables. *)
Definition no_table : string := "Invalid: Must pass at least one table".

Definition concat_column (tables : list Table) (i : nat) : ChunkedArray :=
  concat (filter_map (fun t => columns t !! i) tables).

Definition ConcatenateTables (tables : list Table) : Result Table :=
  match tables with
  | [] => Err no_table
  | first :: _ =>
      if forallb (fun t => bool_decide (schema t = schema first)) tables
      then Value (Table_Make (schema first)
                    (concat_column tables <$> seq 0 (length (schema first))))
      else Err schema_mismatch
  end.

(** The loop of [table_concatenate] copying [**(tables + i)] into the vector. *)
Fixpoint deref_tables (tables : list ptr) : M (list Table) :=
  match tables with
  | [] => ret []
  | p :: rest =>
      t <- deref_table p ;;
      vec <- deref_tables rest ;;
      ret (t :: vec)
  end.

(** [table_concatenate]: [tables] are the [ntables] handles of the array. *)
Definition table_concatenate (tables : list ptr) : M ptr :=
  OCAML_PROTECT_EXN (
    vec <- deref_tables tables ;;
    let table := ConcatenateTables vec in
    t <- ok_exn table ;;
    new_table t).

(** ** The entry points over the rest of the library *)

(** The IPC file reader, the Feather reader, the CSV and JSON table readers
    and the Parquet writer are outside this development. A reader is known by
    the answers to what the bridge asks of it; the functions of the library
    that make the readers, and the Parquet writer, are taken as given. *)

(** [arrow::ipc::RecordBatchFileReader]: [schema()]. *)
Record RecordBatchFileReader := { ipc_schema : Schema }.

(** [arrow::ipc::feather::Reader]: [schema()], and the status and the table
    of [Read(&table)] ([None]) and of [Read(indices, &table)]. *)
Record feather_Reader := {
  feather_Reader_schema : Schema;
  feather_Reader_Read : option (list Z) -> Status * Table
}.

(** [arrow::csv::TableReader]: [Read()]. *)
Record csv_TableReader := { csv_TableReader_Read : Result Table }.

(** [arrow::json::TableReader]: the status and the table of [Read(&table)]. *)
Record json_TableReader := { json_TableReader_Read : Status * Table }.

(** - [RecordBatchFileReader_Open]: [arrow::ipc::RecordBatchFileReader::Open(infile)];
    - [feather_Reader_Open]: [arrow::ipc::feather::Reader::Open(infile)];
    - [csv_TableReader_Make]: [arrow::csv::TableReader::Make(pool, infile, ...)]
      with the default options;
    - [json_TableReader_Make]: [arrow::json::TableReader::Make(pool, infile, ...,
      &reader)] with the default options: the status and the reader;
    - [parquet_written]: what [parquet::arrow::WriteTable] leaves in the file,
      and its status, for a table, a chunk size and a codec. *)
Record Library := {
  RecordBatchFileReader_Open : File -> Result RecordBatchFileReader;
  feather_Reader_Open : File -> Result feather_Reader;
  csv_TableReader_Make : File -> Result csv_TableReader;
  json_TableReader_Make : File -> Status * json_TableReader;
  parquet_written : Table -> Z -> Compression -> File * Status
}.

(** [Result::ValueOrDie]: the library aborts on a result without value. *)
Definition ValueOrDie {A : Type} (a : Result A) : M A :=
  match a with
  | Value v => ret v
  | Err _ => fault
  end.

(** [free_schema]: the result lists the schema when its release callback is
    called, before the struct is freed. *)
Definition free_schema (sch : ArrowSchema) : M (list ArrowSchema) :=
  ret (if as_release sch then [sch] else []).

Section bridge.

Variable lib : Library.

(** [parquet::arrow::WriteTable(table, pool, sink, chunk_size, properties,
    arrow_properties)]; the bridge always asks for the deprecated INT96
    timestamps. *)
Definition parquet_WriteTable_ (t : Table) (sink : string) (chunk_size : Z)
    (compression_ : Compression) : M Status :=
  fun w =>
    let '(content, st) := parquet_written lib t chunk_size compression_ in
    (Ok st, log (parquet_WriteTable sink t chunk_size compression_)
                (set_files (insert sink content) w)).

(** [arrow_schema] *)
Definition arrow_schema (filename : string) : M ArrowSchema :=
  OCAML_PROTECT_EXN (
    file <- ReadableFile_Open_ filename ;;
    infile <- ok_exn file ;;
    let reader_ := RecordBatchFileReader_Open lib infile in
    r <- ok_exn reader_ ;;
    let schema_ := ipc_schema r in
    ret (ExportSchema schema_)).

(** [feather_schema] *)
Definition feather_schema (filename : string) : M ArrowSchema :=
  OCAML_PROTECT_EXN (
    file <- ReadableFile_Open_ filename ;;
    infile <- ok_exn file ;;
    let reader_ := feather_Reader_Open lib infile in
    r <- ok_exn reader_ ;;
    let schema_ := feather_Reader_schema r in
    ret (ExportSchema schema_)).

(** [parquet_write_file] *)
Definition parquet_write_file (filename : string) (array : ArrowArray)
    (sch : ArrowSchema) (chunk_size compression : Z) : M unit :=
  OCAML_PROTECT_EXN (
    file <- FileOutputStream_Open_ filename ;;
    outfile <- ok_exn file ;;
    let record_batch := ImportRecordBatch array sch in
    batch <- ok_exn record_batch ;;
    let table := FromRecordBatches [batch] in
    let compression_ := compression_of_int compression in
    table_ <- ok_exn table ;;
    st <- parquet_WriteTable_ table_ outfile chunk_size compression_ ;;
    status_exn st).

(** [parquet_write_table] *)
Definition parquet_write_table (filename : string) (table : ptr)
    (chunk_size compression : Z) : M unit :=
  OCAML_PROTECT_EXN (
    file <- FileOutputStream_Open_ filename ;;
    outfile <- ok_exn file ;;
    let compression_ := compression_of_int compression in
    t <- deref_table table ;;
    st <- parquet_WriteTable_ t outfile chunk_size compression_ ;;
    status_exn st).

(** [feather_read_table] *)
Definition feather_read_table (filename : string) (col_idxs : list Z) : M ptr :=
  OCAML_PROTECT_EXN (
    file <- ReadableFile_Open_ filename ;;
    infile <- ok_exn file ;;
    let reader_ := feather_Reader_Open lib infile in
    r <- ok_exn reader_ ;;
    let '(st, table) := feather_Reader_Read r (columns_arg col_idxs) in
    status_exn st ;;;
    new_table table).

(** [csv_read_table]: the result of [Read()] does not go through [ok_exn]. *)
Definition csv_read_table (filename : string) : M ptr :=
  OCAML_PROTECT_EXN (
    file <- ReadableFile_Open_ filename ;;
    infile <- ok_exn file ;;
    let reader_ := csv_TableReader_Make lib infile in
    r <- ok_exn reader_ ;;
    let table := csv_TableReader_Read r in
    t <- ValueOrDie table ;;
    new_table t).

(** [json_read_table] *)
Definition json_read_table (filename : string) : M ptr :=
  OCAML_PROTECT_EXN (
    file <- ReadableFile_Open_ filename ;;
    infile <- ok_exn file ;;
    let '(st, reader_) := json_TableReader_Make lib infile in
    status_exn st ;;;
    let '(st', table) := json_TableReader_Read reader_ in
    status_exn st' ;;;
    new_table table).

(** [P] holds of every call of every function of the bridge that the host
    can call, in the order of the source: the 26 entry points, and
    [check_column_idx] and [table_chunked_column_], which the source does not
    hide. ([compression_of_int], the one function left, has no effect and
    cannot fail.) *)
Definition every_entry_point (P : forall A : Type, M A -> Prop) : Prop :=
  (forall filename, P _ (arrow_schema filename)) /\
  (forall filename, P _ (feather_schema filename)) /\
  (forall filename num_rows_, P _ (parquet_schema filename num_rows_)) /\
  (forall sch, P _ (free_schema sch)) /\
  (forall column_idx n_cols, P _ (check_column_idx column_idx n_cols)) /\
  (forall table column_name column_idx nchunks dt,
     P _ (table_chunked_column_ table column_name column_idx nchunks dt)) /\
  (forall table column_idx nchunks dt,
     P _ (table_chunked_column table column_idx nchunks dt)) /\
  (forall table col_name nchunks dt,
     P _ (table_chunked_column_by_name table col_name nchunks dt)) /\
  (forall arrays nchunks, P _ (free_chunked_column arrays nchunks)) /\
  (forall array sch, P _ (create_table array sch)) /\
  (forall filename array sch chunk_size compression,
     P _ (parquet_write_file filename array sch chunk_size compression)) /\
  (forall filename array sch chunk_size,
     P _ (arrow_write_file filename array sch chunk_size)) /\
  (forall filename array sch chunk_size compression,
     P _ (feather_write_file filename array sch chunk_size compression)) /\
  (forall filename table chunk_size compression,
     P _ (parquet_write_table filename table chunk_size compression)) /\
  (forall filename table chunk_size compression,
     P _ (feather_write_table filename table chunk_size compression)) /\
  (forall filename col_idxs use_threads mmap,
     P _ (parquet_reader_open filename col_idxs use_threads mmap)) /\
  (forall pr, P _ (parquet_reader_next pr)) /\
  (forall pr, P _ (parquet_reader_close pr)) /\
  (forall pr, P _ (parquet_reader_free pr)) /\
  (forall filename col_idxs use_threads only_first,
     P _ (parquet_read_table filename col_idxs use_threads only_first)) /\
  (forall filename col_idxs, P _ (feather_read_table filename col_idxs)) /\
  (forall filename, P _ (csv_read_table filename)) /\
  (forall filename, P _ (json_read_table filename)) /\
  (forall tables_, P _ (table_concatenate tables_)) /\
  (forall table offset length, P _ (table_slice table offset length)) /\
  (forall table, P _ (table_num_rows table)) /\
  (forall table, P _ (table_schema table)) /\
  (forall table, P _ (free_table table)).

End bridge.

(** A library for the examples: a file is what its extension says, and the
    content of a Parquet file read as CSV does not parse. *)
Definition sample_library : Library :=
  {| RecordBatchFileReader_Open := fun content =>
       match content with
       | IpcFile t => Value {| ipc_schema := schema t |}
       | _ => Err "Invalid: Not an Arrow file"
       end;
     feather_Reader_Open := fun content =>
       match content with
       | FeatherFile t _ _ =>
           Value {| feather_Reader_schema := schema t;
                    feather_Reader_Read := fun _ => (None, t) |}
       | _ => Err "Invalid: Not a Feather V1 or Arrow IPC file"
       end;
     csv_TableReader_Make := fun content =>
       Value {| csv_TableReader_Read := Err "Invalid: CSV parse error" |};
     json_TableReader_Make := fun content =>
       (None, {| json_TableReader_Read :=
                   (Some "Invalid: JSON parse error",
                    {| schema := []; columns := []; num_rows := 0 |}) |});
     parquet_written := fun t chunk_size c =>
       (Parquet {| pq_schema := schema t; pq_row_groups := [] |}, None) |}.

(** ** Vocabulary of the further properties *)

(** The first [k] rows of a sequence of batches: whole batches while they
    fit, then the beginning of the next one. *)
Fixpoint take_rows (k : Z) (batches : list RecordBatch) : list RecordBatch :=
  match batches with
  | [] => []
  | b :: rest =>
      if k <=? 0 then []
      else if k <=? rb_num_rows b then [RecordBatch_Slice b 0 k]
      else b :: take_rows (k - rb_num_rows b) rest
  end.

(** [n] successive calls of [parquet_reader_next] on one reader, as a caller
    draining the stream makes them: the handles returned, in order. *)
Fixpoint parquet_reader_next_n (pr : ptr) (n : nat) : M (list ptr) :=
  match n with
  | O => ret []
  | S n' =>
      t <- parquet_reader_next pr ;;
      ts <- parquet_reader_next_n pr n' ;;
      ret (t :: ts)
  end.

(** All the library calls of a stretch of the log are [ReadNext]. *)
Definition only_ReadNext (cs : list Call) : Prop :=
  Forall (fun c => c = RecordBatchReader_ReadNext) cs.

(** A call never ends with a C++ exception in flight. *)
Definition never_throws {A : Type} (m : M A) : Prop :=
  forall w what w', m w <> (Throw what, w').

(** A call raises no exception of the host runtime by itself. *)
Definition never_raises {A : Type} (m : M A) : Prop :=
  forall w e w', m w <> (Raise e, w').

(** The failure messages a call may raise have at most [n] bytes. *)
Definition failures_within {A : Type} (n : nat) (m : M A) : Prop :=
  forall w msg w', m w = (Raise (Failure msg), w') -> (String.length msg <= n)%nat.

(** Every column of the table is there, one per field of the schema. *)
Definition columns_match_schema (t : Table) : Prop :=
  length (columns t) = length (schema t).

(** * Properties *)

(** ** Running the monad *)

Lemma bind_Ok {A B : Type} (m : M A) (k : A -> M B) (w w' : World) (a : A) :
  m w = (Ok a, w') -> bind m k w = k a w'.
Proof. intros H. unfold bind. rewrite H. reflexivity. Qed.

Lemma deref_table_live (w : World) (l : loc) (t : Table) :
  tables w !! l = Some t -> deref_table (Ptr l) w = (Ok t, w).
Proof. intros H. unfold deref_table. rewrite H. reflexivity. Qed.

Lemma deref_reader_live (w : World) (l : loc) (r : ParquetReader) :
  readers w !! l = Some r -> deref_reader (Ptr l) w = (Ok r, w).
Proof. intros H. unfold deref_reader. rewrite H. reflexivity. Qed.

Lemma update_reader_live (w : World) (l : loc) (r : ParquetReader)
    (f : ParquetReader -> ParquetReader) :
  readers w !! l = Some r ->
  update_reader (Ptr l) f w = (Ok tt, set_readers (insert l (f r)) w).
Proof.
  intros H. unfold update_reader.
  rewrite (bind_Ok _ _ _ _ _ (deref_reader_live w l r H)). reflexivity.
Qed.

Lemma World_eq (w1 w2 : World) :
  tables w1 = tables w2 -> readers w1 = readers w2 -> ints w1 = ints w2 ->
  files w1 = files w2 -> calls w1 = calls w2 -> lost w1 = lost w2 -> w1 = w2.
Proof. destruct w1, w2. simpl. intros. subst. reflexivity. Qed.

(** ** The codec selector *)

(** C5. The tags 1 to 8 select Snappy, Gzip, Brotli, Zstd, LZ4, LZ4-frame,
    LZO and BZ2; every other integer selects the uncompressed codec. The
    mapping is a total function: no tag fails. *)
Theorem compression_of_int_table :
  compression_of_int 1 = SNAPPY /\ compression_of_int 2 = GZIP /\
  compression_of_int 3 = BROTLI /\ compression_of_int 4 = ZSTD /\
  compression_of_int 5 = LZ4 /\ compression_of_int 6 = LZ4_FRAME /\
  compression_of_int 7 = LZO /\ compression_of_int 8 = BZ2 /\
  forall tag : Z, tag < 1 \/ 8 < tag -> compression_of_int tag = UNCOMPRESSED.
Proof.
  repeat split; try reflexivity.
  intros tag Htag. unfold compression_of_int.
  repeat match goal with
         | |- context [?a =? ?b] => destruct (Z.eqb_spec a b); [lia|]
         end.
  reflexivity.
Qed.

Lemma compression_of_int_table_witness :
  compression_of_int 0 = UNCOMPRESSED /\ compression_of_int (-1) = UNCOMPRESSED /\
  compression_of_int 9 = UNCOMPRESSED.
Proof.
  pose proof compression_of_int_table as H.
  do 8 (destruct H as [_ H]).
  split; [apply (H 0); lia|]. split; [apply (H (-1)); lia | apply (H 9); lia].
Defined.

(** ** Closing a streaming reader *)

Lemma parquet_reader_close_live (w : World) (l : loc) (r : ParquetReader) :
  readers w !! l = Some r ->
  parquet_reader_close (Ptr l) w
  = (Ok tt, set_readers (insert l {| reader := None; batch_reader := None |}) w).
Proof.
  intros H. unfold parquet_reader_close.
  rewrite (bind_Ok _ _ _ _ _ (update_reader_live w l r _ H)).
  rewrite (update_reader_live _ l {| reader := reader r; batch_reader := None |}).
  - f_equal. apply World_eq; simpl; try reflexivity. apply insert_insert_eq.
  - simpl. apply lookup_insert_eq.
Qed.

Lemma parquet_reader_next_closed (w : World) (l : loc) (r : ParquetReader) :
  readers w !! l = Some r -> batch_reader r = None ->
  parquet_reader_next (Ptr l) w
  = (Raise (Failure "reader has already been closed"), w).
Proof.
  intros H Hb. unfold parquet_reader_next.
  rewrite (bind_Ok _ _ _ _ _ (deref_reader_live w l r H)). rewrite Hb. reflexivity.
Qed.

(** C7. Closing a live reader succeeds and leaves it Closed, both references
    released; closing it again succeeds too and changes nothing, so any
    number of further calls neither fails nor crashes. *)
Theorem parquet_reader_close_idempotent (w : World) (l : loc) (r : ParquetReader) :
  readers w !! l = Some r ->
  exists w1,
    parquet_reader_close (Ptr l) w = (Ok tt, w1) /\
    Closed w1 l /\
    parquet_reader_close (Ptr l) w1 = (Ok tt, w1) /\
    forall n, Nat.iter n (fun w' => (parquet_reader_close (Ptr l) w').2) w1 = w1.
Proof.
  intros H.
  set (closed := {| reader := None; batch_reader := None |}).
  exists (set_readers (insert l closed) w).
  assert (Hc : Closed (set_readers (insert l closed) w) l)
    by (unfold Closed; simpl; apply lookup_insert_eq).
  assert (Hagain : parquet_reader_close (Ptr l) (set_readers (insert l closed) w)
                   = (Ok tt, set_readers (insert l closed) w)).
  { rewrite (parquet_reader_close_live _ l closed Hc). f_equal.
    apply World_eq; simpl; try reflexivity. apply insert_insert_eq. }
  split; [apply (parquet_reader_close_live w l r H)|].
  split; [exact Hc|]. split; [exact Hagain|].
  induction n as [|n IH]; simpl; [reflexivity|]. rewrite IH, Hagain. reflexivity.
Qed.

Lemma parquet_reader_close_idempotent_witness :
  exists w1,
    parquet_reader_close (Ptr 2%positive) sample_world = (Ok tt, w1) /\
    Closed w1 2%positive /\
    parquet_reader_close (Ptr 2%positive) w1 = (Ok tt, w1) /\
    forall n, Nat.iter n (fun w' => (parquet_reader_close (Ptr 2%positive) w').2) w1 = w1.
Proof.
  apply (parquet_reader_close_idempotent sample_world 2%positive sample_reader).
  reflexivity.
Defined.

(** C3. After [parquet_reader_close] on a live reader, the reader is Closed,
    and in the Closed state [parquet_reader_next] raises the failure
    "reader has already been closed" and leaves the whole state as it was:
    the iterator is not read (no [ReadNext] is performed), however often the
    call is repeated. *)
Theorem parquet_reader_next_after_close (w : World) (l : loc) (r : ParquetReader) :
  readers w !! l = Some r ->
  exists w1,
    parquet_reader_close (Ptr l) w = (Ok tt, w1) /\
    Closed w1 l /\
    forall w2, Closed w2 l ->
      parquet_reader_next (Ptr l) w2
      = (Raise (Failure "reader has already been closed"), w2) /\
      forall n, Nat.iter n (fun w' => (parquet_reader_next (Ptr l) w').2) w2 = w2.
Proof.
  intros H.
  exists (set_readers (insert l {| reader := None; batch_reader := None |}) w).
  split; [apply (parquet_reader_close_live w l r H)|].
  split; [unfold Closed; simpl; apply lookup_insert_eq|].
  intros w2 Hc.
  pose proof (parquet_reader_next_closed w2 l _ Hc eq_refl) as Hnext.
  split; [exact Hnext|].
  induction n as [|n IH]; simpl; [reflexivity|]. rewrite IH, Hnext. reflexivity.
Qed.

Lemma parquet_reader_next_after_close_witness :
  exists w1,
    parquet_reader_close (Ptr 2%positive) sample_world = (Ok tt, w1) /\
    parquet_reader_next (Ptr 2%positive) w1
    = (Raise (Failure "reader has already been closed"), w1) /\
    calls w1 = [].
Proof.
  destruct (parquet_reader_next_after_close sample_world 2%positive sample_reader
              eq_refl) as (w1 & Hclose & Hclosed & Hnext).
  exists w1. split; [exact Hclose|]. split; [apply (Hnext w1 Hclosed)|].
  injection Hclose as <-. reflexivity.
Defined.

(** In the Open state the same call does read the iterator. *)
Example parquet_reader_next_open :
  exists w1,
    parquet_reader_next (Ptr 2%positive) sample_world = (Ok (Ptr 6%positive), w1) /\
    calls w1 = [RecordBatchReader_ReadNext] /\
    num_rows <$> tables w1 !! 6%positive = Some 3.
Proof. eexists. split; [vm_compute; reflexivity|]. split; reflexivity. Qed.

(** Open, close, next: the life of a streaming reader on a file. *)
Example streaming_reader_lifecycle :
  exists w1 w2,
    parquet_reader_open "data.parquet" [] (-1) 0 sample_world
    = (Ok (Ptr 3%positive), w1) /\
    parquet_reader_close (Ptr 3%positive) w1 = (Ok tt, w2) /\
    parquet_reader_next (Ptr 3%positive) w2
    = (Raise (Failure "reader has already been closed"), w2).
Proof.
  eexists _, _. split; [vm_compute; reflexivity|].
  split; vm_compute; reflexivity.
Qed.

(** ** Table accessors *)

(** C8. [table_num_rows] returns 0 on a null handle and the row count of the
    table on a live handle, changing nothing. The other accessors dereference
    the handle unchecked: on a null handle [table_schema], [table_slice] (with
    valid arguments) and the column accessors (with a valid request) fault. *)
Theorem table_num_rows_null (w : World) :
  table_num_rows NULL w = (Ok 0, w) /\
  (forall l t, tables w !! l = Some t ->
     table_num_rows (Ptr l) w = (Ok (num_rows t), w)) /\
  table_schema NULL w = (Fault, w) /\
  (forall offset length, 0 <= offset -> 0 <= length ->
     table_slice NULL offset length w = (Fault, w)) /\
  (forall column_idx nchunks dt,
     table_chunked_column NULL column_idx nchunks dt w = (Fault, w)) /\
  (forall col_name nchunks dt, is_Some (expected_type_of dt) ->
     table_chunked_column_by_name NULL col_name nchunks dt w = (Fault, w)).
Proof.
  split; [reflexivity|]. split.
  { intros l t H. unfold table_num_rows.
    rewrite (bind_Ok _ _ _ _ _ (deref_table_live w l t H)). reflexivity. }
  split; [reflexivity|]. split.
  { intros offset length Ho Hl. unfold table_slice, bind.
    destruct (Z.ltb_spec offset 0); [lia|]. destruct (Z.ltb_spec length 0); [lia|].
    reflexivity. }
  split; [reflexivity|].
  intros col_name nchunks dt [e He].
  unfold table_chunked_column_by_name, table_chunked_column_, OCAML_PROTECT_EXN, bind.
  rewrite He. reflexivity.
Qed.

Lemma table_num_rows_null_witness :
  table_num_rows NULL sample_world = (Ok 0, sample_world) /\
  table_num_rows (Ptr 5%positive) sample_world = (Ok 7, sample_world) /\
  table_slice NULL 0 1 sample_world = (Fault, sample_world) /\
  table_chunked_column_by_name NULL (Some "x") (Ptr 1%positive) 0 sample_world
  = (Fault, sample_world).
Proof.
  destruct (table_num_rows_null sample_world) as (H0 & Hlive & _ & Hslice & _ & Hname).
  split; [exact H0|].
  split; [apply (Hlive 5%positive sample_table); reflexivity|].
  split; [apply (Hslice 0 1); lia|].
  apply (Hname (Some "x") (Ptr 1%positive) 0). eexists. reflexivity.
Defined.

(** C10. [free_table] on a null handle does nothing. On a live handle it
    removes that cell and the reference to the table it holds: the cell is
    gone, every other handle keeps its table, the handle no longer counts
    among the owners of any buffer while all other owners remain, and nothing
    else changes. *)
Theorem free_table_releases_handle (w : World) :
  free_table NULL w = (Ok tt, w) /\
  forall l t, tables w !! l = Some t ->
    exists w',
      free_table (Ptr l) w = (Ok tt, w') /\
      tables w' !! l = None /\
      (forall l', l' <> l -> tables w' !! l' = tables w !! l') /\
      (forall b, owners w' b = owners w b ∖ {[l]}) /\
      readers w' = readers w /\ ints w' = ints w /\
      files w' = files w /\ calls w' = calls w.
Proof.
  split; [reflexivity|]. intros l t H.
  exists (set_tables (delete l) w). split.
  { unfold free_table. rewrite (bind_Ok _ _ _ _ _ (deref_table_live w l t H)).
    reflexivity. }
  simpl. split; [apply lookup_delete_eq|].
  split; [intros l' Hne; apply lookup_delete_ne; congruence|].
  split; [|repeat split].
  intros b. unfold owners. simpl.
  rewrite map_filter_delete. apply dom_delete_L.
Qed.

Lemma free_table_releases_handle_witness :
  exists w',
    free_table (Ptr 5%positive) sample_world = (Ok tt, w') /\
    tables w' !! 5%positive = None /\
    owners w' 1%positive = owners sample_world 1%positive ∖ {[5%positive]}.
Proof.
  destruct (proj2 (free_table_releases_handle sample_world) 5%positive sample_table
              eq_refl) as (w' & Hfree & Hgone & _ & Howners & _).
  exists w'. split; [exact Hfree|]. split; [exact Hgone|]. apply Howners.
Defined.

(** ** Writers *)

Lemma FromRecordBatches_one (batch : RecordBatch) :
  FromRecordBatches [batch]
  = Value {| schema := rb_schema batch;
             columns := batches_column [batch] <$> seq 0 (length (rb_schema batch));
             num_rows := rb_num_rows batch + 0 |}.
Proof.
  unfold FromRecordBatches, FromRecordBatches_with. simpl.
  rewrite bool_decide_eq_true_2 by reflexivity. reflexivity.
Qed.

(** C9. [arrow_write_file] never reads [chunk_size]: with any two values the
    call ends the same way, performs the same library operations in the same
    order and leaves the same file system. What it does is fixed by the path,
    the array and the schema alone: it fails on a path that cannot be opened;
    it fails, leaving the truncated file, when the batch cannot be imported;
    otherwise it writes the table made of the batch. *)
Theorem arrow_write_file_ignores_chunk_size (filename : string) (array : ArrowArray)
    (sch : ArrowSchema) (a b : Z) (w : World) :
  arrow_write_file filename array sch a w = arrow_write_file filename array sch b w /\
  arrow_write_file filename array sch a w
  = match files w !! filename with
    | Some Directory =>
        (Raise (Failure (snprintf_s 255 (cannot_open filename))),
         log (FileOutputStream_Open filename) w)
    | _ =>
        let w1 := log (FileOutputStream_Open filename)
                      (set_files (insert filename Empty) w) in
        match ImportRecordBatch array sch with
        | Err status => (Raise (Failure (snprintf_s 255 status)), w1)
        | Value batch =>
            match FromRecordBatches [batch] with
            | Value t => (Ok tt, log (ipc_WriteTable filename t)
                                     (set_files (insert filename (IpcFile t)) w1))
            | Err status => (Raise (Failure (snprintf_s 255 status)), w1)
            end
        end
    end /\
  forall batch, exists t, FromRecordBatches [batch] = Value t /\
                          num_rows t = rb_num_rows batch.
Proof.
  split; [reflexivity|]. split.
  - unfold arrow_write_file, OCAML_PROTECT_EXN, bind, FileOutputStream_Open_.
    destruct (files w !! filename) as [[]|];
      cbn [ok_exn ret throw]; try reflexivity;
      destruct (ImportRecordBatch array sch) as [batch|status];
      cbn [ok_exn ret throw]; try reflexivity;
      destruct (FromRecordBatches [batch]) as [tbl|status2]; reflexivity.
  - intros batch. eexists. split; [apply FromRecordBatches_one|]. simpl. lia.
Qed.

(** The call does write: the stream is opened, then the table goes out. *)
Example arrow_write_file_sample :
  exists t w',
    arrow_write_file "out.arrow" sample_ArrowArray sample_ArrowSchema 1 sample_world
    = (Ok tt, w') /\
    files w' !! "out.arrow" = Some (IpcFile t) /\ num_rows t = 3 /\
    calls w' = [FileOutputStream_Open "out.arrow"; ipc_WriteTable "out.arrow" t].
Proof.
  eexists _, _. split; [vm_compute; reflexivity|].
  split; [vm_compute; reflexivity|]. split; reflexivity.
Qed.

(** The library refuses a struct array that starts at an offset, and the
    Feather writer a codec that the format does not have. *)
Example create_table_nonzero_offset :
  (create_table {| aa_length := 3; aa_offset := 1; aa_buffers := [];
                   aa_children := aa_children sample_ArrowArray;
                   aa_release := true |} sample_ArrowSchema sample_world).1
  = Raise (Failure nonzero_offset).
Proof. vm_compute. reflexivity. Qed.

Example feather_write_file_snappy :
  (feather_write_file "out.feather" sample_ArrowArray sample_ArrowSchema 1024 1
     sample_world).1
  = Raise (Failure unsupported_codec) /\
  (feather_write_file "out.feather" sample_ArrowArray sample_ArrowSchema 1024 6
     sample_world).1
  = Ok tt.
Proof. split; vm_compute; reflexivity. Qed.

(** The Feather writer, by contrast, passes [chunk_size] on to the library. *)
Example feather_write_file_reads_chunk_size :
  feather_write_file "out.feather" sample_ArrowArray sample_ArrowSchema 1 0 sample_world
  <> feather_write_file "out.feather" sample_ArrowArray sample_ArrowSchema 2 0 sample_world.
Proof.
  intros H. apply (f_equal (fun r => files r.2 !! "out.feather")) in H.
  vm_compute in H. discriminate H.
Qed.

(** ** Typed column extraction *)

Lemma substring_all (s : string) (n : nat) :
  (String.length s <= n)%nat -> String.substring 0 n s = s.
Proof.
  revert n. induction s as [|c s IH]; intros [|n] H; simpl in *;
    try reflexivity; try lia.
  rewrite IH by lia. reflexivity.
Qed.

Lemma snprintf_s_short (size : nat) (s : string) :
  (String.length s < size)%nat -> snprintf_s size s = s.
Proof. intros H. apply substring_all. lia. Qed.

Lemma first_mismatch_Some (chunks : list Array) (e : Type_type) (c : Array) :
  first_mismatch chunks e = Some c -> c ∈ chunks /\ id (arr_type c) <> e.
Proof.
  intros H. apply List.find_some in H as [Hin Hne]. split.
  - apply list_elem_of_In, Hin.
  - apply negb_true_iff, Z.eqb_neq in Hne. exact Hne.
Qed.

Lemma first_mismatch_None (chunks : list Array) (e : Type_type) :
  first_mismatch chunks e = None <-> Forall (fun c => id (arr_type c) = e) chunks.
Proof.
  unfold first_mismatch. induction chunks as [|c chunks IH]; simpl.
  - split; [constructor | reflexivity].
  - destruct (Z.eqb_spec (id (arr_type c)) e) as [Heq|Hne]; simpl.
    + rewrite IH. split; [intros H; constructor; assumption|].
      intros H. inversion H; assumption.
    + split; [discriminate|]. intros H. inversion H; contradiction.
Qed.

Lemma export_chunks_run (chunks : list Array) (e : Type_type) (s : string)
    (out : list ArrowArray) (w : World) :
  export_chunks chunks e s out w
  = match first_mismatch chunks e with
    | Some c => (Throw (type_mismatch s e c),
                 lose (out ++ (ExportArray <$> before_mismatch chunks e)) w)
    | None => (Ok (out ++ (ExportArray <$> chunks)), w)
    end.
Proof.
  unfold first_mismatch. revert out.
  induction chunks as [|c chunks IH]; intros out; simpl.
  - rewrite app_nil_r. reflexivity.
  - destruct (negb (id (arr_type c) =? e)); simpl.
    + rewrite app_nil_r. reflexivity.
    + rewrite IH, <- !app_assoc. destruct (List.find _ chunks); reflexivity.
Qed.

Lemma before_mismatch_spec (chunks : list Array) (e : Type_type) (c : Array) :
  first_mismatch chunks e = Some c ->
  exists rest,
    chunks = before_mismatch chunks e ++ c :: rest /\
    Forall (fun a => id (arr_type a) = e) (before_mismatch chunks e).
Proof.
  unfold first_mismatch. induction chunks as [|a chunks IH]; simpl; [discriminate|].
  destruct (Z.eqb_spec (id (arr_type a)) e) as [Heq|Hne]; simpl.
  - intros H. destruct (IH H) as (rest & Hsplit & Hall).
    exists rest. split; [f_equal; exact Hsplit | constructor; assumption].
  - intros [= <-]. exists chunks. split; [reflexivity | constructor].
Qed.

(** What [table_chunked_column_] does once the tag is known, the handle and
    the cell of [nchunks] are live and the column is found. *)
Lemma table_chunked_column__found (w : World) (l n : loc) (t : Table) (v dt : Z)
    (e : Type_type) (s : string) (column_name : option string) (column_idx : Z)
    (array : ChunkedArray) :
  tables w !! l = Some t -> ints w !! n = Some v ->
  expected_type_of dt = Some (e, s) ->
  match column_name with
  | Some name => GetColumnByName t name
  | None => column t column_idx
  end = Some array ->
  table_chunked_column_ (Ptr l) column_name column_idx (Ptr n) dt w
  = match first_mismatch array e with
    | Some c => (Raise (Failure (snprintf_s 255 (type_mismatch s e c))),
                 lose (ExportArray <$> before_mismatch array e)
                   (set_ints (insert n (Z.of_nat (length array))) w))
    | None => (Ok (ExportArray <$> array),
               set_ints (insert n (Z.of_nat (length array))) w)
    end.
Proof.
  intros Ht Hn He Hcol.
  unfold table_chunked_column_, OCAML_PROTECT_EXN, bind. rewrite He.
  unfold ret at 1. rewrite (deref_table_live w l t Ht).
  assert (Harr : (match column_name with
                  | Some name => match GetColumnByName t name with
                                 | Some a => ret a
                                 | None => throw ("cannot find column " +:+ name)
                                 end
                  | None => match column t column_idx with
                            | Some a => ret a
                            | None => fault
                            end
                  end) w = (Ok array, w)).
  { destruct column_name; rewrite Hcol; reflexivity. }
  rewrite Harr. unfold store_int. rewrite Hn. simpl.
  rewrite export_chunks_run. destruct (first_mismatch array e); reflexivity.
Qed.

Lemma column_in_range (t : Table) (i : Z) (array : ChunkedArray) :
  column t i = Some array -> 0 <= i < num_columns t.
Proof.
  unfold column, num_columns. destruct (Z.ltb_spec i 0); [discriminate|].
  intros Hcol. apply lookup_lt_Some in Hcol. lia.
Qed.

Lemma table_chunked_column_in_range (w : World) (l : loc) (t : Table)
    (column_idx : Z) (nchunks : ptr) (dt : Z) (array : ChunkedArray) :
  tables w !! l = Some t -> column t column_idx = Some array ->
  table_chunked_column (Ptr l) column_idx nchunks dt w
  = table_chunked_column_ (Ptr l) None column_idx nchunks dt w.
Proof.
  intros Ht Hcol. apply column_in_range in Hcol.
  unfold table_chunked_column.
  rewrite (bind_Ok _ _ _ _ _ (deref_table_live w l t Ht)).
  unfold check_column_idx.
  destruct (Z.ltb_spec column_idx 0); [lia|].
  destruct (Z.leb_spec (num_columns t) column_idx); [lia|]. reflexivity.
Qed.

Lemma string_app_assoc (a b c : string) : (a +:+ b) +:+ c = a +:+ (b +:+ c).
Proof.
  induction a as [|x a IH]; [reflexivity|].
  change (String x ((a +:+ b) +:+ c) = String x (a +:+ (b +:+ c))).
  f_equal. exact IH.
Qed.

Lemma string_app_assoc5 (a b c d e f : string) :
  (a +:+ b +:+ c +:+ d +:+ e) +:+ f = a +:+ b +:+ c +:+ d +:+ e +:+ f.
Proof. rewrite !string_app_assoc. reflexivity. Qed.

Lemma string_app_length (a b : string) :
  String.length (a +:+ b) = (String.length a + String.length b)%nat.
Proof.
  induction a as [|x a IH]; [reflexivity|].
  change (S (String.length (a +:+ b)) = S (String.length a + String.length b)).
  f_equal. exact IH.
Qed.

Lemma substring_app (p a : string) (n : nat) :
  (String.length p <= n)%nat ->
  String.substring 0 n (p +:+ a) = p +:+ String.substring 0 (n - String.length p) a.
Proof.
  revert n. induction p as [|x p IH]; intros n Hn.
  - change (String.substring 0 n a = String.substring 0 (n - 0) a).
    rewrite Nat.sub_0_r. reflexivity.
  - destruct n as [|n]; [simpl in Hn; lia|].
    change (String x (String.substring 0 n (p +:+ a))
            = String x (p +:+ String.substring 0 (n - String.length p) a)).
    f_equal. apply IH. simpl in Hn. lia.
Qed.

Lemma prefix_substring (a : string) (n : nat) :
  String.prefix (String.substring 0 n a) a = true.
Proof.
  revert n. induction a as [|x a IH]; intros [|n]; simpl; try reflexivity.
  destruct (ascii_dec x x); [apply IH | contradiction].
Qed.

(** The part of the message before the actual type fits the failure buffer
    for each of the six tags. *)
Lemma expected_type_of_short (dt : Z) (e : Type_type) (s : string) :
  expected_type_of dt = Some (e, s) ->
  (String.length ("expected type with " +:+ s +:+ " (id " +:+ to_string e +:+ ") got ")
   <= 41)%nat.
Proof.
  unfold expected_type_of.
  repeat match goal with
         | |- context [dt =? ?k] => destruct (dt =? k)
         end; intros [= <- <-]; vm_compute; lia.
Qed.

(** C2. Take a live table handle, a known type tag and a column found by
    index ([table_chunked_column]) or by name ([table_chunked_column_by_name]).
    If any chunk of the column, at whatever position, has a type id other
    than the expected one, the call fails, and the failure message is
    "expected type with <expected name> (id <expected id>) got <actual type>"
    for a chunk of the column whose type differs: the expected type is always
    there in full, and so is the actual type unless the message exceeds the
    254 bytes of the failure buffer, which keeps the beginning of it. If every chunk has the expected type the call
    returns the exported chunks; it returns them in no other case. *)
Theorem table_chunked_column_checks_every_chunk
    (w : World) (l n : loc) (t : Table) (v dt : Z) (e : Type_type) (s : string)
    (column_idx : Z) (col_name : string) (array : ChunkedArray)
    (call : M (list ArrowArray)) :
  tables w !! l = Some t -> ints w !! n = Some v ->
  expected_type_of dt = Some (e, s) ->
  (call = table_chunked_column (Ptr l) column_idx (Ptr n) dt /\
   column t column_idx = Some array) \/
  (call = table_chunked_column_by_name (Ptr l) (Some col_name) (Ptr n) dt /\
   GetColumnByName t col_name = Some array) ->
  (Exists (fun c => id (arr_type c) <> e) array ->
   exists c, c ∈ array /\ id (arr_type c) <> e /\
     (call w).1 = Raise (Failure (snprintf_s 255 (type_mismatch s e c))) /\
     exists actual,
       (call w).1 = Raise (Failure ("expected type with " +:+ s +:+ " (id "
                                    +:+ to_string e +:+ ") got " +:+ actual)) /\
       String.prefix actual (ToString (arr_type c)) = true /\
       ((String.length (type_mismatch s e c) <= 254)%nat ->
        actual = ToString (arr_type c))) /\
  (Forall (fun c => id (arr_type c) = e) array ->
   (call w).1 = Ok (ExportArray <$> array)) /\
  (forall out, (call w).1 = Ok out -> Forall (fun c => id (arr_type c) = e) array).
Proof.
  intros Ht Hn He Hcall.
  assert (Hrun : call w
                 = match first_mismatch array e with
                   | Some c => (Raise (Failure (snprintf_s 255 (type_mismatch s e c))),
                                lose (ExportArray <$> before_mismatch array e)
                                  (set_ints (insert n (Z.of_nat (length array))) w))
                   | None => (Ok (ExportArray <$> array),
                              set_ints (insert n (Z.of_nat (length array))) w)
                   end).
  { destruct Hcall as [[-> Hcol]|[-> Hcol]].
    - rewrite (table_chunked_column_in_range w l t column_idx (Ptr n) dt array Ht Hcol).
      apply (table_chunked_column__found w l n t v dt e s None column_idx array);
        assumption.
    - unfold table_chunked_column_by_name.
      apply (table_chunked_column__found w l n t v dt e s (Some col_name) 0 array);
        assumption. }
  rewrite Hrun. clear Hrun Hcall.
  destruct (first_mismatch array e) as [c|] eqn:Hfirst; cbn [fst].
  - destruct (first_mismatch_Some _ _ _ Hfirst) as [Hin Hne].
    split; [|split].
    + intros _. exists c. split; [exact Hin|]. split; [exact Hne|].
      split; [reflexivity|].
      pose proof (expected_type_of_short dt e s He) as Hshort.
      set (p := "expected type with " +:+ s +:+ " (id " +:+ to_string e +:+ ") got ") in *.
      assert (Hsplit : type_mismatch s e c = p +:+ ToString (arr_type c)).
      { symmetry. apply string_app_assoc5. }
      exists (String.substring 0 (254 - String.length p) (ToString (arr_type c))).
      split; [|split].
      * unfold snprintf_s. rewrite Hsplit, substring_app by lia.
        f_equal. f_equal. apply string_app_assoc5.
      * apply prefix_substring.
      * intros Hlen. rewrite Hsplit, string_app_length in Hlen.
        apply substring_all. lia.
    + intros Hall. rewrite Forall_forall in Hall. elim Hne. apply Hall, Hin.
    + intros out Hout. discriminate Hout.
  - apply first_mismatch_None in Hfirst. split; [|split].
    + intros Hex. apply Exists_exists in Hex as (c & Hin & Hne).
      rewrite Forall_forall in Hfirst. elim Hne. apply Hfirst, Hin.
    + intros _. reflexivity.
    + intros out _. exact Hfirst.
Qed.

Lemma table_chunked_column_checks_every_chunk_witness :
  (table_chunked_column (Ptr 5%positive) 0 (Ptr 1%positive) 0 sample_world).1
  = Raise (Failure "expected type with int64 (id 9) got double") /\
  (table_chunked_column_by_name (Ptr 5%positive) (Some "y") (Ptr 1%positive) 1
     sample_world).1
  = Ok [ExportArray (sample_array double_type 3 7)].
Proof.
  split.
  - destruct (table_chunked_column_checks_every_chunk sample_world 5%positive
                1%positive sample_table 7 0 INT64 "int64" 0 "x"
                [sample_array int64_type 1 3; sample_array double_type 2 4]
                (table_chunked_column (Ptr 5%positive) 0 (Ptr 1%positive) 0)
                eq_refl eq_refl eq_refl (or_introl (conj eq_refl eq_refl)))
      as (Hfail & _ & _).
    destruct Hfail as (c & Hin & Hne & Hmsg & _).
    + apply Exists_cons_tl, Exists_cons_hd. simpl. discriminate.
    + apply elem_of_cons in Hin as [->|Hin]; [elim Hne; reflexivity|].
      apply list_elem_of_singleton in Hin as ->. rewrite Hmsg. reflexivity.
  - apply (table_chunked_column_checks_every_chunk sample_world 5%positive
             1%positive sample_table 7 1 DOUBLE "float64" 0 "y"
             [sample_array double_type 3 7]
             (table_chunked_column_by_name (Ptr 5%positive) (Some "y")
                (Ptr 1%positive) 1)
             eq_refl eq_refl eq_refl (or_intror (conj eq_refl eq_refl))).
    repeat constructor.
Defined.

(** C4, as stated, fails: on a chunk of another type the call fails after
    [*nchunks] has been written. Here the cell holds 7 before the call and 2,
    the number of chunks of column [x], after it. *)
Lemma table_chunked_column__writes_nchunks_before_failing :
  ~ leaves_int_unmodified
      (table_chunked_column_ (Ptr 5%positive) (Some "x") 0 (Ptr 1%positive) 0)
      sample_world 1%positive.
Proof.
  intros H.
  assert (Hrun : table_chunked_column_ (Ptr 5%positive) (Some "x") 0 (Ptr 1%positive) 0
                   sample_world
                 = (Raise (Failure "expected type with int64 (id 9) got double"),
                    lose [ExportArray (sample_array int64_type 1 3)]
                      (set_ints (insert 1%positive 2) sample_world)))
    by (vm_compute; reflexivity).
  specialize (H _ _ Hrun). vm_compute in H. discriminate H.
Qed.

(** ** Failing calls *)

Lemma same_handles_refl (w : World) : same_handles w w.
Proof. split; reflexivity. Qed.

Lemma same_handles_trans (w1 w2 w3 : World) :
  same_handles w1 w2 -> same_handles w2 w3 -> same_handles w1 w3.
Proof. intros [Ht1 Hr1] [Ht2 Hr2]. split; congruence. Qed.

(** A piece that leaves the table and reader cells alone keeps the handles. *)
Lemma keeps_handles_cells {A : Type} (m : M A) :
  (forall w, tables (m w).2 = tables w /\ readers (m w).2 = readers w) ->
  keeps_handles m.
Proof.
  intros Hm w r w' Hrun. destruct (Hm w) as [Ht Hr]. rewrite Hrun in Ht, Hr.
  simpl in Ht, Hr. split; [exact Ht | rewrite Hr; reflexivity].
Qed.

Lemma keeps_handles_bind {A B : Type} (m : M A) (k : A -> M B) :
  keeps_handles m -> (forall a, keeps_handles (k a)) -> keeps_handles (bind m k).
Proof.
  intros Hm Hk w r w'. unfold bind.
  destruct (m w) as [[a|what|e|] w0] eqn:Hrun; specialize (Hm _ _ _ Hrun).
  - intros Hrun'. apply (same_handles_trans w w0 w' Hm), (Hk a _ _ _ Hrun').
  - intros [= <- <-]. exact Hm.
  - intros [= <- <-]. exact Hm.
  - intros [= <- <-]. exact Hm.
Qed.

Lemma keeps_handles_protect {A : Type} (body : M A) :
  keeps_handles body -> keeps_handles (OCAML_PROTECT_EXN body).
Proof.
  intros Hbody w r w'. unfold OCAML_PROTECT_EXN.
  destruct (body w) as [[a|what|e|] w0] eqn:Hrun; specialize (Hbody _ _ _ Hrun);
    intros [= <- <-]; exact Hbody.
Qed.

Ltac cells_kept :=
  apply keeps_handles_cells; intros w;
  repeat match goal with
         | |- context [match ?x with _ => _ end] => destruct x
         end;
  split; reflexivity.

Lemma keeps_handles_ret {A : Type} (a : A) : keeps_handles (ret a).
Proof. unfold ret. cells_kept. Qed.

Lemma keeps_handles_throw {A : Type} (what : string) : keeps_handles (@throw A what).
Proof. unfold throw. cells_kept. Qed.

Lemma keeps_handles_fault {A : Type} : keeps_handles (@fault A).
Proof. unfold fault. cells_kept. Qed.

Lemma keeps_handles_caml_failwith {A : Type} (msg : string) :
  keeps_handles (@caml_failwith A msg).
Proof. unfold caml_failwith. cells_kept. Qed.

Lemma keeps_handles_caml_invalid_argument {A : Type} (msg : string) :
  keeps_handles (@caml_invalid_argument A msg).
Proof. unfold caml_invalid_argument. cells_kept. Qed.

Lemma keeps_handles_ok_exn {A : Type} (r : Result A) : keeps_handles (ok_exn r).
Proof. unfold ok_exn, ret, throw. cells_kept. Qed.

Lemma keeps_handles_status_exn (st : Status) : keeps_handles (status_exn st).
Proof. unfold status_exn, ret, throw. cells_kept. Qed.

Lemma keeps_handles_ValueOrDie {A : Type} (r : Result A) : keeps_handles (ValueOrDie r).
Proof. unfold ValueOrDie, ret, fault. cells_kept. Qed.

Lemma keeps_handles_log (c : Call) : keeps_handles (modify (log c)).
Proof. unfold modify. cells_kept. Qed.

Lemma keeps_handles_lose (block : list ArrowArray) : keeps_handles (modify (lose block)).
Proof. unfold modify. cells_kept. Qed.

Lemma keeps_handles_deref_table (p : ptr) : keeps_handles (deref_table p).
Proof. unfold deref_table. cells_kept. Qed.

Lemma keeps_handles_deref_reader (p : ptr) : keeps_handles (deref_reader p).
Proof. unfold deref_reader. cells_kept. Qed.

Lemma keeps_handles_store_int (p : ptr) (v : Z) : keeps_handles (store_int p v).
Proof. unfold store_int. cells_kept. Qed.

Lemma keeps_handles_check_column_idx (column_idx n_cols : Z) :
  keeps_handles (check_column_idx column_idx n_cols).
Proof. unfold check_column_idx, caml_failwith, ret. cells_kept. Qed.

Lemma keeps_handles_FileOutputStream_Open (filename : string) :
  keeps_handles (FileOutputStream_Open_ filename).
Proof. unfold FileOutputStream_Open_. cells_kept. Qed.

Lemma keeps_handles_ReadableFile_Open (filename : string) :
  keeps_handles (ReadableFile_Open_ filename).
Proof. unfold ReadableFile_Open_. cells_kept. Qed.

Lemma keeps_handles_ParquetFileReader_OpenFile (filename : string) (mmap : Z) :
  keeps_handles (ParquetFileReader_OpenFile_ filename mmap).
Proof. unfold ParquetFileReader_OpenFile_. cells_kept. Qed.

Lemma keeps_handles_ipc_WriteTable (writer : string) (t : Table) :
  keeps_handles (ipc_WriteTable_ writer t).
Proof. unfold ipc_WriteTable_. cells_kept. Qed.

Lemma keeps_handles_feather_WriteTable (t : Table) (sink : string)
    (wp : WriteProperties) :
  keeps_handles (feather_WriteTable_ t sink wp).
Proof. unfold feather_WriteTable_. cells_kept. Qed.

Lemma keeps_handles_parquet_WriteTable (lib : Library)
    (t : Table) (sink : string) (chunk_size : Z) (c : Compression) :
  keeps_handles (parquet_WriteTable_ lib t sink chunk_size c).
Proof. unfold parquet_WriteTable_. cells_kept. Qed.

(** An assignment to a member of a live reader cell frees and makes none. *)
Lemma keeps_handles_update_reader (p : ptr) (f : ParquetReader -> ParquetReader) :
  keeps_handles (update_reader p f).
Proof.
  intros w r w'. unfold update_reader, bind, deref_reader, modify.
  destruct p as [|l]; [intros [= <- <-]; apply same_handles_refl|].
  destruct (readers w !! l) as [r0|] eqn:Hl; intros [= <- <-];
    [|apply same_handles_refl].
  split; [reflexivity|]. simpl. apply dom_insert_lookup_L. rewrite Hl. eauto.
Qed.

Lemma keeps_handles_export_chunks (chunks : list Array) (e : Type_type) (s : string)
    (out : list ArrowArray) :
  keeps_handles (export_chunks chunks e s out).
Proof.
  revert out. induction chunks as [|c chunks IH]; intros out; simpl;
    [apply keeps_handles_ret|].
  destruct (negb (id (arr_type c) =? e)); [|apply IH].
  apply keeps_handles_bind; [apply keeps_handles_lose|].
  intros _. apply keeps_handles_throw.
Qed.

Lemma keeps_handles_release_chunks (arrays : list ArrowArray) (n : nat) :
  keeps_handles (release_chunks arrays n).
Proof.
  revert arrays. induction n as [|n IH]; intros arrays; [apply keeps_handles_ret|].
  destruct arrays as [|a rest]; [apply keeps_handles_fault|]. cbn [release_chunks].
  apply keeps_handles_bind; [apply IH | intros; apply keeps_handles_ret].
Qed.

Lemma keeps_handles_read_batches (items : RecordBatchReader) (k : Z)
    (acc : list RecordBatch) :
  keeps_handles (read_batches items k acc).
Proof.
  revert k acc. induction items as [|[b|st] items IH]; intros k acc; simpl;
    destruct (0 <? k); try apply keeps_handles_ret;
    (apply keeps_handles_bind; [apply keeps_handles_log | intros _]);
    try apply keeps_handles_ret; try apply keeps_handles_throw.
  destruct (k <=? rb_num_rows b); [apply keeps_handles_ret | apply IH].
Qed.

Lemma keeps_handles_read_row_groups (r : FileReader) (cols : option (list Z))
    (idxs : list Z) (k : Z) (acc : list RecordBatch) :
  keeps_handles (read_row_groups r cols idxs k acc).
Proof.
  revert k acc. induction idxs as [|idx idxs IH]; intros k acc; simpl;
    [apply keeps_handles_ret|].
  apply keeps_handles_bind; [apply keeps_handles_ok_exn | intros items].
  apply keeps_handles_bind; [apply keeps_handles_read_batches | intros res].
  destruct (fst res <=? 0); [apply keeps_handles_ret | apply IH].
Qed.

Lemma keeps_handles_deref_tables (ptrs : list ptr) : keeps_handles (deref_tables ptrs).
Proof.
  induction ptrs as [|p ptrs IH]; simpl; [apply keeps_handles_ret|].
  apply keeps_handles_bind; [apply keeps_handles_deref_table | intros t].
  apply keeps_handles_bind; [exact IH | intros; apply keeps_handles_ret].
Qed.

Lemma handles_only_on_return_keeps {A : Type} (m : M A) :
  keeps_handles m -> handles_only_on_return m.
Proof. intros Hm w r w' Hrun. right. exact (Hm _ _ _ Hrun). Qed.

Lemma handles_only_on_return_bind {A B : Type} (m : M A) (k : A -> M B) :
  keeps_handles m -> (forall a, handles_only_on_return (k a)) ->
  handles_only_on_return (bind m k).
Proof.
  intros Hm Hk w r w'. unfold bind.
  destruct (m w) as [[a|what|e|] w0] eqn:Hrun; specialize (Hm _ _ _ Hrun).
  - intros Hrun'. destruct (Hk a _ _ _ Hrun') as [Hok|Hsame]; [left; exact Hok|].
    right. exact (same_handles_trans w w0 w' Hm Hsame).
  - intros [= <- <-]. right. exact Hm.
  - intros [= <- <-]. right. exact Hm.
  - intros [= <- <-]. right. exact Hm.
Qed.

Lemma handles_only_on_return_protect {A : Type} (body : M A) :
  handles_only_on_return body -> handles_only_on_return (OCAML_PROTECT_EXN body).
Proof.
  intros Hbody w r w'. unfold OCAML_PROTECT_EXN.
  destruct (body w) as [[a|what|e|] w0] eqn:Hrun;
    destruct (Hbody _ _ _ Hrun) as [[a' Hok]|Hsame]; try discriminate Hok;
    intros [= <- <-]; eauto.
Qed.

Lemma handles_only_on_return_new_table (t : Table) :
  handles_only_on_return (new_table t).
Proof. intros w r w' [= <- <-]. eauto. Qed.

Lemma handles_only_on_return_new_reader (r : ParquetReader) :
  handles_only_on_return (new_reader r).
Proof. intros w r' w' [= <- <-]. eauto. Qed.

Lemma handles_only_on_return_modify (f : World -> World) :
  handles_only_on_return (modify f).
Proof. intros w r w' [= <- <-]. eauto. Qed.

(** What touches the handles only when it returns has made none when it
    fails. *)
Lemma no_partial_result_intro {A : Type} (m : M A) :
  handles_only_on_return m -> no_partial_result m.
Proof.
  intros Hm w e w' Hrun. destruct (Hm _ _ _ Hrun) as [[a Hok]|Hsame];
    [discriminate Hok | exact Hsame].
Qed.

Create HintDb handles.

#[local] Hint Resolve keeps_handles_ret keeps_handles_throw keeps_handles_fault
  keeps_handles_caml_failwith keeps_handles_caml_invalid_argument
  keeps_handles_ok_exn keeps_handles_status_exn keeps_handles_ValueOrDie
  keeps_handles_log keeps_handles_lose keeps_handles_deref_table
  keeps_handles_deref_reader keeps_handles_store_int keeps_handles_check_column_idx
  keeps_handles_FileOutputStream_Open keeps_handles_ReadableFile_Open
  keeps_handles_ParquetFileReader_OpenFile keeps_handles_ipc_WriteTable
  keeps_handles_feather_WriteTable keeps_handles_parquet_WriteTable
  keeps_handles_update_reader keeps_handles_export_chunks
  keeps_handles_release_chunks keeps_handles_read_batches
  keeps_handles_read_row_groups keeps_handles_deref_tables
  handles_only_on_return_new_table handles_only_on_return_new_reader
  handles_only_on_return_modify handles_only_on_return_keeps : handles.

Ltac handles :=
  repeat first
    [ solve [auto with handles]
    | apply keeps_handles_protect
    | apply handles_only_on_return_protect
    | apply keeps_handles_bind; [|intros ?]
    | apply handles_only_on_return_bind; [|intros ?]
    | match goal with
      | |- keeps_handles (match ?x with _ => _ end) => destruct x
      | |- handles_only_on_return (match ?x with _ => _ end) => destruct x
      end ].

Ltac nothing_partial := apply no_partial_result_intro; handles.


(** C4, amended. Every failing bridge call returns no partial result to the
    caller: the outcome [Raise] carries nothing but the exception, and when a
    function of the bridge raises, whichever it is and whatever the library
    does, no handle has been made or freed and no table has changed. In
    particular a failing [table_chunked_column_] hands over no array
    descriptors, and it fails in one of three ways. On an unknown tag and on
    a missing column the state, [*nchunks] included, is as it was. On a chunk
    of another type [*nchunks] already holds the number of chunks of the
    column, and the block allocated for the descriptors is lost together with
    the descriptors exported into it, those of the chunks before the
    offending one: nothing frees the block or releases them. *)
Theorem failing_call_returns_no_partial_result (lib : Library) :
  every_entry_point lib (@no_partial_result) /\
  forall table column_name column_idx nchunks dt w w' e,
    table_chunked_column_ table column_name column_idx nchunks dt w = (Raise e, w') ->
    (expected_type_of dt = None /\
     e = Failure (snprintf_s 255 ("unknown datatype " +:+ to_string dt)) /\
     w' = w) \/
    (exists l t col_name,
       table = Ptr l /\ tables w !! l = Some t /\ column_name = Some col_name /\
       GetColumnByName t col_name = None /\
       e = Failure (snprintf_s 255 ("cannot find column " +:+ col_name)) /\
       w' = w) \/
    (exists l t n array expected_type expected_type_str before chunk rest,
       table = Ptr l /\ tables w !! l = Some t /\ nchunks = Ptr n /\
       expected_type_of dt = Some (expected_type, expected_type_str) /\
       match column_name with
       | Some col_name => GetColumnByName t col_name
       | None => column t column_idx
       end = Some array /\
       array = before ++ chunk :: rest /\
       Forall (fun a => id (arr_type a) = expected_type) before /\
       id (arr_type chunk) <> expected_type /\
       e = Failure (snprintf_s 255 (type_mismatch expected_type_str expected_type chunk)) /\
       w' = lose (ExportArray <$> before)
              (set_ints (insert n (Z.of_nat (length array))) w)).
Proof.
  split.
  { unfold every_entry_point.
    repeat match goal with |- _ /\ _ => split end; intros;
      unfold arrow_schema, feather_schema, parquet_schema, free_schema,
        table_chunked_column, table_chunked_column_by_name, table_chunked_column_,
        free_chunked_column, create_table, parquet_write_file, arrow_write_file,
        feather_write_file, parquet_write_table, feather_write_table,
        parquet_reader_open, parquet_reader_next, parquet_reader_close,
        parquet_reader_free, parquet_read_table, feather_read_table,
        csv_read_table, json_read_table, table_concatenate, table_slice,
        table_num_rows, table_schema, free_table, GetSchema, FileReader_Make;
      nothing_partial. }
  intros table column_name column_idx nchunks dt w w' e.
  unfold table_chunked_column_, OCAML_PROTECT_EXN, bind.
  destruct (expected_type_of dt) as [[ex s]|] eqn:He; simpl.
  2:{ intros [= <- <-]. left. repeat split. }
  destruct table as [|l]; simpl; [discriminate|].
  destruct (tables w !! l) as [t|] eqn:Ht; [|discriminate].
  assert (Hcases :
    (exists col_name, column_name = Some col_name /\ GetColumnByName t col_name = None) \/
    (column_name = None /\ column t column_idx = None) \/
    (exists array, match column_name with
                   | Some col_name => GetColumnByName t col_name
                   | None => column t column_idx
                   end = Some array)).
  { destruct column_name as [col_name|].
    - destruct (GetColumnByName t col_name) eqn:Hc; eauto.
    - destruct (column t column_idx) eqn:Hc; eauto. }
  destruct Hcases as [(col_name & -> & Hc)|[(-> & Hc)|(array & Hc)]].
  - rewrite Hc. simpl. intros [= <- <-]. right. left.
    exists l, t, col_name. repeat split; assumption.
  - rewrite Hc. simpl. discriminate.
  - assert (Harr : (match column_name with
                    | Some n => match GetColumnByName t n with
                                | Some a => ret a
                                | None => throw ("cannot find column " +:+ n)
                                end
                    | None => match column t column_idx with
                              | Some a => ret a
                              | None => fault
                              end
                    end) w = (Ok array, w)).
    { destruct column_name; rewrite Hc; reflexivity. }
    rewrite Harr. unfold store_int.
    destruct nchunks as [|n]; [discriminate|].
    destruct (ints w !! n) eqn:Hn; [|discriminate].
    rewrite export_chunks_run.
    destruct (first_mismatch array ex) as [chunk|] eqn:Hfirst; [|discriminate].
    intros [= <- <-]. right. right.
    destruct (before_mismatch_spec array ex chunk Hfirst) as (rest & Hsplit & Hbefore).
    destruct (first_mismatch_Some array ex chunk Hfirst) as [_ Hne].
    exists l, t, n, array, ex, s, (before_mismatch array ex), chunk, rest.
    repeat split; assumption.
Qed.

Lemma failing_call_returns_no_partial_result_witness :
  exists e w',
    table_chunked_column_ (Ptr 5%positive) (Some "x") 0 (Ptr 1%positive) 0 sample_world
    = (Raise e, w') /\
    same_handles sample_world w' /\
    w' = lose [ExportArray (sample_array int64_type 1 3)]
           (set_ints (insert 1%positive 2) sample_world).
Proof.
  exists (Failure "expected type with int64 (id 9) got double"),
         (lose [ExportArray (sample_array int64_type 1 3)]
            (set_ints (insert 1%positive 2) sample_world)).
  assert (Hrun : table_chunked_column_ (Ptr 5%positive) (Some "x") 0 (Ptr 1%positive) 0
                   sample_world
                 = (Raise (Failure "expected type with int64 (id 9) got double"),
                    lose [ExportArray (sample_array int64_type 1 3)]
                      (set_ints (insert 1%positive 2) sample_world)))
    by (vm_compute; reflexivity).
  destruct (failing_call_returns_no_partial_result sample_library) as [Hall Hcolumn].
  split; [exact Hrun|]. split.
  - destruct Hall as (_ & _ & _ & _ & _ & Hnone & _). exact (Hnone _ _ _ _ _ _ _ _ Hrun).
  - destruct (Hcolumn _ _ _ _ _ _ _ _ Hrun)
      as [(Hnone & _)|[(l & t & c & Hl & Ht & Hc & Hcol & _)
                      |(l & t & n & array & ex & s & before & chunk & rest
                        & Hl & Ht & Hn & He & Hcol & Hsplit & Hbefore & Hne & _ & Hw)]].
    + discriminate Hnone.
    + injection Hl as <-. injection Hc as <-.
      cbv in Ht. injection Ht as <-. cbv in Hcol. discriminate Hcol.
    + reflexivity.
Defined.

(** ** Slicing *)

Lemma Slice_take_nonpos (chunks : list Array) (offset length : Z) :
  length <= 0 -> Slice_take chunks offset length = [].
Proof.
  intros H. destruct chunks as [|c rest]; simpl; [reflexivity|].
  destruct (Z.ltb_spec 0 length); [lia | reflexivity].
Qed.

Lemma Slice_take_length (chunks : list Array) :
  nonneg_chunks chunks ->
  forall offset length,
    0 <= offset -> 0 <= length ->
    match chunks with c :: _ => offset <= arr_length c | [] => True end ->
    offset + length <= ChunkedArray_length chunks ->
    ChunkedArray_length (Slice_take chunks offset length) = length.
Proof.
  unfold nonneg_chunks.
  induction 1 as [|c rest Hc Hrest IH]; intros offset length Ho Hl Hhd Hsum;
    simpl in *; [lia|].
  destruct (Z.ltb_spec 0 length) as [Hpos|Hzero]; simpl; [|lia].
  destruct (Z.le_gt_cases length (arr_length c - offset)) as [Hfit|Hmore].
  - rewrite Slice_take_nonpos by lia. simpl. lia.
  - rewrite IH; try lia.
    destruct rest as [|c' rest']; [exact I|]. inversion Hrest; subst. assumption.
Qed.

Lemma Slice_take_buffers (chunks : list Array) (offset length : Z) :
  arr_buffer <$> Slice_take chunks offset length ⊆ arr_buffer <$> chunks.
Proof.
  revert offset length. induction chunks as [|c rest IH]; intros offset length;
    simpl; [done|].
  destruct (0 <? length); simpl; [|apply list_subseteq_nil].
  intros b Hb. apply elem_of_cons in Hb as [->|Hb].
  - apply list_elem_of_here.
  - apply list_elem_of_further. exact (IH _ _ b Hb).
Qed.

Lemma Slice_skip_spec (chunks : list Array) :
  nonneg_chunks chunks ->
  forall offset rest off,
    0 <= offset -> Slice_skip chunks offset = (rest, off) ->
    nonneg_chunks rest /\ 0 <= off /\
    ChunkedArray_length rest - off = ChunkedArray_length chunks - offset /\
    match rest with c :: _ => off < arr_length c | [] => True end /\
    rest ⊆ chunks.
Proof.
  unfold nonneg_chunks.
  induction 1 as [|c more Hc Hmore IH]; intros offset rest off Ho Hskip; simpl in *.
  - injection Hskip as <- <-. repeat split; try lia; [constructor | done].
  - destruct (Z.leb_spec (arr_length c) offset) as [Hle|Hgt].
    + destruct (IH (offset - arr_length c) rest off ltac:(lia) Hskip) as (Hn & Hoff & Hlen & Hhd & Hsub).
      repeat split; try assumption; try lia.
      intros a Ha. apply list_elem_of_further, Hsub, Ha.
    + injection Hskip as <- <-. simpl.
      repeat split; try lia; [constructor; assumption | done].
Qed.

Lemma last_elem_of (c : list Array) (first : Array) :
  List.last (first :: c) first ∈ first :: c.
Proof.
  revert first. induction c as [|a c IH]; intros first.
  - apply list_elem_of_here.
  - change (List.last (first :: a :: c) first) with (List.last (a :: c) first).
    apply list_elem_of_further.
    destruct c as [|a' c'].
    + apply list_elem_of_here.
    + assert (Hl : forall d, List.last (a :: a' :: c') d = List.last (a :: a' :: c') a).
      { clear. revert a a'. induction c' as [|x c' IH]; intros a a' d; [reflexivity|].
        change (List.last (a' :: x :: c') d = List.last (a' :: x :: c') a).
        rewrite (IH a' x d), (IH a' x a). reflexivity. }
      rewrite Hl. apply IH.
Qed.

Lemma Array_cells_length (a : Array) :
  length (Array_cells a) = Z.to_nat (arr_length a).
Proof. unfold Array_cells. rewrite length_fmap, length_seq. reflexivity. Qed.

Lemma Array_cells_Slice (a : Array) (offset length : Z) :
  0 <= offset <= arr_length a -> 0 <= length ->
  Array_cells (Array_Slice a offset length)
  = take (Z.to_nat length) (drop (Z.to_nat offset) (Array_cells a)).
Proof.
  intros Ho Hl. unfold Array_cells, Array_Slice. cbn [arr_type arr_buffer arr_offset arr_length].
  rewrite <- fmap_drop, <- fmap_take, drop_seq, take_seq, Nat.add_0_l.
  replace (Z.to_nat (Z.min (arr_length a - offset) length))
    with (Z.to_nat length `min` (Z.to_nat (arr_length a) - Z.to_nat offset))%nat by lia.
  rewrite <- (Nat.add_0_r (Z.to_nat offset)) at 2.
  rewrite <- fmap_add_seq, <- list_fmap_compose.
  apply list_fmap_ext. intros i k _. simpl. f_equal. lia.
Qed.

Lemma ChunkedArray_length_nonneg (c : ChunkedArray) :
  nonneg_chunks c -> 0 <= ChunkedArray_length c.
Proof. induction 1 as [|a c Ha Hc IH]; simpl; lia. Qed.

Lemma ChunkedArray_cells_length (c : ChunkedArray) :
  nonneg_chunks c ->
  length (ChunkedArray_cells c) = Z.to_nat (ChunkedArray_length c).
Proof.
  intros Hc. induction Hc as [|a c Ha Hc IH]; [reflexivity|].
  pose proof (ChunkedArray_length_nonneg c Hc).
  change (length (Array_cells a ++ ChunkedArray_cells c)
          = Z.to_nat (arr_length a + ChunkedArray_length c)).
  rewrite length_app, Array_cells_length, IH. lia.
Qed.

Lemma Slice_take_cells (chunks : list Array) :
  nonneg_chunks chunks ->
  forall offset length,
    0 <= offset ->
    match chunks with c :: _ => offset <= arr_length c | [] => True end ->
    ChunkedArray_cells (Slice_take chunks offset length)
    = take (Z.to_nat length) (drop (Z.to_nat offset) (ChunkedArray_cells chunks)).
Proof.
  unfold nonneg_chunks.
  induction 1 as [|c rest Hc Hrest IH]; intros offset length Ho Hhd.
  - simpl. rewrite drop_nil, take_nil. reflexivity.
  - destruct (Z.le_gt_cases length 0) as [Hzero|Hpos].
    { rewrite Slice_take_nonpos by lia.
      replace (Z.to_nat length) with 0%nat by lia. reflexivity. }
    cbn [Slice_take]. destruct (Z.ltb_spec 0 length) as [_|?]; [|lia].
    change (Array_cells (Array_Slice c offset length)
            ++ ChunkedArray_cells (Slice_take rest 0 (length - (arr_length c - offset)))
            = take (Z.to_nat length)
                (drop (Z.to_nat offset) (Array_cells c ++ ChunkedArray_cells rest))).
    rewrite Array_cells_Slice by lia.
    rewrite (IH 0 (length - (arr_length c - offset)) ltac:(lia)).
    2:{ destruct rest as [|c' rest']; [exact I|]. inversion Hrest; subst. assumption. }
    rewrite drop_app_le by (rewrite Array_cells_length; lia).
    rewrite take_app, length_drop, Array_cells_length. simpl drop.
    f_equal. f_equal. lia.
Qed.

Lemma Slice_skip_cells (chunks : list Array) :
  nonneg_chunks chunks ->
  forall offset rest off,
    0 <= offset -> Slice_skip chunks offset = (rest, off) ->
    drop (Z.to_nat offset) (ChunkedArray_cells chunks)
    = drop (Z.to_nat off) (ChunkedArray_cells rest).
Proof.
  unfold nonneg_chunks.
  induction 1 as [|c more Hc Hmore IH]; intros offset rest off Ho Hskip;
    cbn [Slice_skip] in Hskip.
  - injection Hskip as <- <-. reflexivity.
  - destruct (Z.leb_spec (arr_length c) offset) as [Hle|Hgt].
    + rewrite <- (IH (offset - arr_length c) rest off ltac:(lia) Hskip).
      change (ChunkedArray_cells (c :: more))
        with (Array_cells c ++ ChunkedArray_cells more).
      rewrite drop_app_ge by (rewrite Array_cells_length; lia).
      rewrite Array_cells_length. f_equal. lia.
    + injection Hskip as <- <-. reflexivity.
Qed.

(** A slice within the rows of a column has exactly the rows asked for, its
    chunks are views of buffers of the column, and its cells are the cells of
    these rows of the column. *)
Lemma ChunkedArray_Slice_in_range (c : ChunkedArray) (offset length : Z) :
  nonneg_chunks c -> 0 <= offset -> 0 <= length ->
  offset + length <= ChunkedArray_length c ->
  exists c',
    ChunkedArray_Slice c offset length = Some c' /\
    ChunkedArray_length c' = length /\
    arr_buffer <$> c' ⊆ arr_buffer <$> c /\
    ChunkedArray_cells c'
    = take (Z.to_nat length) (drop (Z.to_nat offset) (ChunkedArray_cells c)).
Proof.
  intros Hnn Ho Hl Hsum. unfold ChunkedArray_Slice.
  destruct (Z.ltb_spec (ChunkedArray_length c) offset) as [Hout|_]; [lia|].
  destruct (Slice_skip c offset) as [rest off] eqn:Hskip.
  destruct (Slice_skip_spec c Hnn offset rest off Ho Hskip)
    as (Hrest & Hoff & Hlen & Hhd & Hsub).
  assert (Htake : ChunkedArray_length (Slice_take rest off length) = length /\
                  arr_buffer <$> Slice_take rest off length ⊆ arr_buffer <$> c /\
                  ChunkedArray_cells (Slice_take rest off length)
                  = take (Z.to_nat length)
                      (drop (Z.to_nat offset) (ChunkedArray_cells c))).
  { split; [|split].
    - apply Slice_take_length; try assumption; try lia.
      destruct rest; [exact I | lia].
    - etransitivity; [apply Slice_take_buffers|].
      intros b Hb. apply list_elem_of_fmap in Hb as (a & -> & Ha).
      apply list_elem_of_fmap. exists a. split; [reflexivity | apply Hsub, Ha].
    - rewrite (Slice_skip_cells c Hnn offset rest off Ho Hskip).
      apply Slice_take_cells; try assumption.
      destruct rest; [exact I | lia]. }
  destruct c as [|first more]; [eexists; split; [reflexivity | exact Htake]|].
  destruct ((offset =? ChunkedArray_length (first :: more)) || (length =? 0)) eqn:Hzero;
    [|eexists; split; [reflexivity | exact Htake]].
  eexists. split; [reflexivity|].
  assert (Hin : List.hd (List.last (first :: more) first) rest ∈ first :: more).
  { destruct rest as [|a rest']; simpl List.hd.
    - apply last_elem_of.
    - apply Hsub, list_elem_of_here. }
  set (chosen := List.hd (List.last (first :: more) first) rest) in *.
  assert (Hchosen : 0 <= arr_length chosen).
  { unfold nonneg_chunks in Hnn. rewrite Forall_forall in Hnn. apply Hnn, Hin. }
  split; [|split].
  - apply orb_true_iff in Hzero as [Heq|Heq]; [apply Z.eqb_eq in Heq | apply Z.eqb_eq in Heq];
      simpl; lia.
  - intros b Hb. simpl in Hb. apply list_elem_of_singleton in Hb as ->.
    apply list_elem_of_fmap. exists chosen. split; [reflexivity | exact Hin].
  - change (ChunkedArray_cells [Array_Slice chosen 0 0])
      with (Array_cells (Array_Slice chosen 0 0) ++ []).
    rewrite app_nil_r, Array_cells_Slice by lia.
    change (Z.to_nat 0) with 0%nat. rewrite take_0.
    apply orb_true_iff in Hzero as [Heq|Heq]; apply Z.eqb_eq in Heq.
    + rewrite drop_ge; [rewrite take_nil; reflexivity|].
      rewrite (ChunkedArray_cells_length _ Hnn). lia.
    + rewrite Heq. reflexivity.
Qed.

Lemma Slice_columns_in_range (cols : list ChunkedArray) (rows offset length : Z) :
  Forall (fun c => nonneg_chunks c /\ ChunkedArray_length c = rows) cols ->
  0 <= offset -> 0 <= length -> offset + length <= rows ->
  exists cols',
    Slice_columns cols offset length length = Some (cols', length) /\
    arr_buffer <$> concat cols' ⊆ arr_buffer <$> concat cols /\
    Forall2 (fun c' c =>
               ChunkedArray_cells c'
               = take (Z.to_nat length) (drop (Z.to_nat offset) (ChunkedArray_cells c)))
            cols' cols.
Proof.
  intros Hwf Ho Hl Hsum.
  induction Hwf as [|c rest [Hnn Hrows] Hrest (rest' & IH & Hsub & Hcells)]; simpl.
  - exists []. split; [reflexivity|]. split; [done | constructor].
  - destruct (ChunkedArray_Slice_in_range c offset length Hnn Ho Hl ltac:(lia))
      as (c' & -> & Hlen & Hbuf & Hview).
    rewrite Hlen, IH. exists (c' :: rest'). split; [reflexivity|]. split.
    + simpl. rewrite !fmap_app. intros b Hb.
      apply elem_of_app in Hb as [Hb|Hb]; apply elem_of_app;
        [left; apply Hbuf, Hb | right; apply Hsub, Hb].
    + constructor; assumption.
Qed.

(** C6. [table_slice] raises the argument error exactly when the offset or
    the length is negative, and then changes nothing, so that no handle comes
    into being (with both non-negative the call returns or faults, it does not
    raise). On a live handle of a well-formed table, with a non-negative
    offset and length inside the rows of the table, it returns a handle that
    was not live before, on a table of [length] rows with the schema and the
    columns of the source. Each column of the slice is a view of the rows
    [offset .. offset + length - 1] of the same column of the source: its
    cells are the cells of the source's buffers that hold these rows, in
    order. Nothing is copied, and the source is left as it was. *)
Theorem table_slice_argument_check (w : World) (table : ptr) (offset length : Z) :
  ((exists msg, (table_slice table offset length w).1 = Raise (Invalid_argument msg))
   <-> offset < 0 \/ length < 0) /\
  (offset < 0 \/ length < 0 -> (table_slice table offset length w).2 = w) /\
  (forall l t,
     table = Ptr l -> tables w !! l = Some t -> well_formed t ->
     0 <= offset -> 0 <= length -> offset + length <= num_rows t ->
     exists l' slice,
       table_slice table offset length w
       = (Ok (Ptr l'), set_tables (insert l' slice) w) /\
       tables w !! l' = None /\
       num_rows slice = length /\
       schema slice = schema t /\
       table_buffers slice ⊆ table_buffers t /\
       views_rows slice t offset length).
Proof.
  unfold table_slice, bind. split; [|split].
  - split.
    + intros [msg Hmsg] . destruct (Z.ltb_spec offset 0) as [Ho|Ho]; [lia|].
      destruct (Z.ltb_spec length 0) as [Hl|Hl]; [lia|]. exfalso.
      simpl in Hmsg. unfold deref_table in Hmsg.
      destruct table as [|l]; [discriminate|].
      destruct (tables w !! l) as [t|]; [|discriminate].
      destruct (Table_Slice t offset length); discriminate.
    + intros Hneg. destruct (Z.ltb_spec offset 0) as [Ho|Ho]; [eexists; reflexivity|].
      destruct (Z.ltb_spec length 0) as [Hl|Hl]; [eexists; reflexivity | lia].
  - intros Hneg. destruct (Z.ltb_spec offset 0) as [Ho|Ho]; [reflexivity|].
    destruct (Z.ltb_spec length 0) as [Hl|Hl]; [reflexivity | lia].
  - intros l t -> Ht Hwf Ho Hl Hsum.
    destruct (Z.ltb_spec offset 0) as [Ho'|_]; [lia|].
    destruct (Z.ltb_spec length 0) as [Hl'|_]; [lia|]. simpl.
    rewrite Ht. unfold Table_Slice.
    destruct (Slice_columns_in_range (columns t) (num_rows t) offset length
                Hwf Ho Hl Hsum) as (cols' & -> & Hsub & Hcells).
    eexists _, _. split; [reflexivity|].
    split; [apply not_elem_of_dom, is_fresh|].
    split; [reflexivity|]. split; [reflexivity|]. split; [exact Hsub | exact Hcells].
Qed.

Lemma table_slice_argument_check_witness :
  (table_slice (Ptr 5%positive) (-1) 2 sample_world).2 = sample_world /\
  (exists msg, (table_slice (Ptr 5%positive) 2 (-1) sample_world).1
               = Raise (Invalid_argument msg)) /\
  exists l' slice,
    table_slice (Ptr 5%positive) 2 4 sample_world
    = (Ok (Ptr l'), set_tables (insert l' slice) sample_world) /\
    tables sample_world !! l' = None /\
    num_rows slice = 4 /\
    schema slice = schema sample_table /\
    table_buffers slice ⊆ table_buffers sample_table /\
    views_rows slice sample_table 2 4.
Proof.
  split; [|split].
  - apply (table_slice_argument_check sample_world (Ptr 5%positive) (-1) 2). lia.
  - apply (table_slice_argument_check sample_world (Ptr 5%positive) 2 (-1)). lia.
  - apply (proj2 (proj2 (table_slice_argument_check sample_world (Ptr 5%positive) 2 4))
             5%positive sample_table); try reflexivity; try (simpl; lia).
    repeat constructor; simpl; lia.
Defined.

(** ** Row-limited bulk read *)

Lemma filter_map_app {A B : Type} (f : A -> option B) (l1 l2 : list A) :
  filter_map f (l1 ++ l2) = filter_map f l1 ++ filter_map f l2.
Proof.
  induction l1 as [|x l1 IH]; simpl; [reflexivity|].
  destruct (f x); simpl; rewrite IH; reflexivity.
Qed.

Lemma total_num_rows_app (l1 l2 : list RecordBatch) :
  total_num_rows (l1 ++ l2) = total_num_rows l1 + total_num_rows l2.
Proof. induction l1 as [|b l1 IH]; simpl; [reflexivity|]. rewrite IH. lia. Qed.

Lemma good_items_rows_nonneg (s : Schema) (items : list (Result RecordBatch)) :
  Forall (good_item s) items -> 0 <= total_num_rows (filter_map batch_of items).
Proof.
  induction 1 as [|r items (b & -> & Hb & _) _ IH]; simpl; lia.
Qed.

(** The inner loop on a row group that decodes: it takes the first
    [min k rows] rows, cutting the last batch taken when it must. *)
Lemma read_batches_ok (s : Schema) (items : list (Result RecordBatch)) :
  Forall (good_item s) items ->
  forall k acc w, 0 <= k ->
    exists taken w',
      read_batches items k acc w = (Ok (k - total_num_rows taken, acc ++ taken), w') /\
      total_num_rows taken = Z.min k (total_num_rows (filter_map batch_of items)) /\
      Forall (fun b => rb_schema b = s) taken /\
      (0 < k -> items <> [] -> taken <> []) /\
      tables w' = tables w.
Proof.
  induction 1 as [|r items (b & -> & Hb & Hs) Hitems IH]; intros k acc w Hk.
  - exists [], (if 0 <? k then log RecordBatchReader_ReadNext w else w).
    simpl. unfold bind, modify, ret. rewrite app_nil_r, Z.sub_0_r.
    destruct (0 <? k); simpl; repeat split; try lia; try constructor; congruence.
  - pose proof (good_items_rows_nonneg s items Hitems) as Hrest.
    simpl. destruct (Z.ltb_spec 0 k) as [Hpos|Hzero].
    + unfold bind at 1, modify.
      destruct (Z.leb_spec k (rb_num_rows b)) as [Hfit|Hmore].
      * exists [RecordBatch_Slice b 0 k], (log RecordBatchReader_ReadNext w).
        simpl. rewrite Z.sub_0_r.
        replace (k - (Z.min (rb_num_rows b) k + 0)) with 0 by lia.
        repeat split; try lia; try congruence. repeat constructor. exact Hs.
      * destruct (IH (k - rb_num_rows b) (acc ++ [b]) (log RecordBatchReader_ReadNext w)
                    ltac:(lia)) as (taken & w' & Hrun & Hrows & Hschema & _ & Hw).
        exists (b :: taken), w'. rewrite Hrun. simpl.
        rewrite <- app_assoc. simpl.
        replace (k - (rb_num_rows b + total_num_rows taken))
          with (k - rb_num_rows b - total_num_rows taken) by lia.
        repeat split; try lia; try congruence; [constructor; assumption | exact Hw].
    + exists [], w. unfold ret. rewrite app_nil_r, Z.sub_0_r. simpl.
      repeat split; try lia; try constructor.
Qed.

(** The outer loop on row groups that decode. *)
Lemma read_row_groups_ok (r : FileReader) (cols : option (list Z)) (s : Schema)
    (idxs : list Z) (groups : list (list (Result RecordBatch))) :
  Forall2 (fun idx g => GetRecordBatchReader r [idx] cols = Value g) idxs groups ->
  Forall (Forall (good_item s)) groups ->
  forall k acc w, 0 <= k ->
    exists taken w',
      read_row_groups r cols idxs k acc w = (Ok (acc ++ taken), w') /\
      total_num_rows taken = Z.min k (total_num_rows (filter_map batch_of (concat groups))) /\
      Forall (fun b => rb_schema b = s) taken /\
      (0 < k -> concat groups <> [] -> taken <> []) /\
      tables w' = tables w.
Proof.
  induction 1 as [|idx g idxs groups Hget _ IH]; intros Hgood k acc w Hk.
  - exists [], w. simpl. unfold ret. rewrite app_nil_r.
    repeat split; try lia; try constructor. congruence.
  - inversion Hgood as [|? ? Hg Hgroups]; subst.
    pose proof (good_items_rows_nonneg s g Hg) as Hgrows.
    assert (Hrest : 0 <= total_num_rows (filter_map batch_of (concat groups))).
    { clear -Hgroups. induction Hgroups as [|g' gs Hg' _ IH']; simpl; [lia|].
      rewrite filter_map_app, total_num_rows_app.
      pose proof (good_items_rows_nonneg s g' Hg'). lia. }
    simpl. unfold bind at 1. rewrite Hget. simpl.
    destruct (read_batches_ok s g Hg k acc w Hk)
      as (taken1 & w1 & Hrun1 & Hrows1 & Hschema1 & Hne1 & Hw1).
    unfold bind at 1. rewrite Hrun1. simpl.
    rewrite filter_map_app, total_num_rows_app.
    destruct (Z.leb_spec (k - total_num_rows taken1) 0) as [Hdone|Hleft].
    + exists taken1, w1. unfold ret.
      repeat split; try lia; try assumption.
      intros Hpos _. apply Hne1; [exact Hpos|]. intros ->. simpl in *. lia.
    + destruct (IH Hgroups (k - total_num_rows taken1) (acc ++ taken1) w1 ltac:(lia))
        as (taken2 & w2 & Hrun2 & Hrows2 & Hschema2 & Hne2 & Hw2).
      exists (taken1 ++ taken2), w2. rewrite Hrun2, <- app_assoc.
      rewrite total_num_rows_app.
      repeat split; try lia; try congruence.
      * apply Forall_app; split; assumption.
      * intros Hpos Hne Hnil. apply app_eq_nil in Hnil as [-> ->].
        destruct g as [|x g'].
        -- simpl in Hne. apply Hne2; [simpl in Hleft; lia | exact Hne | reflexivity].
        -- apply Hne1; [exact Hpos | discriminate | reflexivity].
Qed.

Lemma GetRecordBatchReader_one (r : FileReader) (cols : option (list Z)) (i : nat)
    (g : list (Result RecordBatch)) :
  pq_row_groups (fr_file r) !! i = Some g ->
  valid_columns (pq_schema (fr_file r)) cols = true ->
  GetRecordBatchReader r [Z.of_nat i] cols = Value (project_result cols <$> g).
Proof.
  intros Hg Hvalid. unfold GetRecordBatchReader. simpl.
  destruct (Z.ltb_spec (Z.of_nat i) 0); [lia|].
  rewrite Nat2Z.id, Hg, Hvalid, app_nil_r. reflexivity.
Qed.

Lemma row_group_readers (r : FileReader) (cols : option (list Z)) :
  valid_columns (pq_schema (fr_file r)) cols = true ->
  Forall2 (fun idx g => GetRecordBatchReader r [idx] cols = Value g)
          (iota (num_row_groups r))
          (fmap (M:=list) (project_result cols) <$> pq_row_groups (fr_file r)).
Proof.
  intros Hvalid. apply Forall2_same_length_lookup. split.
  - unfold iota, num_row_groups. rewrite !length_fmap, length_seq, Nat2Z.id.
    reflexivity.
  - intros i idx g Hidx Hg. unfold iota in Hidx.
    rewrite list_lookup_fmap in Hidx. rewrite list_lookup_fmap in Hg.
    destruct (pq_row_groups (fr_file r) !! i) as [g0|] eqn:Hg0; [|discriminate].
    injection Hg as <-.
    destruct (seq 0 (Z.to_nat (num_row_groups r)) !! i) as [j|] eqn:Hj; [|discriminate].
    injection Hidx as <-. apply lookup_seq in Hj as [-> _].
    apply GetRecordBatchReader_one; assumption.
Qed.

Lemma project_good (s : Schema) (cols : option (list Z))
    (items : list (Result RecordBatch)) :
  Forall (good_item s) items ->
  Forall (good_item (select cols s)) (project_result cols <$> items).
Proof.
  induction 1 as [|r items (b & -> & Hb & Hs) _ IH]; simpl; constructor;
    [|exact IH].
  exists (project cols b). simpl. rewrite Hs. repeat split. exact Hb.
Qed.

Lemma project_rows (cols : option (list Z)) (groups : list (list (Result RecordBatch))) :
  total_num_rows (filter_map batch_of (concat (fmap (M:=list) (project_result cols) <$> groups)))
  = total_num_rows (filter_map batch_of (concat groups)).
Proof.
  induction groups as [|g groups IH]; [reflexivity|].
  rewrite fmap_cons. cbn [concat].
  rewrite !filter_map_app, !total_num_rows_app, IH. f_equal.
  clear. induction g as [|[b|e] g IH]; [reflexivity| |exact IH].
  rewrite fmap_cons. cbn [filter_map project_result batch_of].
  exact (f_equal (Z.add (rb_num_rows b)) IH).
Qed.

Lemma FromRecordBatches_ok (s : Schema) (batches : list RecordBatch) :
  batches <> [] -> Forall (fun b => rb_schema b = s) batches ->
  exists t, FromRecordBatches batches = Value t /\
            num_rows t = total_num_rows batches /\ schema t = s.
Proof.
  intros Hne Hall. destruct batches as [|b0 batches]; [contradiction|].
  unfold FromRecordBatches, FromRecordBatches_with.
  assert (Hb0 : rb_schema b0 = s) by (inversion Hall; assumption).
  assert (Hcheck : forallb (fun b => bool_decide (rb_schema b = rb_schema b0))
                           (b0 :: batches) = true).
  { apply forallb_forall. intros b Hb. apply bool_decide_eq_true.
    rewrite Forall_forall in Hall. rewrite Hb0. apply Hall, list_elem_of_In, Hb. }
  rewrite Hcheck. eexists. split; [reflexivity|]. split; [reflexivity | exact Hb0].
Qed.

(** The row limit on a file with something to read: a positive limit on a
    well-formed file with at least one batch yields a fresh handle on a table
    of [min only_first total_rows] rows, wherever the limit falls. *)
Lemma parquet_read_table_limit (w : World) (filename : string) (f : ParquetFile)
    (col_idxs : list Z) (use_threads only_first : Z) :
  files w !! filename = Some (Parquet f) -> well_formed_file f ->
  valid_columns (pq_schema f) (columns_arg col_idxs) = true ->
  0 < only_first -> concat (pq_row_groups f) <> [] ->
  exists l t w',
    parquet_read_table filename col_idxs use_threads only_first w = (Ok (Ptr l), w') /\
    tables w !! l = None /\ tables w' !! l = Some t /\
    num_rows t = Z.min only_first (file_num_rows f).
Proof.
  intros Hfile Hwf Hvalid Hpos Hne.
  assert (Hopen : ReadableFile_Open_ filename w
                  = (Ok (Value (Parquet f)), log (ReadableFile_Open filename) w))
    by (unfold ReadableFile_Open_; rewrite Hfile; reflexivity).
  unfold parquet_read_table, OCAML_PROTECT_EXN.
  rewrite (bind_Ok _ _ _ _ _ Hopen).
  rewrite (bind_Ok (ok_exn (Value (Parquet f))) _ _ _ (Parquet f) eq_refl).
  rewrite (bind_Ok (ok_exn (OpenFile (Parquet f))) _ _ _ _ eq_refl).
  set (reader0 := {| fr_file := f; fr_use_threads := false |}).
  set (reader1 := if 0 <=? use_threads then set_use_threads reader0 use_threads
                  else reader0).
  assert (Hf : fr_file reader1 = f)
    by (unfold reader1; destruct (0 <=? use_threads); reflexivity).
  destruct (Z.ltb_spec only_first 0) as [Hneg|_]; [lia|].
  set (cols := columns_arg col_idxs) in *.
  destruct (read_row_groups_ok reader1 cols (select cols (pq_schema f))
              (iota (num_row_groups reader1))
              (fmap (M:=list) (project_result cols) <$> pq_row_groups (fr_file reader1))
              ltac:(apply row_group_readers; rewrite Hf; exact Hvalid)
              ltac:(rewrite Hf; apply Forall_fmap;
                    refine (Forall_impl _ _ _ Hwf _); intros g Hg;
                    apply project_good, Hg)
              only_first [] (log (ReadableFile_Open filename) w) ltac:(lia))
    as (taken & w1 & Hrun & Hrows & Hschema & Hnonempty & Hw1).
  rewrite Hf in *. rewrite project_rows in Hrows.
  destruct (FromRecordBatches_ok (select cols (pq_schema f)) taken)
    as (t & Ht & Hn & _); [|exact Hschema|].
  { apply Hnonempty; [exact Hpos|]. intros Hnil. apply Hne.
    clear -Hnil. induction (pq_row_groups f) as [|g gs IH]; [reflexivity|].
    simpl in *. apply app_eq_nil in Hnil as [Hg Hgs].
    apply fmap_nil_inv in Hg as ->. simpl. apply IH, Hgs. }
  rewrite (bind_Ok _ _ _ w1 t).
  2:{ rewrite (bind_Ok _ _ _ _ _ Hrun). simpl app. rewrite Ht. reflexivity. }
  exists (fresh (dom (tables w1))), t, (set_tables (insert (fresh (dom (tables w1))) t) w1).
  split; [reflexivity|].
  split; [simpl in Hw1; rewrite <- Hw1; apply not_elem_of_dom, is_fresh|].
  split; [simpl; apply lookup_insert_eq|].
  rewrite Hn, Hrows. reflexivity.
Qed.

Lemma read_row_groups_zero (r : FileReader) (cols : option (list Z)) (idxs : list Z)
    (acc : list RecordBatch) (w : World) :
  match idxs with
  | [] => True
  | idx :: _ => exists g, GetRecordBatchReader r [idx] cols = Value g
  end ->
  read_row_groups r cols idxs 0 acc w = (Ok acc, w).
Proof.
  destruct idxs as [|idx more]; [reflexivity|]. intros [g Hg].
  simpl. unfold bind. rewrite Hg. simpl. destruct g; reflexivity.
Qed.

(** C1 asks for a table of [min only_first total_rows] rows for every
    non-negative limit, the limit 0 included. The code does not deliver it
    there: with [only_first = 0] on any Parquet file that opens, whatever its
    rows, no batch is collected, [Table::FromRecordBatches] is called on an
    empty vector, which the library refuses, and the call fails instead of
    returning a table of 0 rows. *)
Theorem parquet_read_table_zero_limit_fails (w : World) (filename : string)
    (f : ParquetFile) (col_idxs : list Z) (use_threads : Z) :
  files w !! filename = Some (Parquet f) ->
  valid_columns (pq_schema f) (columns_arg col_idxs) = true ->
  parquet_read_table filename col_idxs use_threads 0 w
  = (Raise (Failure no_record_batch), log (ReadableFile_Open filename) w).
Proof.
  intros Hfile Hvalid.
  assert (Hopen : ReadableFile_Open_ filename w
                  = (Ok (Value (Parquet f)), log (ReadableFile_Open filename) w))
    by (unfold ReadableFile_Open_; rewrite Hfile; reflexivity).
  unfold parquet_read_table, OCAML_PROTECT_EXN.
  rewrite (bind_Ok _ _ _ _ _ Hopen).
  rewrite (bind_Ok (ok_exn (Value (Parquet f))) _ _ _ (Parquet f) eq_refl).
  rewrite (bind_Ok (ok_exn (OpenFile (Parquet f))) _ _ _ _ eq_refl).
  set (reader0 := {| fr_file := f; fr_use_threads := false |}).
  set (reader1 := if 0 <=? use_threads then set_use_threads reader0 use_threads
                  else reader0).
  assert (Hf : fr_file reader1 = f)
    by (unfold reader1; destruct (0 <=? use_threads); reflexivity).
  change (0 <? 0) with false. cbv iota.
  unfold bind at 1. unfold bind at 1.
  rewrite read_row_groups_zero; [reflexivity|].
  pose proof (row_group_readers reader1 (columns_arg col_idxs)) as Hreaders.
  rewrite Hf in Hreaders. specialize (Hreaders Hvalid).
  destruct Hreaders as [|idx g idxs groups Hg _]; [exact I|].
  exists g. exact Hg.
Qed.

Lemma parquet_read_table_zero_limit_fails_witness :
  parquet_read_table "data.parquet" [] (-1) 0 sample_world
  = (Raise (Failure "Invalid: Must pass at least one record batch"),
     log (ReadableFile_Open "data.parquet") sample_world) /\
  file_num_rows sample_file = 8.
Proof.
  split; [|reflexivity].
  apply (parquet_read_table_zero_limit_fails sample_world "data.parquet" sample_file
           [] (-1)); reflexivity.
Defined.

(** The same refusal meets a positive limit on a file without any batch,
    where the unlimited read of the same file returns the empty table. *)
Example parquet_read_table_empty_file :
  (parquet_read_table "empty.parquet" [] (-1) 5 sample_world).1
  = Raise (Failure "Invalid: Must pass at least one record batch") /\
  exists w',
    parquet_read_table "empty.parquet" [] (-1) (-1) sample_world
    = (Ok (Ptr 6%positive), w') /\
    num_rows <$> tables w' !! 6%positive = Some 0.
Proof.
  split; [vm_compute; reflexivity|].
  eexists. split; [vm_compute; reflexivity | reflexivity].
Qed.

(** A limit inside the second batch of the first row group: 3 + 1 rows. *)
Example parquet_read_table_mid_batch :
  exists l t w',
    parquet_read_table "data.parquet" [] (-1) 4 sample_world = (Ok (Ptr l), w') /\
    tables sample_world !! l = None /\ tables w' !! l = Some t /\
    num_rows t = 4.
Proof.
  apply (parquet_read_table_limit sample_world "data.parquet" sample_file [] (-1) 4);
    try reflexivity; try discriminate.
  repeat constructor; eexists; repeat split; simpl; lia.
Qed.

(** * Further properties *)

(** ** Column accessors: bounds, export and release *)

(** X1. [table_chunked_column] checks the index before anything else. On a
    live handle, an index below 0 or not below the number of columns raises
    the failure "invalid column index <i> (ncols: <n>)" and changes nothing,
    whatever the tag and the [nchunks] pointer are; an index within the
    columns names a column of the table and the call goes on exactly as
    [table_chunked_column_] does on that index. *)
Theorem table_chunked_column_index_check (w : World) (l : loc) (t : Table)
    (column_idx : Z) (nchunks : ptr) (dt : Z) :
  tables w !! l = Some t ->
  (column_idx < 0 \/ num_columns t <= column_idx ->
   table_chunked_column (Ptr l) column_idx nchunks dt w
   = (Raise (Failure (snprintf_s 127
               ("invalid column index " +:+ to_string column_idx
                +:+ " (ncols: " +:+ to_string (num_columns t) +:+ ")"))), w)) /\
  (0 <= column_idx < num_columns t ->
   is_Some (column t column_idx) /\
   table_chunked_column (Ptr l) column_idx nchunks dt w
   = table_chunked_column_ (Ptr l) None column_idx nchunks dt w).
Proof.
  intros Ht. unfold table_chunked_column.
  rewrite (bind_Ok _ _ _ _ _ (deref_table_live w l t Ht)).
  unfold check_column_idx, bind. split.
  - intros Hout.
    destruct (Z.ltb_spec column_idx 0) as [Hneg|Hpos]; [reflexivity|].
    destruct (Z.leb_spec (num_columns t) column_idx) as [Hge|Hlt]; [reflexivity | lia].
  - intros [Hlo Hhi].
    destruct (Z.ltb_spec column_idx 0) as [Hneg|_]; [lia|].
    destruct (Z.leb_spec (num_columns t) column_idx) as [Hge|_]; [lia|].
    split; [|reflexivity].
    unfold column. destruct (Z.ltb_spec column_idx 0) as [Hneg|_]; [lia|].
    apply lookup_lt_is_Some_2. unfold num_columns in Hhi. lia.
Qed.

Lemma table_chunked_column_index_check_witness :
  table_chunked_column (Ptr 5%positive) 2 NULL 99 sample_world
  = (Raise (Failure "invalid column index 2 (ncols: 2)"), sample_world) /\
  table_chunked_column (Ptr 5%positive) (-1) (Ptr 1%positive) 0 sample_world
  = (Raise (Failure "invalid column index -1 (ncols: 2)"), sample_world) /\
  table_chunked_column (Ptr 5%positive) 1 (Ptr 1%positive) 1 sample_world
  = table_chunked_column_ (Ptr 5%positive) None 1 (Ptr 1%positive) 1 sample_world.
Proof.
  split; [|split].
  - apply (table_chunked_column_index_check sample_world 5%positive sample_table
             2 NULL 99 eq_refl). right. unfold num_columns. simpl. lia.
  - apply (table_chunked_column_index_check sample_world 5%positive sample_table
             (-1) (Ptr 1%positive) 0 eq_refl). left. lia.
  - apply (table_chunked_column_index_check sample_world 5%positive sample_table
             1 (Ptr 1%positive) 1 eq_refl). unfold num_columns. simpl. lia.
Defined.

Lemma release_chunks_run (arrays : list ArrowArray) (n : nat) (w : World) :
  release_chunks arrays n w
  = if (n <=? length arrays)%nat
    then (Ok (List.filter aa_release (take n arrays)), w)
    else (Fault, w).
Proof.
  revert arrays. induction n as [|n IH]; intros arrays; [reflexivity|].
  destruct arrays as [|a rest]; [reflexivity|].
  simpl. unfold bind. rewrite IH.
  destruct (n <=? length rest)%nat; [|reflexivity].
  destruct (aa_release a); reflexivity.
Qed.

Lemma filter_release_exported (chunks : list Array) :
  List.filter aa_release (ExportArray <$> chunks) = ExportArray <$> chunks.
Proof.
  induction chunks as [|c chunks IH]; [reflexivity|].
  rewrite fmap_cons. simpl. f_equal. exact IH.
Qed.

(** X2. A successful typed extraction, by index or by name, returns one
    descriptor per chunk of the column, in order, each a view of the chunk's
    own buffer with the chunk's length and offset and with its release
    callback set; [*nchunks] then holds the number of descriptors, and
    nothing else of the state has changed. *)
Theorem table_chunked_column_exports_chunks
    (w : World) (l n : loc) (t : Table) (v dt : Z) (e : Type_type) (s : string)
    (column_idx : Z) (col_name : string) (array : ChunkedArray)
    (call : M (list ArrowArray)) :
  tables w !! l = Some t -> ints w !! n = Some v ->
  expected_type_of dt = Some (e, s) ->
  (call = table_chunked_column (Ptr l) column_idx (Ptr n) dt /\
   column t column_idx = Some array) \/
  (call = table_chunked_column_by_name (Ptr l) (Some col_name) (Ptr n) dt /\
   GetColumnByName t col_name = Some array) ->
  Forall (fun c => id (arr_type c) = e) array ->
  exists out,
    call w = (Ok out, set_ints (insert n (Z.of_nat (length out))) w) /\
    Forall2 (fun a c => aa_length a = arr_length c /\ aa_offset a = arr_offset c /\
                        aa_buffers a = [arr_buffer c] /\ aa_release a = true)
            out array.
Proof.
  intros Ht Hn He Hcall Hall.
  exists (ExportArray <$> array). rewrite length_fmap. split.
  - apply first_mismatch_None in Hall.
    destruct Hcall as [[-> Hcol]|[-> Hcol]].
    + rewrite (table_chunked_column_in_range w l t column_idx (Ptr n) dt array Ht Hcol).
      rewrite (table_chunked_column__found w l n t v dt e s None column_idx array)
        by assumption.
      rewrite Hall. reflexivity.
    + unfold table_chunked_column_by_name.
      rewrite (table_chunked_column__found w l n t v dt e s (Some col_name) 0 array)
        by assumption.
      rewrite Hall. reflexivity.
  - clear. induction array as [|c array IH]; [constructor|].
    rewrite fmap_cons. constructor; [repeat split | exact IH].
Qed.

Lemma table_chunked_column_exports_chunks_witness :
  exists out,
    table_chunked_column (Ptr 5%positive) 1 (Ptr 1%positive) 1 sample_world
    = (Ok out, set_ints (insert 1%positive (Z.of_nat (length out))) sample_world) /\
    Forall2 (fun a c => aa_length a = arr_length c /\ aa_offset a = arr_offset c /\
                        aa_buffers a = [arr_buffer c] /\ aa_release a = true)
            out [sample_array double_type 3 7].
Proof.
  apply (table_chunked_column_exports_chunks sample_world 5%positive 1%positive
           sample_table 7 1 DOUBLE "float64" 1 "y" [sample_array double_type 3 7]
           (table_chunked_column (Ptr 5%positive) 1 (Ptr 1%positive) 1)
           eq_refl eq_refl eq_refl (or_introl (conj eq_refl eq_refl))).
  repeat constructor.
Defined.

(** X3. The count that a successful extraction leaves in [*nchunks] is the
    one [free_chunked_column] needs: called on the returned block with that
    count it releases every descriptor, each once and in order, without
    reading past the block; a count of zero or less releases nothing, and a
    greater count reads past the block. *)
Theorem free_chunked_column_after_extraction
    (w : World) (l n : loc) (t : Table) (v dt : Z) (e : Type_type) (s : string)
    (column_idx : Z) (col_name : string) (array : ChunkedArray)
    (call : M (list ArrowArray)) (out : list ArrowArray) (w' : World) :
  tables w !! l = Some t -> ints w !! n = Some v ->
  expected_type_of dt = Some (e, s) ->
  (call = table_chunked_column (Ptr l) column_idx (Ptr n) dt /\
   column t column_idx = Some array) \/
  (call = table_chunked_column_by_name (Ptr l) (Some col_name) (Ptr n) dt /\
   GetColumnByName t col_name = Some array) ->
  call w = (Ok out, w') ->
  exists nchunks,
    ints w' !! n = Some nchunks /\
    free_chunked_column out nchunks w' = (Ok out, w') /\
    (forall k, k <= 0 -> free_chunked_column out k w' = (Ok [], w')) /\
    (forall k, nchunks < k -> free_chunked_column out k w' = (Fault, w')).
Proof.
  intros Ht Hn He Hcall Hrun.
  assert (Hfound : call w
                   = match first_mismatch array e with
                     | Some c => (Raise (Failure (snprintf_s 255 (type_mismatch s e c))),
                                  lose (ExportArray <$> before_mismatch array e)
                                    (set_ints (insert n (Z.of_nat (length array))) w))
                     | None => (Ok (ExportArray <$> array),
                                set_ints (insert n (Z.of_nat (length array))) w)
                     end).
  { destruct Hcall as [[-> Hcol]|[-> Hcol]].
    - rewrite (table_chunked_column_in_range w l t column_idx (Ptr n) dt array Ht Hcol).
      apply (table_chunked_column__found w l n t v dt e s None column_idx array);
        assumption.
    - unfold table_chunked_column_by_name.
      apply (table_chunked_column__found w l n t v dt e s (Some col_name) 0 array);
        assumption. }
  rewrite Hfound in Hrun. destruct (first_mismatch array e); [discriminate|].
  injection Hrun as <- <-.
  exists (Z.of_nat (length array)). unfold free_chunked_column.
  split; [simpl; apply lookup_insert_eq|]. split; [|split].
  - rewrite release_chunks_run, Nat2Z.id, length_fmap, Nat.leb_refl.
    rewrite firstn_all2 by (rewrite length_fmap; lia).
    rewrite filter_release_exported. reflexivity.
  - intros k Hk. replace (Z.to_nat k) with O by lia. reflexivity.
  - intros k Hk. rewrite release_chunks_run, length_fmap.
    destruct (Nat.leb_spec (Z.to_nat k) (length array)); [lia | reflexivity].
Qed.

Lemma free_chunked_column_after_extraction_witness :
  exists nchunks,
    ints (set_ints (insert 1%positive 1) sample_world) !! 1%positive = Some nchunks /\
    free_chunked_column [ExportArray (sample_array double_type 3 7)] nchunks
      (set_ints (insert 1%positive 1) sample_world)
    = (Ok [ExportArray (sample_array double_type 3 7)],
       set_ints (insert 1%positive 1) sample_world) /\
    (forall k, k <= 0 ->
       free_chunked_column [ExportArray (sample_array double_type 3 7)] k
         (set_ints (insert 1%positive 1) sample_world)
       = (Ok [], set_ints (insert 1%positive 1) sample_world)) /\
    (forall k, nchunks < k ->
       free_chunked_column [ExportArray (sample_array double_type 3 7)] k
         (set_ints (insert 1%positive 1) sample_world)
       = (Fault, set_ints (insert 1%positive 1) sample_world)).
Proof.
  apply (free_chunked_column_after_extraction sample_world 5%positive 1%positive
           sample_table 7 1 DOUBLE "float64" 1 "y" [sample_array double_type 3 7]
           (table_chunked_column (Ptr 5%positive) 1 (Ptr 1%positive) 1)
           [ExportArray (sample_array double_type 3 7)]
           (set_ints (insert 1%positive 1) sample_world)
           eq_refl eq_refl eq_refl (or_introl (conj eq_refl eq_refl))).
  vm_compute. reflexivity.
Defined.

(** ** Reading Parquet files *)

Lemma all_batches_good (s : Schema) (items : list (Result RecordBatch)) :
  Forall (good_item s) items ->
  all_batches items = Value (filter_map batch_of items).
Proof.
  induction 1 as [|r items (b & -> & _) _ IH]; [reflexivity|].
  simpl. rewrite IH. reflexivity.
Qed.

Lemma good_items_schema (s : Schema) (items : list (Result RecordBatch)) :
  Forall (good_item s) items ->
  Forall (fun b => rb_schema b = s) (filter_map batch_of items).
Proof.
  induction 1 as [|r items (b & -> & _ & Hs) _ IH]; simpl; constructor; assumption.
Qed.

Lemma filter_map_project (cols : option (list Z)) (items : list (Result RecordBatch)) :
  filter_map batch_of (project_result cols <$> items)
  = project cols <$> filter_map batch_of items.
Proof.
  induction items as [|[b|e] items IH]; [reflexivity| |exact IH].
  rewrite fmap_cons. cbn [filter_map project_result batch_of].
  rewrite fmap_cons. f_equal. exact IH.
Qed.

Lemma total_num_rows_project (cols : option (list Z)) (bs : list RecordBatch) :
  total_num_rows (project cols <$> bs) = total_num_rows bs.
Proof.
  induction bs as [|b bs IH]; [reflexivity|].
  rewrite fmap_cons. exact (f_equal (Z.add (rb_num_rows b)) IH).
Qed.

Lemma concat_project (cols : option (list Z)) (groups : list (list (Result RecordBatch))) :
  concat (fmap (M:=list) (project_result cols) <$> groups)
  = project_result cols <$> concat groups.
Proof.
  induction groups as [|g groups IH]; [reflexivity|].
  rewrite fmap_cons. cbn [concat]. rewrite fmap_app, IH. reflexivity.
Qed.

Lemma well_formed_file_items (f : ParquetFile) :
  well_formed_file f ->
  Forall (good_item (pq_schema f)) (concat (pq_row_groups f)).
Proof. intros Hwf. apply Forall_concat. exact Hwf. Qed.

Lemma FromRecordBatches_with_ok (s : Schema) (bs : list RecordBatch) :
  Forall (fun b => rb_schema b = s) bs ->
  FromRecordBatches_with s bs
  = Value {| schema := s;
             columns := batches_column bs <$> seq 0 (length s);
             num_rows := total_num_rows bs |}.
Proof.
  intros Hall. unfold FromRecordBatches_with.
  assert (Hcheck : forallb (fun b => bool_decide (rb_schema b = s)) bs = true).
  { apply forallb_forall. intros b Hb. apply bool_decide_eq_true.
    rewrite Forall_forall in Hall. apply Hall, list_elem_of_In, Hb. }
  rewrite Hcheck. reflexivity.
Qed.

(** The library's whole-file read on a file that decodes. *)
Lemma ReadTable_ok (r : FileReader) (cols : option (list Z)) :
  well_formed_file (fr_file r) ->
  valid_columns (pq_schema (fr_file r)) cols = true ->
  ReadTable r cols
  = Value {| schema := select cols (pq_schema (fr_file r));
             columns := batches_column (project cols <$> file_batches (fr_file r))
                          <$> seq 0 (length (select cols (pq_schema (fr_file r))));
             num_rows := file_num_rows (fr_file r) |}.
Proof.
  intros Hwf Hvalid. unfold ReadTable. rewrite Hvalid.
  pose proof (project_good _ cols _ (well_formed_file_items _ Hwf)) as Hgood.
  rewrite (all_batches_good _ _ Hgood).
  rewrite (FromRecordBatches_with_ok _ _ (good_items_schema _ _ Hgood)).
  rewrite filter_map_project, total_num_rows_project. reflexivity.
Qed.

(** What the bridge does up to the choice between the two ways of reading. *)
Lemma parquet_read_table_opened (w : World) (filename : string) (f : ParquetFile)
    (col_idxs : list Z) (use_threads only_first : Z) :
  files w !! filename = Some (Parquet f) ->
  exists reader1,
    fr_file reader1 = f /\
    parquet_read_table filename col_idxs use_threads only_first w
    = OCAML_PROTECT_EXN (
        table <- (if only_first <? 0
                  then ok_exn (ReadTable reader1 (columns_arg col_idxs))
                  else
                    batches <- read_row_groups reader1 (columns_arg col_idxs)
                                 (iota (num_row_groups reader1)) only_first [] ;;
                    ok_exn (FromRecordBatches batches)) ;;
        new_table table) (log (ReadableFile_Open filename) w).
Proof.
  intros Hfile.
  exists (if 0 <=? use_threads
          then set_use_threads {| fr_file := f; fr_use_threads := false |} use_threads
          else {| fr_file := f; fr_use_threads := false |}).
  split; [destruct (0 <=? use_threads); reflexivity|].
  assert (Hopen : ReadableFile_Open_ filename w
                  = (Ok (Value (Parquet f)), log (ReadableFile_Open filename) w))
    by (unfold ReadableFile_Open_; rewrite Hfile; reflexivity).
  unfold parquet_read_table, OCAML_PROTECT_EXN.
  rewrite (bind_Ok _ _ _ _ _ Hopen).
  rewrite (bind_Ok (ok_exn (Value (Parquet f))) _ _ _ (Parquet f) eq_refl).
  rewrite (bind_Ok (ok_exn (OpenFile (Parquet f))) _ _ _ _ eq_refl).
  reflexivity.
Qed.



Lemma parquet_schema_run (w : World) (filename : string) (f : ParquetFile)
    (n : loc) (v : Z) :
  files w !! filename = Some (Parquet f) -> ints w !! n = Some v ->
  parquet_schema filename (Ptr n) w
  = (Ok (ExportSchema (pq_schema f)),
     set_ints (insert n (file_num_rows f)) (log (ReadableFile_Open filename) w)).
Proof.
  intros Hfile Hn.
  assert (Hopen : ReadableFile_Open_ filename w
                  = (Ok (Value (Parquet f)), log (ReadableFile_Open filename) w))
    by (unfold ReadableFile_Open_; rewrite Hfile; reflexivity).
  unfold parquet_schema, OCAML_PROTECT_EXN.
  rewrite (bind_Ok _ _ _ _ _ Hopen).
  rewrite (bind_Ok (ok_exn (Value (Parquet f))) _ _ _ (Parquet f) eq_refl).
  rewrite (bind_Ok (ok_exn (OpenFile (Parquet f))) _ _ _ _ eq_refl).
  unfold GetSchema, bind, status_exn, ret, store_int. simpl. rewrite Hn. reflexivity.
Qed.

(** X6. What [parquet_schema] reports about a well-formed file is what an
    unlimited [parquet_read_table] of all columns then delivers: the row count
    left in [*num_rows] is the [table_num_rows] of the table read, and the
    schema returned is its [table_schema]. *)
Theorem parquet_schema_agrees_with_read (w : World) (filename : string)
    (f : ParquetFile) (n : loc) (v use_threads only_first : Z) :
  files w !! filename = Some (Parquet f) -> well_formed_file f ->
  ints w !! n = Some v -> only_first < 0 ->
  exists sch rows w1 l w2,
    parquet_schema filename (Ptr n) w = (Ok sch, w1) /\
    ints w1 !! n = Some rows /\
    parquet_read_table filename [] use_threads only_first w1 = (Ok (Ptr l), w2) /\
    table_num_rows (Ptr l) w2 = (Ok rows, w2) /\
    table_schema (Ptr l) w2 = (Ok sch, w2).
Proof.
  intros Hfile Hwf Hn Hneg.
  set (w1 := set_ints (insert n (file_num_rows f)) (log (ReadableFile_Open filename) w)).
  assert (Hfile1 : files w1 !! filename = Some (Parquet f)) by exact Hfile.
  destruct (parquet_read_table_opened w1 filename f [] use_threads only_first
              Hfile1) as (reader1 & Hf & Hread).
  destruct (Z.ltb_spec only_first 0) as [_|Hge]; [|lia].
  rewrite ReadTable_ok in Hread by (rewrite Hf; first [assumption | reflexivity]).
  rewrite Hf in Hread.
  eexists _, _, w1, _, _.
  split; [apply (parquet_schema_run w filename f n v Hfile Hn)|].
  split; [simpl; apply lookup_insert_eq|].
  split; [rewrite Hread; reflexivity|].
  split.
  - unfold table_num_rows.
    erewrite bind_Ok; [|apply deref_table_live; simpl; apply lookup_insert_eq].
    reflexivity.
  - unfold table_schema.
    erewrite bind_Ok; [|apply deref_table_live; simpl; apply lookup_insert_eq].
    reflexivity.
Qed.

Lemma parquet_schema_agrees_with_read_witness :
  exists sch rows w1 l w2,
    parquet_schema "data.parquet" (Ptr 1%positive) sample_world = (Ok sch, w1) /\
    ints w1 !! 1%positive = Some rows /\
    parquet_read_table "data.parquet" [] 0 (-1) w1 = (Ok (Ptr l), w2) /\
    table_num_rows (Ptr l) w2 = (Ok rows, w2) /\
    table_schema (Ptr l) w2 = (Ok sch, w2).
Proof.
  apply (parquet_schema_agrees_with_read sample_world "data.parquet" sample_file
           1%positive 7 0 (-1)); try reflexivity.
  repeat constructor; eexists; repeat split; simpl; lia.
Defined.

Lemma take_rows_nonpos (k : Z) (bs : list RecordBatch) :
  k <= 0 -> take_rows k bs = [].
Proof.
  intros Hk. destruct bs as [|b bs]; [reflexivity|]. simpl.
  destruct (Z.leb_spec k 0); [reflexivity | lia].
Qed.

Lemma take_rows_app (k : Z) (bs1 bs2 : list RecordBatch) :
  take_rows k (bs1 ++ bs2)
  = take_rows k bs1 ++ take_rows (k - total_num_rows (take_rows k bs1)) bs2.
Proof.
  revert k. induction bs1 as [|b bs1 IH]; intros k.
  - simpl. rewrite Z.sub_0_r. reflexivity.
  - simpl. destruct (Z.leb_spec k 0) as [Hk|Hk].
    + simpl. rewrite take_rows_nonpos by lia. reflexivity.
    + destruct (Z.leb_spec k (rb_num_rows b)) as [Hfit|Hmore].
      * simpl. rewrite take_rows_nonpos by lia. reflexivity.
      * simpl. rewrite IH. do 3 f_equal. lia.
Qed.

Lemma take_rows_total (k : Z) (bs : list RecordBatch) :
  Forall (fun b => 0 <= rb_num_rows b) bs -> 0 <= k ->
  total_num_rows (take_rows k bs) = Z.min k (total_num_rows bs).
Proof.
  intros Hbs. revert k. induction Hbs as [|b bs Hb Hbs IH]; intros k Hk; simpl.
  - lia.
  - assert (0 <= total_num_rows bs).
    { clear -Hbs. induction Hbs; simpl; lia. }
    destruct (Z.leb_spec k 0); [simpl; lia|].
    destruct (Z.leb_spec k (rb_num_rows b)); simpl; [lia|].
    rewrite IH by lia. lia.
Qed.

Lemma take_rows_schema (s : Schema) (k : Z) (bs : list RecordBatch) :
  Forall (fun b => rb_schema b = s) bs ->
  Forall (fun b => rb_schema b = s) (take_rows k bs).
Proof.
  intros Hbs. revert k. induction Hbs as [|b bs Hb Hbs IH]; intros k; simpl;
    [constructor|].
  destruct (k <=? 0); [constructor|].
  destruct (k <=? rb_num_rows b); [repeat constructor; exact Hb|].
  constructor; [exact Hb | apply IH].
Qed.

Lemma take_rows_nonempty (k : Z) (bs : list RecordBatch) :
  0 < k -> bs <> [] -> take_rows k bs <> [].
Proof.
  intros Hk Hne. destruct bs as [|b bs]; [contradiction|]. simpl.
  destruct (Z.leb_spec k 0); [lia|].
  destruct (k <=? rb_num_rows b); discriminate.
Qed.

Lemma good_items_nonneg (s : Schema) (items : list (Result RecordBatch)) :
  Forall (good_item s) items ->
  Forall (fun b => 0 <= rb_num_rows b) (filter_map batch_of items).
Proof.
  induction 1 as [|r items (b & -> & Hb & _) _ IH]; simpl; constructor; assumption.
Qed.

Lemma iter_log_calls (n : nat) (c : Call) (w : World) :
  calls (Nat.iter n (log c) w) = calls w ++ replicate n c /\
  tables (Nat.iter n (log c) w) = tables w /\
  readers (Nat.iter n (log c) w) = readers w /\
  ints (Nat.iter n (log c) w) = ints w /\
  files (Nat.iter n (log c) w) = files w.
Proof.
  induction n as [|n (Hc & Ht & Hr & Hi & Hf)]; simpl.
  - rewrite app_nil_r. repeat split.
  - rewrite Hc, Ht, Hr, Hi, Hf. repeat split.
    rewrite <- app_assoc. f_equal.
    change (replicate n c ++ [c] = c :: replicate n c).
    clear. induction n as [|n IH]; [reflexivity|]. simpl. rewrite IH. reflexivity.
Qed.

(** The inner loop, exactly: it collects the first [k] rows of the row group
    and reads at most once more than it collects. *)
Lemma read_batches_take (s : Schema) (items : list (Result RecordBatch)) :
  Forall (good_item s) items ->
  forall k acc w, 0 <= k ->
    exists n,
      read_batches items k acc w
      = (Ok (k - total_num_rows (take_rows k (filter_map batch_of items)),
             acc ++ take_rows k (filter_map batch_of items)),
         Nat.iter n (log RecordBatchReader_ReadNext) w) /\
      (n <= length (take_rows k (filter_map batch_of items)) + 1)%nat.
Proof.
  induction 1 as [|r items (b & -> & Hb & Hs) Hitems IH]; intros k acc w Hk.
  - exists (if 0 <? k then 1%nat else 0%nat). simpl.
    unfold bind, modify, ret. rewrite app_nil_r, Z.sub_0_r.
    destruct (0 <? k); simpl; split; try reflexivity; lia.
  - simpl. destruct (Z.ltb_spec 0 k) as [Hpos|Hzero].
    + destruct (Z.leb_spec k 0) as [Hk0|_]; [lia|].
      unfold bind at 1, modify.
      destruct (Z.leb_spec k (rb_num_rows b)) as [Hfit|Hmore].
      * exists 1%nat. simpl. rewrite Z.sub_0_r.
        replace (k - (Z.min (rb_num_rows b) k + 0)) with 0 by lia.
        split; [reflexivity | lia].
      * destruct (IH (k - rb_num_rows b) (acc ++ [b]) (log RecordBatchReader_ReadNext w)
                    ltac:(lia)) as (n & Hrun & Hn).
        exists (S n). rewrite Hrun. rewrite Nat.iter_succ_r. simpl.
        rewrite <- app_assoc. simpl.
        replace (k - (rb_num_rows b + total_num_rows
                        (take_rows (k - rb_num_rows b) (filter_map batch_of items))))
          with (k - rb_num_rows b - total_num_rows
                  (take_rows (k - rb_num_rows b) (filter_map batch_of items))) by lia.
        split; [reflexivity | lia].
    + destruct (Z.leb_spec k 0) as [_|Hk0]; [|lia].
      exists 0%nat. unfold ret. simpl. rewrite app_nil_r, Z.sub_0_r.
      split; [reflexivity | lia].
Qed.

(** The outer loop, exactly, on row groups of which the leading ones [gs1]
    decode. The others are not looked at when the limit is met before. *)
Lemma read_row_groups_take (r : FileReader) (cols : option (list Z)) (s : Schema)
    (gs1 gs2 : list (list (Result RecordBatch))) :
  Forall (Forall (good_item s)) gs1 ->
  forall idxs k acc w,
    Forall2 (fun idx g => GetRecordBatchReader r [idx] cols = Value g) idxs (gs1 ++ gs2) ->
    0 <= k ->
    gs2 = [] \/ (0 < k /\ k <= total_num_rows (filter_map batch_of (concat gs1))) ->
    exists n,
      read_row_groups r cols idxs k acc w
      = (Ok (acc ++ take_rows k (filter_map batch_of (concat gs1))),
         Nat.iter n (log RecordBatchReader_ReadNext) w) /\
      (n <= length (take_rows k (filter_map batch_of (concat gs1))) + length gs1)%nat.
Proof.
  induction 1 as [|g gs1 Hg Hgs1 IH]; intros idxs k acc w Hidx Hk Hstop.
  - destruct Hstop as [->|[Hpos Hle]]; [|simpl in Hle; lia].
    inversion Hidx; subst. exists 0%nat. simpl. unfold ret. rewrite app_nil_r.
    split; [reflexivity | lia].
  - inversion Hidx as [|idx g' idxs' gs' Hget Hrest]; subst.
    simpl. unfold bind at 1. rewrite Hget. simpl.
    destruct (read_batches_take s g Hg k acc w Hk) as (n1 & Hrun1 & Hn1).
    unfold bind at 1. rewrite Hrun1. cbn [fst snd].
    rewrite filter_map_app, take_rows_app.
    pose proof (take_rows_total k _ (good_items_nonneg s g Hg) Hk) as Htot.
    set (taken1 := take_rows k (filter_map batch_of g)) in *.
    destruct (Z.leb_spec (k - total_num_rows taken1) 0) as [Hdone|Hleft].
    + exists n1. rewrite take_rows_nonpos by lia. rewrite app_nil_r. unfold ret.
      split; [reflexivity|]. simpl. lia.
    + destruct (IH idxs' (k - total_num_rows taken1) (acc ++ taken1)
                  (Nat.iter n1 (log RecordBatchReader_ReadNext) w) Hrest ltac:(lia))
        as (n2 & Hrun2 & Hn2).
      { destruct Hstop as [->|[Hpos Hle]]; [left; reflexivity|]. right.
        simpl in Hle. rewrite filter_map_app, total_num_rows_app in Hle. lia. }
      exists (n2 + n1)%nat. rewrite Hrun2, <- app_assoc, Nat.iter_add.
      split; [reflexivity|]. rewrite length_app. simpl. lia.
Qed.

Lemma row_group_readers_split (r : FileReader) (cols : option (list Z))
    (gs1 gs2 : list (list (Result RecordBatch))) :
  pq_row_groups (fr_file r) = gs1 ++ gs2 ->
  valid_columns (pq_schema (fr_file r)) cols = true ->
  Forall2 (fun idx g => GetRecordBatchReader r [idx] cols = Value g)
          (iota (num_row_groups r))
          ((fmap (M:=list) (project_result cols) <$> gs1)
           ++ (fmap (M:=list) (project_result cols) <$> gs2)).
Proof.
  intros Hsplit Hvalid. rewrite <- fmap_app, <- Hsplit.
  apply row_group_readers, Hvalid.
Qed.

(** The row-limited read, exactly: the batches collected are the first
    [only_first] rows of the leading row groups [gs1], and the batch readers
    are read at most once per batch collected and once more per row group. *)
Lemma parquet_read_table_limit_run (w : World) (filename : string) (f : ParquetFile)
    (gs1 gs2 : list (list (Result RecordBatch)))
    (col_idxs : list Z) (use_threads only_first : Z) :
  files w !! filename = Some (Parquet f) ->
  pq_row_groups f = gs1 ++ gs2 ->
  Forall (Forall (good_item (pq_schema f))) gs1 ->
  valid_columns (pq_schema f) (columns_arg col_idxs) = true ->
  0 <= only_first ->
  gs2 = [] \/ (0 < only_first /\
               only_first <= total_num_rows (filter_map batch_of (concat gs1))) ->
  let taken := take_rows only_first
                 (project (columns_arg col_idxs) <$> filter_map batch_of (concat gs1)) in
  exists n,
    (n <= length taken + length gs1)%nat /\
    parquet_read_table filename col_idxs use_threads only_first w
    = OCAML_PROTECT_EXN (table <- ok_exn (FromRecordBatches taken) ;; new_table table)
        (Nat.iter n (log RecordBatchReader_ReadNext)
           (log (ReadableFile_Open filename) w)).
Proof.
  intros Hfile Hsplit Hgood Hvalid Hk Hstop taken.
  destruct (parquet_read_table_opened w filename f col_idxs use_threads only_first
              Hfile) as (reader1 & Hf & ->).
  destruct (Z.ltb_spec only_first 0) as [Hneg|_]; [lia|].
  set (cols := columns_arg col_idxs) in *.
  destruct (read_row_groups_take reader1 cols (select cols (pq_schema f))
              (fmap (M:=list) (project_result cols) <$> gs1)
              (fmap (M:=list) (project_result cols) <$> gs2))
    with (idxs := iota (num_row_groups reader1)) (k := only_first)
         (acc := @nil RecordBatch) (w := log (ReadableFile_Open filename) w)
    as (n & Hrun & Hn).
  - apply Forall_fmap. refine (Forall_impl _ _ _ Hgood _). intros g Hg.
    apply project_good, Hg.
  - apply row_group_readers_split; rewrite Hf; assumption.
  - exact Hk.
  - destruct Hstop as [->|[Hpos Hle]]; [left; reflexivity|]. right.
    split; [exact Hpos|].
    rewrite concat_project, filter_map_project, total_num_rows_project. exact Hle.
  - rewrite concat_project, filter_map_project, length_fmap in Hn.
    rewrite concat_project, filter_map_project in Hrun. fold taken in Hrun, Hn.
    exists n. split; [exact Hn|].
    unfold OCAML_PROTECT_EXN, bind. rewrite Hrun. reflexivity.
Qed.

Lemma projected_batches_schema (f : ParquetFile) (cols : option (list Z))
    (groups : list (list (Result RecordBatch))) :
  Forall (Forall (good_item (pq_schema f))) groups ->
  Forall (fun b => rb_schema b = select cols (pq_schema f))
         (project cols <$> filter_map batch_of (concat groups)).
Proof.
  intros Hgood. rewrite <- filter_map_project.
  apply good_items_schema, project_good, Forall_concat, Hgood.
Qed.

(** X7. A positive row limit takes the leading rows of the file, in file
    order: on a well-formed file with at least one batch the table returned
    is the one made of the batches of the file up to the limit, the last of
    them cut to the rows still wanted, under the selected columns. Handles
    that were live stay as they are. *)
Theorem parquet_read_table_takes_leading_rows (w : World) (filename : string)
    (f : ParquetFile) (col_idxs : list Z) (use_threads only_first : Z) :
  files w !! filename = Some (Parquet f) -> well_formed_file f ->
  valid_columns (pq_schema f) (columns_arg col_idxs) = true ->
  0 < only_first -> file_batches f <> [] ->
  exists l t w',
    parquet_read_table filename col_idxs use_threads only_first w = (Ok (Ptr l), w') /\
    FromRecordBatches
      (take_rows only_first (project (columns_arg col_idxs) <$> file_batches f))
    = Value t /\
    tables w !! l = None /\
    tables w' = <[l := t]> (tables w).
Proof.
  intros Hfile Hwf Hvalid Hpos Hne.
  destruct (parquet_read_table_limit_run w filename f (pq_row_groups f) []
              col_idxs use_threads only_first Hfile (eq_sym (app_nil_r _)) Hwf Hvalid
              ltac:(lia) (or_introl eq_refl)) as (n & _ & ->).
  fold (file_batches f).
  destruct (FromRecordBatches_ok (select (columns_arg col_idxs) (pq_schema f))
              (take_rows only_first (project (columns_arg col_idxs) <$> file_batches f)))
    as (t & Ht & _).
  { apply take_rows_nonempty; [exact Hpos|]. intros Hnil.
    apply fmap_nil_inv in Hnil. contradiction. }
  { apply take_rows_schema, projected_batches_schema, Hwf. }
  unfold OCAML_PROTECT_EXN, bind. rewrite Ht. simpl.
  destruct (iter_log_calls n RecordBatchReader_ReadNext
              (log (ReadableFile_Open filename) w)) as (_ & Htables & _).
  eexists _, t, _. split; [reflexivity|]. split; [reflexivity|].
  simpl in Htables. simpl. rewrite Htables.
  split; [apply not_elem_of_dom, is_fresh | reflexivity].
Qed.

Lemma parquet_read_table_takes_leading_rows_witness :
  exists l t w',
    parquet_read_table "data.parquet" [] (-1) 4 sample_world = (Ok (Ptr l), w') /\
    FromRecordBatches [sample_batch 11 12 3; RecordBatch_Slice (sample_batch 13 14 3) 0 1]
    = Value t /\
    tables sample_world !! l = None /\
    tables w' = <[l := t]> (tables sample_world).
Proof.
  apply (parquet_read_table_takes_leading_rows sample_world "data.parquet"
           sample_file [] (-1) 4); try reflexivity; try discriminate.
  repeat constructor; eexists; repeat split; simpl; lia.
Defined.

(** X8. The row-limited read stops as soon as the limit is met. When the
    leading row groups [gs1] of the file decode and hold at least
    [only_first > 0] rows, the call succeeds with a table of exactly
    [only_first] rows taken from them, whatever the later row groups hold,
    even row groups that do not decode; and the number of [ReadNext] calls is
    at most the number of batches in the table plus the number of these
    leading row groups. *)
Theorem parquet_read_table_stops_early (w : World) (filename : string)
    (f : ParquetFile) (gs1 gs2 : list (list (Result RecordBatch)))
    (col_idxs : list Z) (use_threads only_first : Z) :
  files w !! filename = Some (Parquet f) ->
  pq_row_groups f = gs1 ++ gs2 ->
  Forall (Forall (good_item (pq_schema f))) gs1 ->
  valid_columns (pq_schema f) (columns_arg col_idxs) = true ->
  0 < only_first ->
  only_first <= total_num_rows (filter_map batch_of (concat gs1)) ->
  exists l t n,
    parquet_read_table filename col_idxs use_threads only_first w
    = (Ok (Ptr l), set_tables (insert l t)
                     (Nat.iter n (log RecordBatchReader_ReadNext)
                        (log (ReadableFile_Open filename) w))) /\
    FromRecordBatches
      (take_rows only_first
         (project (columns_arg col_idxs) <$> filter_map batch_of (concat gs1)))
    = Value t /\
    num_rows t = only_first /\
    (n <= length (take_rows only_first
                    (project (columns_arg col_idxs)
                       <$> filter_map batch_of (concat gs1)))
          + length gs1)%nat.
Proof.
  intros Hfile Hsplit Hgood Hvalid Hpos Hle.
  destruct (parquet_read_table_limit_run w filename f gs1 gs2
              col_idxs use_threads only_first Hfile Hsplit Hgood Hvalid
              ltac:(lia) (or_intror (conj Hpos Hle))) as (n & Hn & ->).
  set (bs := project (columns_arg col_idxs) <$> filter_map batch_of (concat gs1)) in *.
  assert (Hnonneg : Forall (fun b => 0 <= rb_num_rows b) bs).
  { unfold bs. rewrite <- filter_map_project.
    apply (good_items_nonneg (select (columns_arg col_idxs) (pq_schema f))).
    apply project_good, Forall_concat, Hgood. }
  assert (Hne : bs <> []).
  { intros Hnil. unfold bs in Hnil. apply fmap_nil_inv in Hnil.
    rewrite Hnil in Hle. simpl in Hle. lia. }
  destruct (FromRecordBatches_ok (select (columns_arg col_idxs) (pq_schema f))
              (take_rows only_first bs)) as (t & Ht & Hrows & _).
  { apply take_rows_nonempty; assumption. }
  { apply take_rows_schema, projected_batches_schema, Hgood. }
  unfold OCAML_PROTECT_EXN, bind. rewrite Ht. simpl.
  eexists _, t, n. split; [reflexivity|]. split; [reflexivity|].
  split.
  - rewrite Hrows, take_rows_total by (assumption || lia).
    unfold bs. rewrite total_num_rows_project. lia.
  - exact Hn.
Qed.

Lemma parquet_read_table_stops_early_witness :
  exists l t n,
    parquet_read_table "damaged.parquet" [] (-1) 2
      (set_files (insert "damaged.parquet"
         (Parquet {| pq_schema := sample_schema;
                     pq_row_groups := [ [Value (sample_batch 11 12 3)];
                                        [Err "IOError: Unexpected end of stream"] ] |}))
         sample_world)
    = (Ok (Ptr l), set_tables (insert l t)
                     (Nat.iter n (log RecordBatchReader_ReadNext)
                        (log (ReadableFile_Open "damaged.parquet")
                           (set_files (insert "damaged.parquet"
                              (Parquet {| pq_schema := sample_schema;
                                          pq_row_groups :=
                                            [ [Value (sample_batch 11 12 3)];
                                              [Err "IOError: Unexpected end of stream"] ] |}))
                              sample_world)))) /\
    FromRecordBatches [RecordBatch_Slice (sample_batch 11 12 3) 0 2] = Value t /\
    num_rows t = 2 /\
    (n <= 1 + 1)%nat.
Proof.
  apply (parquet_read_table_stops_early _ "damaged.parquet"
           {| pq_schema := sample_schema;
              pq_row_groups := [ [Value (sample_batch 11 12 3)];
                                 [Err "IOError: Unexpected end of stream"] ] |}
           [ [Value (sample_batch 11 12 3)] ]
           [ [Err "IOError: Unexpected end of stream"] ] [] (-1) 2);
    try reflexivity.
  - repeat constructor. eexists. repeat split. simpl. lia.
  - simpl. lia.
Defined.


(** ** The streaming reader *)

Lemma select_row_groups_seq (f : ParquetFile) (m i : nat) :
  (i + m <= length (pq_row_groups f))%nat ->
  select_row_groups f (Z.of_nat <$> seq i m)
  = Some (concat (take m (drop i (pq_row_groups f)))).
Proof.
  revert i. induction m as [|m IH]; intros i Hlen; [reflexivity|].
  cbn [seq]. rewrite fmap_cons. cbn [select_row_groups].
  destruct (Z.ltb_spec (Z.of_nat i) 0) as [Hneg|_]; [lia|].
  rewrite Nat2Z.id, IH by lia.
  destruct (pq_row_groups f !! i) as [g|] eqn:Hg.
  - rewrite (drop_S _ g i Hg). reflexivity.
  - apply lookup_ge_None in Hg. lia.
Qed.

Lemma select_all_row_groups (f : ParquetFile) :
  select_row_groups f (iota (Z.of_nat (length (pq_row_groups f))))
  = Some (concat (pq_row_groups f)).
Proof.
  unfold iota. rewrite Nat2Z.id, select_row_groups_seq by lia.
  rewrite drop_0, firstn_all. reflexivity.
Qed.

Lemma parquet_reader_open_run (w : World) (filename : string) (f : ParquetFile)
    (col_idxs : list Z) (use_threads mmap : Z) :
  files w !! filename = Some (Parquet f) ->
  valid_columns (pq_schema f) (columns_arg col_idxs) = true ->
  parquet_reader_open filename col_idxs use_threads mmap w
  = (Ok (Ptr (fresh (dom (readers w)))),
     set_readers
       (insert (fresh (dom (readers w)))
          {| reader := Some {| fr_file := f; fr_use_threads := 0 <? use_threads |};
             batch_reader := Some (project_result (columns_arg col_idxs)
                                     <$> concat (pq_row_groups f)) |})
       (log (ParquetFileReader_OpenFile filename mmap) w)).
Proof.
  intros Hfile Hvalid.
  assert (Hopen : ParquetFileReader_OpenFile_ filename mmap w
                  = (Ok f, log (ParquetFileReader_OpenFile filename mmap) w))
    by (unfold ParquetFileReader_OpenFile_; rewrite Hfile; reflexivity).
  unfold parquet_reader_open, OCAML_PROTECT_EXN.
  rewrite (bind_Ok _ _ _ _ _ Hopen). unfold FileReader_Make.
  rewrite (bind_Ok (status_exn None) _ _ _ tt eq_refl).
  set (reader1 := if 0 <=? use_threads
                  then set_use_threads {| fr_file := f; fr_use_threads := false |}
                         use_threads
                  else {| fr_file := f; fr_use_threads := false |}).
  assert (Hreader : reader1 = {| fr_file := f; fr_use_threads := 0 <? use_threads |}).
  { unfold reader1, set_use_threads. simpl.
    destruct (Z.leb_spec 0 use_threads), (Z.ltb_spec 0 use_threads),
      (Z.eqb_spec use_threads 0); simpl; try reflexivity; lia. }
  rewrite Hreader. unfold GetRecordBatchReader, num_row_groups. simpl fr_file.
  rewrite select_all_row_groups, Hvalid. reflexivity.
Qed.

(** X9. A successful [parquet_reader_open] leaves a reader in the Open state
    at an address that was not in use: its iterator holds every batch of every
    row group, in file order and under the selected columns (all columns when
    none is given), and the reader decodes with threads exactly when
    [use_threads] is positive. No table handle is made. *)
Theorem parquet_reader_open_state (w : World) (filename : string) (f : ParquetFile)
    (col_idxs : list Z) (use_threads mmap : Z) :
  files w !! filename = Some (Parquet f) ->
  valid_columns (pq_schema f) (columns_arg col_idxs) = true ->
  exists l w',
    parquet_reader_open filename col_idxs use_threads mmap w = (Ok (Ptr l), w') /\
    readers w !! l = None /\
    readers w' = <[l := {| reader := Some {| fr_file := f;
                                              fr_use_threads := 0 <? use_threads |};
                           batch_reader :=
                             Some (project_result (columns_arg col_idxs)
                                     <$> concat (pq_row_groups f)) |}]> (readers w) /\
    tables w' = tables w.
Proof.
  intros Hfile Hvalid. eexists _, _.
  split; [apply (parquet_reader_open_run w filename f col_idxs use_threads mmap
                   Hfile Hvalid)|].
  split; [apply not_elem_of_dom, is_fresh|]. split; reflexivity.
Qed.

Lemma parquet_reader_open_state_witness :
  exists l w',
    parquet_reader_open "data.parquet" [1] 4 0 sample_world = (Ok (Ptr l), w') /\
    readers sample_world !! l = None /\
    readers w' = <[l := {| reader := Some {| fr_file := sample_file;
                                              fr_use_threads := true |};
                           batch_reader :=
                             Some (project_result (Some [1])
                                     <$> concat (pq_row_groups sample_file)) |}]>
                   (readers sample_world) /\
    tables w' = tables sample_world.
Proof.
  apply (parquet_reader_open_state sample_world "data.parquet" sample_file [1] 4 0);
    reflexivity.
Defined.

(** X10. A failed [parquet_reader_open] leaves no reader behind: the state is
    as before but for the attempt to open the file. *)
Theorem parquet_reader_open_failure (filename : string) (col_idxs : list Z)
    (use_threads mmap : Z) (w w' : World) (e : caml_exn) :
  parquet_reader_open filename col_idxs use_threads mmap w = (Raise e, w') ->
  w' = log (ParquetFileReader_OpenFile filename mmap) w /\
  readers w' = readers w /\ tables w' = tables w.
Proof.
  unfold parquet_reader_open, OCAML_PROTECT_EXN, bind, ParquetFileReader_OpenFile_.
  destruct (files w !! filename) as [[| | | |f]|]; simpl;
    try (intros [= <- <-]; repeat split).
  unfold FileReader_Make. simpl.
  destruct (GetRecordBatchReader _ _ _); simpl; intros [= <- <-]; repeat split.
Qed.

Lemma parquet_reader_open_failure_witness :
  readers (log (ParquetFileReader_OpenFile "data.parquet" 0) sample_world)
  = readers sample_world /\
  parquet_reader_open "data.parquet" [2] (-1) 0 sample_world
  = (Raise (Failure "Invalid: Invalid column index"),
     log (ParquetFileReader_OpenFile "data.parquet" 0) sample_world).
Proof.
  assert (Hrun : parquet_reader_open "data.parquet" [2] (-1) 0 sample_world
                 = (Raise (Failure "Invalid: Invalid column index"),
                    log (ParquetFileReader_OpenFile "data.parquet" 0) sample_world))
    by (vm_compute; reflexivity).
  split; [|exact Hrun].
  apply (parquet_reader_open_failure _ _ _ _ _ _ _ Hrun).
Defined.

Lemma parquet_reader_next_batch (w : World) (l : loc) (fr : option FileReader)
    (b : RecordBatch) (rest : RecordBatchReader) :
  readers w !! l = Some {| reader := fr; batch_reader := Some (Value b :: rest) |} ->
  exists t,
    FromRecordBatches [b] = Value t /\ num_rows t = rb_num_rows b /\
    parquet_reader_next (Ptr l) w
    = (Ok (Ptr (fresh (dom (tables w)))),
       set_tables (insert (fresh (dom (tables w))) t)
         (set_readers (insert l {| reader := fr; batch_reader := Some rest |})
            (log RecordBatchReader_ReadNext w))).
Proof.
  intros Hr. eexists. split; [apply FromRecordBatches_one|]. split; [simpl; lia|].
  unfold parquet_reader_next.
  rewrite (bind_Ok _ _ _ _ _ (deref_reader_live w l _ Hr)).
  cbn [batch_reader ReadNext]. unfold OCAML_PROTECT_EXN.
  rewrite (bind_Ok (modify (log RecordBatchReader_ReadNext)) _ _ _ tt eq_refl).
  erewrite bind_Ok;
    [|apply (update_reader_live (log RecordBatchReader_ReadNext w) l _ _ Hr)].
  rewrite (bind_Ok (status_exn None) _ _ _ tt eq_refl).
  rewrite FromRecordBatches_one. reflexivity.
Qed.

Lemma parquet_reader_next_end (w : World) (l : loc) (fr : option FileReader) :
  readers w !! l = Some {| reader := fr; batch_reader := Some [] |} ->
  parquet_reader_next (Ptr l) w
  = (Ok NULL, set_readers (insert l {| reader := fr; batch_reader := Some [] |})
                (log RecordBatchReader_ReadNext w)).
Proof.
  intros Hr. unfold parquet_reader_next.
  rewrite (bind_Ok _ _ _ _ _ (deref_reader_live w l _ Hr)).
  cbn [batch_reader ReadNext]. unfold OCAML_PROTECT_EXN.
  rewrite (bind_Ok (modify (log RecordBatchReader_ReadNext)) _ _ _ tt eq_refl).
  erewrite bind_Ok;
    [|apply (update_reader_live (log RecordBatchReader_ReadNext w) l _ _ Hr)].
  reflexivity.
Qed.

Lemma parquet_reader_next_n_end (m : nat) (w : World) (l : loc)
    (fr : option FileReader) :
  readers w !! l = Some {| reader := fr; batch_reader := Some [] |} ->
  exists w',
    parquet_reader_next_n (Ptr l) m w = (Ok (replicate m NULL), w') /\
    tables w' = tables w /\
    readers w' !! l = Some {| reader := fr; batch_reader := Some [] |}.
Proof.
  revert w. induction m as [|m IH]; intros w Hr.
  - exists w. repeat split. exact Hr.
  - destruct (IH (set_readers (insert l {| reader := fr; batch_reader := Some [] |})
                    (log RecordBatchReader_ReadNext w)))
      as (w' & Hrun & Ht & Hr'); [simpl; apply lookup_insert_eq|].
    exists w'. simpl.
    rewrite (bind_Ok _ _ _ _ _ (parquet_reader_next_end w l fr Hr)).
    rewrite (bind_Ok _ _ _ _ _ Hrun). repeat split; assumption.
Qed.

(** Draining an Open reader whose batches decode. *)
Lemma parquet_reader_next_n_drains (s : Schema) (items : list (Result RecordBatch)) :
  Forall (good_item s) items ->
  forall (m : nat) (w : World) (l : loc) (fr : option FileReader),
    readers w !! l = Some {| reader := fr; batch_reader := Some items |} ->
    exists hs w',
      parquet_reader_next_n (Ptr l) (length items + m) w
      = (Ok ((Ptr <$> hs) ++ replicate m NULL), w') /\
      Forall2 (fun h b => exists t, tables w' !! h = Some t /\
                                    FromRecordBatches [b] = Value t /\
                                    num_rows t = rb_num_rows b /\
                                    tables w !! h = None)
              hs (filter_map batch_of items) /\
      (forall h t, tables w !! h = Some t -> tables w' !! h = Some t) /\
      readers w' !! l = Some {| reader := fr; batch_reader := Some [] |}.
Proof.
  induction 1 as [|r items (b & -> & _) _ IH]; intros m w l fr Hr.
  - destruct (parquet_reader_next_n_end m w l fr Hr) as (w' & Hrun & Ht & Hr').
    exists [], w'. simpl. split; [exact Hrun|]. split; [constructor|].
    split; [|exact Hr']. intros h t Hh. rewrite Ht. exact Hh.
  - destruct (parquet_reader_next_batch w l fr b items Hr) as (t & Ht & Hrows & Hnext).
    set (h := fresh (dom (tables w))) in *.
    set (w1 := set_tables (insert h t)
                 (set_readers (insert l {| reader := fr; batch_reader := Some items |})
                    (log RecordBatchReader_ReadNext w))) in *.
    assert (Hfresh : tables w !! h = None) by apply not_elem_of_dom, is_fresh.
    destruct (IH m w1 l fr) as (hs & w' & Hrun & Hall & Hkeep & Hr');
      [simpl; apply lookup_insert_eq|].
    exists (h :: hs), w'. cbn [length Nat.add parquet_reader_next_n].
    rewrite (bind_Ok _ _ _ _ _ Hnext), (bind_Ok _ _ _ _ _ Hrun).
    split; [reflexivity|]. split; [|split; [|exact Hr']].
    + cbn [filter_map batch_of]. constructor.
      * exists t. split; [apply Hkeep; simpl; apply lookup_insert_eq|].
        repeat split; assumption.
      * refine (Forall2_impl _ _ _ _ Hall _).
        intros h' b' (t' & Hh' & Ht' & Hrows' & Hnone).
        exists t'. repeat split; try assumption.
        simpl in Hnone. apply lookup_insert_None in Hnone as [Hnone _]. exact Hnone.
    + intros h' t' Hh'. apply Hkeep. simpl.
      rewrite lookup_insert_ne; [exact Hh'|]. intros <-. congruence.
Qed.

Lemma good_items_length (s : Schema) (items : list (Result RecordBatch)) :
  Forall (good_item s) items -> length (filter_map batch_of items) = length items.
Proof.
  induction 1 as [|r items (b & -> & _) _ IH]; simpl; [reflexivity|].
  rewrite IH. reflexivity.
Qed.

(** X11. Open, then [parquet_reader_next] again and again: on a well-formed
    file the calls return, batch after batch in file order, a fresh handle on
    a table made of that one batch (under the selected columns, with the rows
    of the batch), and once the batches are used up every further call
    returns the null handle. Tables returned earlier stay as they are. *)
Theorem parquet_reader_streams_in_order (w : World) (filename : string)
    (f : ParquetFile) (col_idxs : list Z) (use_threads mmap : Z) (m : nat) :
  files w !! filename = Some (Parquet f) -> well_formed_file f ->
  valid_columns (pq_schema f) (columns_arg col_idxs) = true ->
  exists l w1 hs w2,
    parquet_reader_open filename col_idxs use_threads mmap w = (Ok (Ptr l), w1) /\
    parquet_reader_next_n (Ptr l) (length (file_batches f) + m) w1
    = (Ok ((Ptr <$> hs) ++ replicate m NULL), w2) /\
    Forall2 (fun h b => exists t, tables w2 !! h = Some t /\
                                  FromRecordBatches [project (columns_arg col_idxs) b]
                                  = Value t /\
                                  num_rows t = rb_num_rows b /\
                                  tables w !! h = None)
            hs (file_batches f).
Proof.
  intros Hfile Hwf Hvalid.
  pose proof (project_good _ (columns_arg col_idxs) _ (well_formed_file_items f Hwf))
    as Hgood.
  set (items := project_result (columns_arg col_idxs) <$> concat (pq_row_groups f)) in *.
  set (fr := {| fr_file := f; fr_use_threads := 0 <? use_threads |}).
  set (l := fresh (dom (readers w))).
  set (w1 := set_readers
               (insert l {| reader := Some fr; batch_reader := Some items |})
               (log (ParquetFileReader_OpenFile filename mmap) w)).
  destruct (parquet_reader_next_n_drains _ items Hgood m w1 l (Some fr))
    as (hs & w2 & Hrun & Hall & _); [simpl; apply lookup_insert_eq|].
  exists l, w1, hs, w2.
  split; [apply (parquet_reader_open_run w filename f col_idxs use_threads mmap
                   Hfile Hvalid)|].
  assert (Hlen : length (file_batches f) = length items).
  { unfold file_batches, items. rewrite length_fmap.
    apply (good_items_length _ _ (well_formed_file_items f Hwf)). }
  rewrite Hlen. split; [exact Hrun|].
  unfold items in Hall. rewrite filter_map_project in Hall.
  apply Forall2_fmap_r in Hall.
  refine (Forall2_impl _ _ _ _ Hall _).
  intros h b (t & Hh & Ht & Hrows & Hnone). exists t. repeat split; assumption.
Qed.

Lemma parquet_reader_streams_in_order_witness :
  exists l w1 hs w2,
    parquet_reader_open "data.parquet" [] (-1) 0 sample_world = (Ok (Ptr l), w1) /\
    parquet_reader_next_n (Ptr l) (3 + 2) w1
    = (Ok ((Ptr <$> hs) ++ [NULL; NULL]), w2) /\
    Forall2 (fun h b => exists t, tables w2 !! h = Some t /\
                                  FromRecordBatches [project None b] = Value t /\
                                  num_rows t = rb_num_rows b /\
                                  tables sample_world !! h = None)
            hs [sample_batch 11 12 3; sample_batch 13 14 3; sample_batch 15 16 2].
Proof.
  apply (parquet_reader_streams_in_order sample_world "data.parquet" sample_file
           [] (-1) 0 2); try reflexivity.
  repeat constructor; eexists; repeat split; simpl; lia.
Defined.

(** X12. [parquet_reader_free] does nothing on a null pointer; on a live
    reader it removes the cell, open or closed, and leaves the other readers
    alone, so that freeing after a close ends in the same state as freeing at
    once; a later [parquet_reader_next] or [parquet_reader_close] on the
    freed address is a fault. *)
Theorem parquet_reader_free_releases (w : World) (l : loc) (r : ParquetReader) :
  readers w !! l = Some r ->
  parquet_reader_free NULL w = (Ok tt, w) /\
  parquet_reader_free (Ptr l) w = (Ok tt, set_readers (delete l) w) /\
  (exists w1, parquet_reader_close (Ptr l) w = (Ok tt, w1) /\
              parquet_reader_free (Ptr l) w1 = (Ok tt, set_readers (delete l) w)) /\
  (forall l', l' <> l ->
     readers (set_readers (delete l) w) !! l' = readers w !! l') /\
  parquet_reader_next (Ptr l) (set_readers (delete l) w)
  = (Fault, set_readers (delete l) w) /\
  parquet_reader_close (Ptr l) (set_readers (delete l) w)
  = (Fault, set_readers (delete l) w).
Proof.
  intros Hr.
  assert (Hfree : forall w0 r0, readers w0 !! l = Some r0 ->
            parquet_reader_free (Ptr l) w0 = (Ok tt, set_readers (delete l) w0)).
  { intros w0 r0 H0. unfold parquet_reader_free.
    rewrite (bind_Ok _ _ _ _ _ (deref_reader_live w0 l r0 H0)). reflexivity. }
  assert (Hgone : deref_reader (Ptr l) (set_readers (delete l) w)
                  = (Fault, set_readers (delete l) w)).
  { unfold deref_reader. simpl. rewrite lookup_delete_eq. reflexivity. }
  split; [reflexivity|]. split; [apply (Hfree w r Hr)|]. split; [|split; [|split]].
  - eexists. split; [apply (parquet_reader_close_live w l r Hr)|].
    erewrite Hfree by (simpl; apply lookup_insert_eq).
    f_equal. apply World_eq; simpl; try reflexivity. apply delete_insert_eq.
  - intros l' Hne. simpl. apply lookup_delete_ne. congruence.
  - unfold parquet_reader_next, bind. rewrite Hgone. reflexivity.
  - unfold parquet_reader_close, update_reader, bind. rewrite Hgone. reflexivity.
Qed.

Lemma parquet_reader_free_releases_witness :
  parquet_reader_free (Ptr 2%positive) sample_world
  = (Ok tt, set_readers (delete 2%positive) sample_world) /\
  parquet_reader_next (Ptr 2%positive) (set_readers (delete 2%positive) sample_world)
  = (Fault, set_readers (delete 2%positive) sample_world).
Proof.
  destruct (parquet_reader_free_releases sample_world 2%positive sample_reader eq_refl)
    as (_ & Hfree & _ & _ & Hnext & _).
  split; assumption.
Defined.

(** ** Making, slicing and freeing tables *)

Lemma single_batch_columns (b : RecordBatch) (n : nat) :
  length (rb_columns b) = n ->
  batches_column [b] <$> seq 0 n = (fun a => [a]) <$> rb_columns b.
Proof.
  intros Hlen. apply list_eq. intros i. rewrite !list_lookup_fmap.
  destruct (rb_columns b !! i) as [a|] eqn:Ha.
  - assert (Hi : (i < n)%nat) by (rewrite <- Hlen; apply lookup_lt_Some in Ha; exact Ha).
    rewrite (lookup_seq_lt 0 n i Hi). simpl.
    unfold batches_column. simpl. rewrite Ha. reflexivity.
  - apply lookup_ge_None in Ha. rewrite lookup_seq_ge by lia. reflexivity.
Qed.

(** X13. [create_table] makes a table of the batch the library imports.
    When the import of the array and the schema gives a batch, with one array
    per field, the call returns a fresh handle on a table with the schema of
    the batch whose columns are the arrays of the batch themselves, one chunk
    each; the other handles stay as they are, and the accessors give back
    what came in: [table_num_rows] the rows of the batch and [table_schema]
    its schema. Which structs the library imports is its own affair: the
    statement is about the batch it gives. *)
Theorem create_table_round_trip (w : World) (array : ArrowArray) (sch : ArrowSchema)
    (b : RecordBatch) :
  ImportRecordBatch array sch = Value b ->
  length (rb_columns b) = length (rb_schema b) ->
  exists l t w',
    create_table array sch w = (Ok (Ptr l), w') /\
    tables w !! l = None /\ tables w' = <[l := t]> (tables w) /\
    readers w' = readers w /\
    schema t = rb_schema b /\
    columns t = (fun a => [a]) <$> rb_columns b /\
    table_num_rows (Ptr l) w' = (Ok (rb_num_rows b), w') /\
    table_schema (Ptr l) w' = (Ok (ExportSchema (rb_schema b)), w').
Proof.
  intros Himport Hlen.
  set (l := fresh (dom (tables w))).
  eexists l, _, _. split.
  { unfold create_table, OCAML_PROTECT_EXN. rewrite Himport.
    rewrite (bind_Ok (ok_exn (Value _)) _ _ _ _ eq_refl).
    rewrite FromRecordBatches_one. reflexivity. }
  split; [apply not_elem_of_dom, is_fresh|]. split; [reflexivity|].
  split; [reflexivity|]. split; [reflexivity|].
  split; [apply single_batch_columns; simpl; exact Hlen|].
  split.
  - unfold table_num_rows.
    erewrite bind_Ok; [|apply deref_table_live; simpl; apply lookup_insert_eq].
    unfold ret. simpl. f_equal. f_equal. lia.
  - unfold table_schema.
    erewrite bind_Ok; [|apply deref_table_live; simpl; apply lookup_insert_eq].
    reflexivity.
Qed.

Lemma create_table_round_trip_witness :
  exists l t w',
    create_table sample_ArrowArray sample_ArrowSchema sample_world = (Ok (Ptr l), w') /\
    tables sample_world !! l = None /\ tables w' = <[l := t]> (tables sample_world) /\
    readers w' = readers sample_world /\
    schema t = sample_schema /\
    columns t = [[sample_array int64_type 21 3]; [sample_array double_type 22 3]] /\
    table_num_rows (Ptr l) w' = (Ok 3, w') /\
    table_schema (Ptr l) w' = (Ok sample_ArrowSchema, w').
Proof.
  apply (create_table_round_trip sample_world sample_ArrowArray sample_ArrowSchema
           {| rb_schema := sample_schema;
              rb_columns := aa_children sample_ArrowArray;
              rb_num_rows := 3 |});
    reflexivity.
Defined.

Lemma Slice_take_nonneg (chunks : list Array) :
  nonneg_chunks chunks ->
  forall offset length,
    match chunks with c :: _ => offset <= arr_length c | [] => True end ->
    nonneg_chunks (Slice_take chunks offset length).
Proof.
  unfold nonneg_chunks.
  induction 1 as [|c rest Hc Hrest IH]; intros offset length Hhd; simpl;
    [constructor|].
  destruct (Z.ltb_spec 0 length) as [Hpos|_]; [|constructor].
  constructor; [simpl; lia|]. apply IH.
  destruct rest as [|c' rest']; [exact I|]. inversion Hrest; subst. lia.
Qed.

Lemma ChunkedArray_Slice_nonneg (c c' : ChunkedArray) (offset length : Z) :
  nonneg_chunks c -> 0 <= offset ->
  ChunkedArray_Slice c offset length = Some c' -> nonneg_chunks c'.
Proof.
  intros Hnn Ho. unfold ChunkedArray_Slice.
  destruct (ChunkedArray_length c <? offset); [discriminate|].
  destruct (Slice_skip c offset) as [rest off] eqn:Hskip.
  destruct (Slice_skip_spec c Hnn offset rest off Ho Hskip)
    as (Hrest & Hoff & _ & Hhd & Hsub).
  assert (Htake : nonneg_chunks (Slice_take rest off length)).
  { apply Slice_take_nonneg; [exact Hrest|]. destruct rest; [exact I | lia]. }
  destruct c as [|first more]; [intros [= <-]; exact Htake|].
  destruct ((offset =? ChunkedArray_length (first :: more)) || (length =? 0));
    [|intros [= <-]; exact Htake].
  intros [= <-].
  assert (Hin : List.hd (List.last (first :: more) first) rest ∈ first :: more).
  { destruct rest as [|a rest']; simpl List.hd.
    - apply last_elem_of.
    - apply Hsub, list_elem_of_here. }
  unfold nonneg_chunks in *. rewrite Forall_forall in Hnn.
  repeat constructor. simpl. specialize (Hnn _ Hin). simpl in Hnn. lia.
Qed.

Lemma Slice_columns_well_formed (cols : list ChunkedArray) (rows offset length : Z) :
  Forall (fun c => nonneg_chunks c /\ ChunkedArray_length c = rows) cols ->
  0 <= offset -> 0 <= length -> offset + length <= rows ->
  forall cols' n,
    Slice_columns cols offset length length = Some (cols', n) ->
    Forall (fun c => nonneg_chunks c /\ ChunkedArray_length c = length) cols'.
Proof.
  intros Hwf Ho Hl Hsum.
  induction Hwf as [|c rest [Hnn Hrows] Hrest IH]; intros cols' n; simpl.
  - intros [= <- <-]. constructor.
  - destruct (ChunkedArray_Slice_in_range c offset length Hnn Ho Hl ltac:(lia))
      as (c' & Hc' & Hlen & _).
    rewrite Hc', Hlen.
    destruct (Slice_columns rest offset length length) as [[rest' n']|] eqn:Hrest';
      [|discriminate].
    intros [= <- <-]. constructor.
    + split; [apply (ChunkedArray_Slice_nonneg c c' offset length Hnn Ho Hc') | exact Hlen].
    + apply (IH rest' n' eq_refl).
Qed.

(** An in-range slice of a live well-formed table, in full. *)
Lemma table_slice_run (w : World) (l : loc) (t : Table) (offset length : Z) :
  tables w !! l = Some t -> well_formed t ->
  0 <= offset -> 0 <= length -> offset + length <= num_rows t ->
  exists slice,
    table_slice (Ptr l) offset length w
    = (Ok (Ptr (fresh (dom (tables w)))),
       set_tables (insert (fresh (dom (tables w))) slice) w) /\
    well_formed slice /\ num_rows slice = length /\
    table_buffers slice ⊆ table_buffers t /\
    schema slice = schema t /\
    views_rows slice t offset length.
Proof.
  intros Ht Hwf Ho Hl Hsum.
  destruct (Slice_columns_in_range (columns t) (num_rows t) offset length
              Hwf Ho Hl Hsum) as (cols' & Hcols & Hsub & Hcells).
  exists {| schema := schema t; columns := cols'; num_rows := length |}.
  split; [|split; [|split; [|split; [|split; [reflexivity | exact Hcells]]]]].
  - unfold table_slice, bind.
    destruct (Z.ltb_spec offset 0); [lia|]. destruct (Z.ltb_spec length 0); [lia|].
    simpl. rewrite Ht. unfold Table_Slice. rewrite Hcols. reflexivity.
  - unfold well_formed. simpl.
    apply (Slice_columns_well_formed (columns t) (num_rows t) offset length
             Hwf Ho Hl Hsum cols' length Hcols).
  - reflexivity.
  - exact Hsub.
Qed.

Lemma take_drop_nested {A : Type} (l : list A) (o1 n1 o2 n2 : nat) :
  (o2 + n2 <= n1)%nat ->
  take n2 (drop o2 (take n1 (drop o1 l))) = take n2 (drop (o1 + o2) l).
Proof.
  intros Hfit. replace n1 with (o2 + (n1 - o2))%nat at 1 by lia.
  rewrite <- take_drop_commute, take_take, drop_drop.
  f_equal. lia.
Qed.

(** A view of rows of a view is a view of rows of the source. *)
Lemma views_rows_nest (s2 s1 t : Table) (offset1 length1 offset2 length2 : Z) :
  0 <= offset1 -> 0 <= offset2 -> 0 <= length2 -> offset2 + length2 <= length1 ->
  views_rows s1 t offset1 length1 -> views_rows s2 s1 offset2 length2 ->
  views_rows s2 t (offset1 + offset2) length2.
Proof.
  unfold views_rows. intros Ho1 Ho2 Hl2 Hfit H1 H2.
  eapply Forall2_trans; [|exact H2|exact H1].
  intros c2 c1 c Hc2 Hc1. simpl in *. rewrite Hc2, Hc1.
  rewrite take_drop_nested by lia. f_equal. f_equal. lia.
Qed.

(** X15. A slice is a well-formed table in its own right, and slices nest:
    slicing an in-range slice of a live well-formed table again, within the
    rows of the first slice, gives a third handle, distinct from the other
    two, on a table of the rows asked for. The second slice has the schema and
    the columns of the first table, and each of its columns is a view of the
    rows [offset1 + offset2 .. offset1 + offset2 + length2 - 1] of the same
    column of the first table: its cells are the cells of the first table's
    buffers that hold these rows. The first table and the first slice stay
    live and unchanged. *)
Theorem table_slice_of_slice (w : World) (l : loc) (t : Table)
    (offset1 length1 offset2 length2 : Z) :
  tables w !! l = Some t -> well_formed t ->
  0 <= offset1 -> 0 <= length1 -> offset1 + length1 <= num_rows t ->
  0 <= offset2 -> 0 <= length2 -> offset2 + length2 <= length1 ->
  exists l1 s1 w1 l2 s2 w2,
    table_slice (Ptr l) offset1 length1 w = (Ok (Ptr l1), w1) /\
    table_slice (Ptr l1) offset2 length2 w1 = (Ok (Ptr l2), w2) /\
    l1 <> l /\ l2 <> l /\ l2 <> l1 /\
    tables w2 !! l = Some t /\ tables w2 !! l1 = Some s1 /\ tables w2 !! l2 = Some s2 /\
    well_formed s1 /\ num_rows s1 = length1 /\
    well_formed s2 /\ num_rows s2 = length2 /\
    table_buffers s2 ⊆ table_buffers t /\
    schema s2 = schema t /\
    views_rows s1 t offset1 length1 /\
    views_rows s2 s1 offset2 length2 /\
    views_rows s2 t (offset1 + offset2) length2.
Proof.
  intros Ht Hwf Ho1 Hl1 Hsum1 Ho2 Hl2 Hsum2.
  destruct (table_slice_run w l t offset1 length1 Ht Hwf Ho1 Hl1 Hsum1)
    as (s1 & Hrun1 & Hwf1 & Hrows1 & Hsub1 & Hschema1 & Hview1).
  set (l1 := fresh (dom (tables w))) in *.
  set (w1 := set_tables (insert l1 s1) w) in *.
  assert (Hfresh1 : tables w !! l1 = None) by apply not_elem_of_dom, is_fresh.
  assert (Hl1' : tables w1 !! l1 = Some s1) by (simpl; apply lookup_insert_eq).
  destruct (table_slice_run w1 l1 s1 offset2 length2 Hl1' Hwf1 Ho2 Hl2 ltac:(lia))
    as (s2 & Hrun2 & Hwf2 & Hrows2 & Hsub2 & Hschema2 & Hview2).
  set (l2 := fresh (dom (tables w1))) in *.
  assert (Hfresh2 : tables w1 !! l2 = None) by apply not_elem_of_dom, is_fresh.
  assert (Hne1 : l1 <> l) by (intros ->; congruence).
  assert (Hne21 : l2 <> l1) by (intros Heq; rewrite Heq in Hfresh2; congruence).
  assert (Hne2 : l2 <> l).
  { intros Heq. rewrite Heq in Hfresh2. simpl in Hfresh2.
    rewrite lookup_insert_ne in Hfresh2 by exact Hne1. congruence. }
  exists l1, s1, w1, l2, s2, (set_tables (insert l2 s2) w1).
  repeat split; try assumption.
  - simpl. rewrite lookup_insert_ne by exact Hne2.
    rewrite lookup_insert_ne by exact Hne1. exact Ht.
  - simpl. rewrite lookup_insert_ne by exact Hne21. apply lookup_insert_eq.
  - simpl. apply lookup_insert_eq.
  - etransitivity; eassumption.
  - congruence.
  - apply (views_rows_nest s2 s1 t offset1 length1 offset2 length2); assumption.
Qed.

Lemma table_slice_of_slice_witness :
  exists l1 s1 w1 l2 s2 w2,
    table_slice (Ptr 5%positive) 1 5 sample_world = (Ok (Ptr l1), w1) /\
    table_slice (Ptr l1) 2 3 w1 = (Ok (Ptr l2), w2) /\
    l1 <> 5%positive /\ l2 <> 5%positive /\ l2 <> l1 /\
    tables w2 !! 5%positive = Some sample_table /\
    tables w2 !! l1 = Some s1 /\ tables w2 !! l2 = Some s2 /\
    well_formed s1 /\ num_rows s1 = 5 /\
    well_formed s2 /\ num_rows s2 = 3 /\
    table_buffers s2 ⊆ table_buffers sample_table /\
    schema s2 = schema sample_table /\
    views_rows s1 sample_table 1 5 /\
    views_rows s2 s1 2 3 /\
    views_rows s2 sample_table (1 + 2) 3.
Proof.
  apply (table_slice_of_slice sample_world 5%positive sample_table 1 5 2 3);
    try reflexivity; try (simpl; lia).
  repeat constructor; simpl; lia.
Defined.

(** X16. A slice outlives its source: after [table_slice] and then
    [free_table] on the source handle, the source cell is gone while the slice
    handle still holds its table, [table_num_rows] on it still gives the
    length asked for, and the slice handle, not the freed one, is among the
    owners of every buffer the slice views. *)
Theorem table_slice_survives_free (w : World) (l : loc) (t : Table)
    (offset length : Z) :
  tables w !! l = Some t -> well_formed t ->
  0 <= offset -> 0 <= length -> offset + length <= num_rows t ->
  exists l1 s1 w1 w2,
    table_slice (Ptr l) offset length w = (Ok (Ptr l1), w1) /\
    free_table (Ptr l) w1 = (Ok tt, w2) /\
    tables w2 !! l = None /\ tables w2 !! l1 = Some s1 /\
    table_num_rows (Ptr l1) w2 = (Ok length, w2) /\
    forall b, b ∈ table_buffers s1 -> l1 ∈ owners w2 b /\ l ∉ owners w2 b.
Proof.
  intros Ht Hwf Ho Hl Hsum.
  destruct (table_slice_run w l t offset length Ht Hwf Ho Hl Hsum)
    as (s1 & Hrun & _ & Hrows & _ & _ & _).
  set (l1 := fresh (dom (tables w))) in *.
  assert (Hfresh : tables w !! l1 = None) by apply not_elem_of_dom, is_fresh.
  assert (Hne : l1 <> l) by (intros ->; congruence).
  set (w1 := set_tables (insert l1 s1) w) in *.
  assert (Hlive : tables w1 !! l = Some t)
    by (simpl; rewrite lookup_insert_ne by exact Hne; exact Ht).
  set (w2 := set_tables (delete l) w1).
  assert (Hl1 : tables w2 !! l1 = Some s1).
  { simpl. rewrite lookup_delete_ne by congruence. apply lookup_insert_eq. }
  exists l1, s1, w1, w2. split; [exact Hrun|]. split.
  { unfold free_table. rewrite (bind_Ok _ _ _ _ _ (deref_table_live w1 l t Hlive)).
    reflexivity. }
  split; [simpl; apply lookup_delete_eq|]. split; [exact Hl1|]. split.
  - unfold table_num_rows. rewrite (bind_Ok _ _ _ _ _ (deref_table_live w2 l1 s1 Hl1)).
    unfold ret. rewrite Hrows. reflexivity.
  - intros b Hb. unfold owners. split.
    + apply elem_of_dom. exists s1. apply map_lookup_filter_Some. split; assumption.
    + intros Hin. apply elem_of_dom in Hin as [t' Ht'].
      apply map_lookup_filter_Some in Ht' as [Ht' _].
      simpl in Ht'. rewrite lookup_delete_eq in Ht'. discriminate.
Qed.

Lemma table_slice_survives_free_witness :
  exists l1 s1 w1 w2,
    table_slice (Ptr 5%positive) 1 5 sample_world = (Ok (Ptr l1), w1) /\
    free_table (Ptr 5%positive) w1 = (Ok tt, w2) /\
    tables w2 !! 5%positive = None /\ tables w2 !! l1 = Some s1 /\
    table_num_rows (Ptr l1) w2 = (Ok 5, w2) /\
    forall b, b ∈ table_buffers s1 -> l1 ∈ owners w2 b /\ 5%positive ∉ owners w2 b.
Proof.
  apply (table_slice_survives_free sample_world 5%positive sample_table 1 5);
    try reflexivity; try (simpl; lia).
  repeat constructor; simpl; lia.
Defined.

(** X22. [free_table] does not null the handle: once a live handle is freed,
    every further use of it, [table_num_rows] included (whose tolerance is
    for the null handle only), and a second [free_table] dereference a cell
    that is gone; the other handles are not affected. *)
Theorem free_table_then_use (w : World) (l : loc) (t : Table) :
  tables w !! l = Some t ->
  exists w',
    free_table (Ptr l) w = (Ok tt, w') /\
    table_num_rows (Ptr l) w' = (Fault, w') /\
    table_schema (Ptr l) w' = (Fault, w') /\
    (forall offset length, 0 <= offset -> 0 <= length ->
       table_slice (Ptr l) offset length w' = (Fault, w')) /\
    free_table (Ptr l) w' = (Fault, w') /\
    (forall l' t', l' <> l -> tables w !! l' = Some t' ->
       table_num_rows (Ptr l') w' = (Ok (num_rows t'), w')).
Proof.
  intros Ht. exists (set_tables (delete l) w).
  assert (Hgone : deref_table (Ptr l) (set_tables (delete l) w)
                  = (Fault, set_tables (delete l) w)).
  { unfold deref_table. simpl. rewrite lookup_delete_eq. reflexivity. }
  split.
  { unfold free_table. rewrite (bind_Ok _ _ _ _ _ (deref_table_live w l t Ht)).
    reflexivity. }
  split; [unfold table_num_rows, bind; rewrite Hgone; reflexivity|].
  split; [unfold table_schema, bind; rewrite Hgone; reflexivity|].
  split; [|split].
  - intros offset length Ho Hl. unfold table_slice, bind.
    destruct (Z.ltb_spec offset 0); [lia|]. destruct (Z.ltb_spec length 0); [lia|].
    simpl. rewrite lookup_delete_eq. reflexivity.
  - unfold free_table, bind. rewrite Hgone. reflexivity.
  - intros l' t' Hne Hl'. unfold table_num_rows.
    erewrite bind_Ok; [reflexivity|]. apply deref_table_live. simpl.
    rewrite lookup_delete_ne by congruence. exact Hl'.
Qed.

Lemma free_table_then_use_witness :
  exists w',
    free_table (Ptr 5%positive) sample_world = (Ok tt, w') /\
    table_num_rows (Ptr 5%positive) w' = (Fault, w') /\
    free_table (Ptr 5%positive) w' = (Fault, w').
Proof.
  destruct (free_table_then_use sample_world 5%positive sample_table eq_refl)
    as (w' & Hfree & Hrows & _ & _ & Hagain & _).
  exists w'. repeat split; assumption.
Defined.

(** ** Concatenation *)

Lemma deref_tables_live (w : World) (handles : list loc) (ts : list Table) :
  Forall2 (fun l t => tables w !! l = Some t) handles ts ->
  deref_tables (Ptr <$> handles) w = (Ok ts, w).
Proof.
  induction 1 as [|l t handles ts Hl _ IH]; [reflexivity|].
  rewrite fmap_cons. cbn [deref_tables].
  rewrite (bind_Ok _ _ _ _ _ (deref_table_live w l t Hl)).
  rewrite (bind_Ok _ _ _ _ _ IH). reflexivity.
Qed.

Lemma ChunkedArray_length_app (c1 c2 : ChunkedArray) :
  ChunkedArray_length (c1 ++ c2) = ChunkedArray_length c1 + ChunkedArray_length c2.
Proof.
  unfold ChunkedArray_length. induction c1 as [|a c1 IH]; simpl; [reflexivity|].
  rewrite IH. lia.
Qed.

(** Column [i] of the concatenation: the chunks of the inputs' columns [i],
    in order, with all their rows. *)
Lemma concat_column_spec (ts : list Table) (i : nat) (cs : list ChunkedArray) :
  Forall2 (fun t c => columns t !! i = Some c) ts cs ->
  concat_column ts i = concat cs.
Proof.
  unfold concat_column. induction 1 as [|t c ts cs Hc _ IH]; [reflexivity|].
  cbn [filter_map]. unfold ChunkedArray in *. rewrite Hc. cbn [concat]. f_equal. exact IH.
Qed.

Lemma concat_column_well_formed (s : Schema) (ts : list Table) (i : nat) :
  Forall (fun t => schema t = s /\ well_formed t /\ columns_match_schema t) ts ->
  (i < length s)%nat ->
  nonneg_chunks (concat_column ts i) /\
  ChunkedArray_length (concat_column ts i) = foldr (fun t n => num_rows t + n) 0 ts.
Proof.
  intros Hts Hi. unfold concat_column.
  induction Hts as [|t ts (Hs & Hwf & Hmatch) _ [IHnn IHlen]];
    [split; [constructor | reflexivity]|]. cbn [filter_map foldr].
  assert (Hlt : (i < length (columns t))%nat).
  { unfold columns_match_schema in Hmatch. rewrite Hmatch, Hs. exact Hi. }
  destruct (lookup_lt_is_Some_2 _ _ Hlt) as [c Hc].
  unfold ChunkedArray in *. rewrite Hc. cbn [concat].
  unfold well_formed in Hwf. rewrite Forall_forall in Hwf.
  destruct (Hwf c) as [Hnn Hrows]; [apply list_elem_of_lookup; eauto|].
  split.
  - unfold nonneg_chunks in *. apply Forall_app. split; assumption.
  - rewrite ChunkedArray_length_app, IHlen, Hrows. reflexivity.
Qed.

(** X17. [table_concatenate] on live handles of well-formed tables that all
    have the same schema, of at least one column, returns a fresh handle on a
    well-formed table of that schema whose row count is the sum of the row
    counts of the inputs and whose every column is made of the chunks of that
    column in each input, in the order of the handles; nothing is copied and
    the inputs stay as they are. *)
Theorem table_concatenate_in_order (w : World) (handles : list loc) (ts : list Table)
    (s : Schema) :
  Forall2 (fun l t => tables w !! l = Some t) handles ts ->
  ts <> [] -> s <> [] ->
  Forall (fun t => schema t = s /\ well_formed t /\ columns_match_schema t) ts ->
  exists l t,
    table_concatenate (Ptr <$> handles) w = (Ok (Ptr l), set_tables (insert l t) w) /\
    tables w !! l = None /\
    schema t = s /\ well_formed t /\ columns_match_schema t /\
    num_rows t = foldr (fun t' n => num_rows t' + n) 0 ts /\
    forall i cs, (i < length s)%nat ->
      Forall2 (fun t' c => columns t' !! i = Some c) ts cs ->
      columns t !! i = Some (concat cs).
Proof.
  intros Hlive Hne Hs Hts.
  destruct ts as [|first ts']; [contradiction|].
  assert (Hfirst : schema first = s) by (inversion Hts as [|? ? (H & _) _]; exact H).
  assert (Hcheck : forallb (fun t => bool_decide (schema t = schema first))
                           (first :: ts') = true).
  { apply forallb_forall. intros t Ht. apply bool_decide_eq_true.
    rewrite Forall_forall in Hts. rewrite Hfirst.
    apply (Hts t). apply list_elem_of_In, Ht. }
  set (cols := concat_column (first :: ts') <$> seq 0 (length s)).
  assert (Hcols : Forall (fun c => nonneg_chunks c /\
                                   ChunkedArray_length c
                                   = foldr (fun t' n => num_rows t' + n) 0 (first :: ts'))
                         cols).
  { unfold cols. apply Forall_fmap, Forall_forall. intros i Hi.
    apply elem_of_seq in Hi. apply (concat_column_well_formed s); [exact Hts | lia]. }
  assert (Hrows : match cols with [] => 0 | c :: _ => ChunkedArray_length c end
                  = foldr (fun t' n => num_rows t' + n) 0 (first :: ts')).
  { destruct s as [|fld s']; [contradiction|]. unfold cols in *. simpl in *.
    inversion Hcols as [|? ? [_ Hlen] _]. exact Hlen. }
  exists (fresh (dom (tables w))), (Table_Make s cols).
  split.
  { unfold table_concatenate, OCAML_PROTECT_EXN.
    rewrite (bind_Ok _ _ _ _ _ (deref_tables_live w handles _ Hlive)).
    unfold ConcatenateTables. rewrite Hcheck, Hfirst. reflexivity. }
  split; [apply not_elem_of_dom, is_fresh|]. split; [reflexivity|].
  split; [unfold well_formed; simpl; rewrite Hrows; exact Hcols|].
  split; [unfold columns_match_schema, cols; simpl;
          rewrite length_fmap, length_seq; reflexivity|].
  split; [exact Hrows|].
  intros i cs Hi Hcs. simpl. unfold cols. rewrite list_lookup_fmap.
  rewrite (lookup_seq_lt 0 (length s) i Hi). simpl.
  rewrite (concat_column_spec _ i cs Hcs). reflexivity.
Qed.

Lemma table_concatenate_in_order_witness :
  exists l t,
    table_concatenate [Ptr 5%positive; Ptr 5%positive] sample_world
    = (Ok (Ptr l), set_tables (insert l t) sample_world) /\
    tables sample_world !! l = None /\
    schema t = sample_schema /\ well_formed t /\ columns_match_schema t /\
    num_rows t = 14 /\
    forall i cs, (i < 2)%nat ->
      Forall2 (fun t' c => columns t' !! i = Some c) [sample_table; sample_table] cs ->
      columns t !! i = Some (concat cs).
Proof.
  apply (table_concatenate_in_order sample_world [5%positive; 5%positive]
           [sample_table; sample_table] sample_schema); try discriminate.
  - repeat constructor.
  - repeat constructor; simpl; lia.
Defined.

Lemma deref_tables_dead (w : World) (before : list loc) (ts : list Table)
    (p : ptr) (after : list ptr) :
  Forall2 (fun l t => tables w !! l = Some t) before ts ->
  deref_table p w = (Fault, w) ->
  deref_tables ((Ptr <$> before) ++ p :: after) w = (Fault, w).
Proof.
  intros Hlive Hp. induction Hlive as [|l t before ts Hl _ IH].
  - simpl. unfold bind. rewrite Hp. reflexivity.
  - rewrite fmap_cons. cbn [app deref_tables].
    rewrite (bind_Ok _ _ _ _ _ (deref_table_live w l t Hl)).
    unfold bind at 1. rewrite IH. reflexivity.
Qed.

(** X18. [table_concatenate] makes no handle when it cannot concatenate: on
    no table at all the library refuses and the call fails, on live handles
    of tables of which one has another schema than the first it fails too,
    both times leaving the state as it was; and the first null or freed
    handle among the arguments is dereferenced unchecked. *)
Theorem table_concatenate_refusals (w : World) :
  table_concatenate [] w = (Raise (Failure no_table), w) /\
  (forall handles ts first other,
     Forall2 (fun l t => tables w !! l = Some t) handles ts ->
     ts !! 0%nat = Some first -> other ∈ ts -> schema other <> schema first ->
     table_concatenate (Ptr <$> handles) w = (Raise (Failure schema_mismatch), w)) /\
  (forall before ts p after,
     Forall2 (fun l t => tables w !! l = Some t) before ts ->
     p = NULL \/ (exists l, p = Ptr l /\ tables w !! l = None) ->
     table_concatenate ((Ptr <$> before) ++ p :: after) w = (Fault, w)).
Proof.
  split; [reflexivity|]. split.
  - intros handles ts first other Hlive Hfirst Hin Hne.
    unfold table_concatenate, OCAML_PROTECT_EXN.
    rewrite (bind_Ok _ _ _ _ _ (deref_tables_live w handles _ Hlive)).
    destruct ts as [|t0 ts']; [discriminate|]. injection Hfirst as ->.
    unfold ConcatenateTables.
    destruct (forallb (fun t => bool_decide (schema t = schema first)) (first :: ts'))
      eqn:Hcheck; [|reflexivity].
    rewrite forallb_forall in Hcheck.
    specialize (Hcheck other ltac:(apply list_elem_of_In; exact Hin)).
    apply bool_decide_eq_true in Hcheck. contradiction.
  - intros before ts p after Hlive Hp.
    unfold table_concatenate, OCAML_PROTECT_EXN, bind.
    rewrite (deref_tables_dead w before ts p after Hlive); [reflexivity|].
    destruct Hp as [->|(l & -> & Hl)]; [reflexivity|].
    unfold deref_table. rewrite Hl. reflexivity.
Qed.

Lemma table_concatenate_refusals_witness :
  table_concatenate [Ptr 5%positive; Ptr 6%positive]
    (set_tables (insert 6%positive
                   {| schema := []; columns := []; num_rows := 0 |}) sample_world)
  = (Raise (Failure "Invalid: Schema at index was different"),
     set_tables (insert 6%positive
                   {| schema := []; columns := []; num_rows := 0 |}) sample_world) /\
  table_concatenate [Ptr 5%positive; Ptr 9%positive] sample_world
  = (Fault, sample_world).
Proof.
  split.
  - apply (proj1 (proj2 (table_concatenate_refusals _))
             [5%positive; 6%positive]
             [sample_table; {| schema := []; columns := []; num_rows := 0 |}]
             sample_table {| schema := []; columns := []; num_rows := 0 |}).
    + repeat constructor.
    + reflexivity.
    + apply list_elem_of_further, list_elem_of_here.
    + discriminate.
  - apply (proj2 (proj2 (table_concatenate_refusals sample_world))
             [5%positive] [sample_table] (Ptr 9%positive) []).
    + repeat constructor.
    + right. exists 9%positive. split; reflexivity.
Defined.

(** ** The other readers and writers *)

Lemma FileOutputStream_Open_ok (w : World) (filename : string) :
  files w !! filename <> Some Directory ->
  FileOutputStream_Open_ filename w
  = (Ok (Value filename),
     log (FileOutputStream_Open filename) (set_files (insert filename Empty) w)).
Proof.
  intros Hdir. unfold FileOutputStream_Open_.
  destruct (files w !! filename) as [[]|]; try reflexivity. contradiction.
Qed.

Lemma ReadableFile_Open_ok (w : World) (filename : string) (content : File) :
  files w !! filename = Some content -> content <> Directory ->
  ReadableFile_Open_ filename w
  = (Ok (Value content), log (ReadableFile_Open filename) w).
Proof.
  intros Hfile Hdir. unfold ReadableFile_Open_. rewrite Hfile.
  destruct content; try reflexivity. contradiction.
Qed.

(** X23. A CSV file that cannot be read kills the process, a JSON file that
    cannot be read fails the call. [csv_read_table] takes the table out of the
    result of [Read()] with [ValueOrDie], not with [ok_exn]: when the file
    opens and the reader is made but the read is refused, the library aborts
    and no failure is raised, whatever the status says. [json_read_table]
    checks the status of [Read(&table)]: in the same situation it raises the
    failure with the status text, cut to 254 bytes. Neither makes a handle,
    and both have only opened the file. When the read succeeds both return a
    fresh handle on the table read. *)
Theorem csv_read_table_dies_on_read_error (lib : Library) (w : World)
    (filename : string) (content : File) :
  files w !! filename = Some content -> content <> Directory ->
  let w1 := log (ReadableFile_Open filename) w in
  (forall r status,
     csv_TableReader_Make lib content = Value r ->
     csv_TableReader_Read r = Err status ->
     csv_read_table lib filename w = (Fault, w1)) /\
  (forall r status t,
     json_TableReader_Make lib content = (None, r) ->
     json_TableReader_Read r = (Some status, t) ->
     json_read_table lib filename w = (Raise (Failure (snprintf_s 255 status)), w1)) /\
  (forall r t,
     csv_TableReader_Make lib content = Value r ->
     csv_TableReader_Read r = Value t ->
     csv_read_table lib filename w
     = (Ok (Ptr (fresh (dom (tables w)))),
        set_tables (insert (fresh (dom (tables w))) t) w1)) /\
  (forall r t,
     json_TableReader_Make lib content = (None, r) ->
     json_TableReader_Read r = (None, t) ->
     json_read_table lib filename w
     = (Ok (Ptr (fresh (dom (tables w)))),
        set_tables (insert (fresh (dom (tables w))) t) w1)).
Proof.
  intros Hfile Hdir w1.
  pose proof (ReadableFile_Open_ok w filename content Hfile Hdir) as Hopen.
  repeat split.
  - intros r status Hmake Hread. unfold csv_read_table, OCAML_PROTECT_EXN.
    rewrite (bind_Ok _ _ _ _ _ Hopen).
    rewrite (bind_Ok (ok_exn (Value content)) _ _ _ content eq_refl).
    rewrite Hmake. rewrite (bind_Ok (ok_exn (Value r)) _ _ _ r eq_refl).
    rewrite Hread. reflexivity.
  - intros r status t Hmake Hread. unfold json_read_table, OCAML_PROTECT_EXN.
    rewrite (bind_Ok _ _ _ _ _ Hopen).
    rewrite (bind_Ok (ok_exn (Value content)) _ _ _ content eq_refl).
    rewrite Hmake. rewrite (bind_Ok (status_exn None) _ _ _ tt eq_refl).
    rewrite Hread. reflexivity.
  - intros r t Hmake Hread. unfold csv_read_table, OCAML_PROTECT_EXN.
    rewrite (bind_Ok _ _ _ _ _ Hopen).
    rewrite (bind_Ok (ok_exn (Value content)) _ _ _ content eq_refl).
    rewrite Hmake. rewrite (bind_Ok (ok_exn (Value r)) _ _ _ r eq_refl).
    rewrite Hread. reflexivity.
  - intros r t Hmake Hread. unfold json_read_table, OCAML_PROTECT_EXN.
    rewrite (bind_Ok _ _ _ _ _ Hopen).
    rewrite (bind_Ok (ok_exn (Value content)) _ _ _ content eq_refl).
    rewrite Hmake. rewrite (bind_Ok (status_exn None) _ _ _ tt eq_refl).
    rewrite Hread. reflexivity.
Qed.

Lemma csv_read_table_dies_on_read_error_witness :
  csv_read_table sample_library "data.parquet" sample_world
  = (Fault, log (ReadableFile_Open "data.parquet") sample_world) /\
  json_read_table sample_library "data.parquet" sample_world
  = (Raise (Failure "Invalid: JSON parse error"),
     log (ReadableFile_Open "data.parquet") sample_world).
Proof.
  destruct (csv_read_table_dies_on_read_error sample_library sample_world
              "data.parquet" (Parquet sample_file) eq_refl ltac:(discriminate))
    as (Hcsv & Hjson & _).
  split.
  - apply (Hcsv {| csv_TableReader_Read := Err "Invalid: CSV parse error" |}
             "Invalid: CSV parse error"); reflexivity.
  - apply (Hjson {| json_TableReader_Read :=
                      (Some "Invalid: JSON parse error",
                       {| schema := []; columns := []; num_rows := 0 |}) |}
             "Invalid: JSON parse error"
             {| schema := []; columns := []; num_rows := 0 |}); reflexivity.
Defined.

(** X24. The writers that take an array open their file first: when the path
    can be opened and the library then refuses to import the array, each of
    [parquet_write_file], [arrow_write_file] and [feather_write_file] fails
    with the status of the import, cut to 254 bytes, and leaves the file
    truncated, whatever it held before: the only operation of the library on
    files has been the opening of the stream, and no other file and no handle
    has changed. (What the refused import does to the caller's structs is not
    followed.) *)
Theorem array_writers_truncate_on_failed_import (lib : Library) (w : World)
    (filename : string) (array : ArrowArray) (sch : ArrowSchema)
    (chunk_size compression : Z) (status : string) (call : M unit) :
  files w !! filename <> Some Directory ->
  ImportRecordBatch array sch = Err status ->
  call = parquet_write_file lib filename array sch chunk_size compression \/
  call = arrow_write_file filename array sch chunk_size \/
  call = feather_write_file filename array sch chunk_size compression ->
  (call w).1 = Raise (Failure (snprintf_s 255 status)) /\
  files (call w).2 = <[filename := Empty]> (files w) /\
  calls (call w).2 = calls w ++ [FileOutputStream_Open filename] /\
  same_handles w (call w).2.
Proof.
  intros Hdir Himport Hcall.
  pose proof (FileOutputStream_Open_ok w filename Hdir) as Hopen.
  assert (Hrun : call w
                 = (Raise (Failure (snprintf_s 255 status)),
                    log (FileOutputStream_Open filename)
                      (set_files (insert filename Empty) w))).
  { destruct Hcall as [-> | [-> | ->]].
    - unfold parquet_write_file, OCAML_PROTECT_EXN.
      rewrite (bind_Ok _ _ _ _ _ Hopen).
      rewrite (bind_Ok (ok_exn (Value filename)) _ _ _ filename eq_refl).
      rewrite Himport. reflexivity.
    - unfold arrow_write_file, OCAML_PROTECT_EXN.
      rewrite (bind_Ok _ _ _ _ _ Hopen).
      rewrite (bind_Ok (ok_exn (Value filename)) _ _ _ filename eq_refl).
      rewrite Himport. reflexivity.
    - unfold feather_write_file, OCAML_PROTECT_EXN.
      rewrite (bind_Ok _ _ _ _ _ Hopen).
      rewrite (bind_Ok (ok_exn (Value filename)) _ _ _ filename eq_refl).
      rewrite Himport. reflexivity. }
  rewrite Hrun. repeat split.
Qed.

Lemma array_writers_truncate_on_failed_import_witness :
  let released := {| as_children := sample_schema; as_release := false |} in
  let call := parquet_write_file sample_library "data.parquet" sample_ArrowArray
                released 1024 1 in
  files sample_world !! "data.parquet" = Some (Parquet sample_file) /\
  (call sample_world).1 = Raise (Failure "Invalid: Cannot import released ArrowSchema") /\
  files (call sample_world).2 !! "data.parquet" = Some Empty.
Proof.
  intros released call. split; [reflexivity|].
  destruct (array_writers_truncate_on_failed_import sample_library sample_world
              "data.parquet" sample_ArrowArray released 1024 1
              "Invalid: Cannot import released ArrowSchema" call)
    as (Hfail & Hfiles & _).
  - vm_compute. discriminate.
  - reflexivity.
  - left. reflexivity.
  - split; [exact Hfail|]. rewrite Hfiles. apply lookup_insert_eq.
Defined.

(** ** The failure channel *)

Lemma never_throws_protect {A : Type} (body : M A) :
  never_throws (OCAML_PROTECT_EXN body).
Proof.
  intros w what w'. unfold OCAML_PROTECT_EXN.
  destruct (body w) as [[a|what0|e|] w0]; discriminate.
Qed.

Lemma never_throws_bind {A B : Type} (m : M A) (k : A -> M B) :
  never_throws m -> (forall a, never_throws (k a)) -> never_throws (bind m k).
Proof.
  intros Hm Hk w what w'. unfold bind.
  destruct (m w) as [[a|what0|e|] w0] eqn:Hrun; try discriminate.
  - apply Hk.
  - elim (Hm w what0 w0 Hrun).
Qed.

Lemma never_throws_ret {A : Type} (a : A) : never_throws (ret a).
Proof. discriminate. Qed.

Lemma never_throws_fault {A : Type} : never_throws (@fault A).
Proof. discriminate. Qed.

Lemma never_throws_caml_failwith {A : Type} (msg : string) :
  never_throws (@caml_failwith A msg).
Proof. discriminate. Qed.

Lemma never_throws_caml_invalid_argument {A : Type} (msg : string) :
  never_throws (@caml_invalid_argument A msg).
Proof. discriminate. Qed.

Lemma never_throws_modify (f : World -> World) : never_throws (modify f).
Proof. discriminate. Qed.

Lemma never_throws_new_table (t : Table) : never_throws (new_table t).
Proof. discriminate. Qed.

Lemma never_throws_deref_table (p : ptr) : never_throws (deref_table p).
Proof.
  intros w what w'. unfold deref_table.
  destruct p as [|l]; [discriminate|]. destruct (tables w !! l); discriminate.
Qed.

Lemma never_throws_deref_reader (p : ptr) : never_throws (deref_reader p).
Proof.
  intros w what w'. unfold deref_reader.
  destruct p as [|l]; [discriminate|]. destruct (readers w !! l); discriminate.
Qed.

Lemma never_throws_update_reader (p : ptr) (f : ParquetReader -> ParquetReader) :
  never_throws (update_reader p f).
Proof.
  apply never_throws_bind; [apply never_throws_deref_reader|].
  intros r w what w'. destruct p; discriminate.
Qed.

Lemma never_throws_release_chunks (arrays : list ArrowArray) (n : nat) :
  never_throws (release_chunks arrays n).
Proof.
  revert arrays. induction n as [|n IH]; intros arrays; [discriminate|].
  destruct arrays as [|a rest]; [discriminate|]. cbn [release_chunks].
  apply never_throws_bind; [apply IH|]. discriminate.
Qed.

Lemma never_throws_check_column_idx (column_idx n_cols : Z) :
  never_throws (check_column_idx column_idx n_cols).
Proof.
  intros w what w'. unfold check_column_idx.
  destruct ((column_idx <? 0) || (n_cols <=? column_idx)); discriminate.
Qed.

Create HintDb no_throw.

#[local] Hint Resolve never_throws_protect never_throws_ret never_throws_fault
  never_throws_caml_failwith never_throws_caml_invalid_argument
  never_throws_modify never_throws_new_table never_throws_deref_table
  never_throws_deref_reader never_throws_update_reader
  never_throws_release_chunks never_throws_check_column_idx : no_throw.

Ltac no_throw :=
  repeat first
    [ solve [auto with no_throw]
    | apply never_throws_bind; [|intros ?]
    | match goal with
      | |- never_throws (match ?x with _ => _ end) => destruct x
      end ].

(** X20. No function of the bridge that the host can call ends with a C++
    exception in flight, whatever the library does: those wrapped in the
    protection macro turn the exception into a failure of the host runtime,
    whatever their body, and the others ([free_schema], [check_column_idx],
    [table_chunked_column] before it calls the wrapped function,
    [free_chunked_column], [parquet_reader_next] before its wrapped part,
    [parquet_reader_close], [parquet_reader_free], [table_slice],
    [table_num_rows], [table_schema], [free_table]) call nothing that
    throws. *)
Theorem bridge_never_throws (lib : Library) :
  every_entry_point lib (@never_throws).
Proof.
  unfold every_entry_point.
  repeat match goal with |- _ /\ _ => split end; intros;
    unfold arrow_schema, feather_schema, parquet_schema, free_schema,
      table_chunked_column, table_chunked_column_by_name, table_chunked_column_,
      free_chunked_column, create_table, parquet_write_file, arrow_write_file,
      feather_write_file, parquet_write_table, feather_write_table,
      parquet_reader_open, parquet_reader_next, parquet_reader_close,
      parquet_reader_free, parquet_read_table, feather_read_table,
      csv_read_table, json_read_table, table_concatenate, table_slice,
      table_num_rows, table_schema, free_table;
    no_throw.
Qed.

Lemma bridge_never_throws_witness :
  parquet_read_table "missing.parquet" [] (-1) 3 sample_world
  <> (Throw "IOError: Failed to open local file 'missing.parquet'",
      log (ReadableFile_Open "missing.parquet") sample_world) /\
  csv_read_table sample_library "data.parquet" sample_world
  <> (Throw "Invalid: CSV parse error", log (ReadableFile_Open "data.parquet") sample_world) /\
  table_slice NULL 0 1 sample_world <> (Throw "null", sample_world).
Proof.
  destruct (bridge_never_throws sample_library)
    as (_ & _ & _ & _ & _ & _ & _ & _ & _ & _ & _ & _ & _ & _ & _ & _ & _ & _ & _
        & Hread & _ & Hcsv & _ & _ & Hslice & _).
  split; [apply Hread|]. split; [apply Hcsv | apply Hslice].
Defined.

Lemma substring_length_le (s : string) (n : nat) :
  (String.length (String.substring 0 n s) <= n)%nat.
Proof.
  revert n. induction s as [|c s IH]; intros [|n]; simpl; try lia.
  specialize (IH n). lia.
Qed.

Lemma never_raises_bind {A B : Type} (m : M A) (k : A -> M B) :
  never_raises m -> (forall a, never_raises (k a)) -> never_raises (bind m k).
Proof.
  intros Hm Hk w e w'. unfold bind.
  destruct (m w) as [[a|what|e0|] w0] eqn:Hrun; try discriminate.
  - apply Hk.
  - elim (Hm w e0 w0 Hrun).
Qed.

Lemma never_raises_ret {A : Type} (a : A) : never_raises (ret a).
Proof. discriminate. Qed.

Lemma never_raises_throw {A : Type} (what : string) : never_raises (@throw A what).
Proof. discriminate. Qed.

Lemma never_raises_fault {A : Type} : never_raises (@fault A).
Proof. discriminate. Qed.

Lemma never_raises_modify (f : World -> World) : never_raises (modify f).
Proof. discriminate. Qed.

Lemma never_raises_ok_exn {A : Type} (r : Result A) : never_raises (ok_exn r).
Proof. destruct r; discriminate. Qed.

Lemma never_raises_status_exn (st : Status) : never_raises (status_exn st).
Proof. destruct st; discriminate. Qed.

Lemma never_raises_ValueOrDie {A : Type} (r : Result A) : never_raises (ValueOrDie r).
Proof. destruct r; discriminate. Qed.

Lemma never_raises_deref_table (p : ptr) : never_raises (deref_table p).
Proof.
  intros w e w'. unfold deref_table.
  destruct p as [|l]; [discriminate|]. destruct (tables w !! l); discriminate.
Qed.

Lemma never_raises_deref_reader (p : ptr) : never_raises (deref_reader p).
Proof.
  intros w e w'. unfold deref_reader.
  destruct p as [|l]; [discriminate|]. destruct (readers w !! l); discriminate.
Qed.

Lemma never_raises_update_reader (p : ptr) (f : ParquetReader -> ParquetReader) :
  never_raises (update_reader p f).
Proof.
  apply never_raises_bind; [apply never_raises_deref_reader|].
  intros r. destruct p; discriminate.
Qed.

Lemma never_raises_new_table (t : Table) : never_raises (new_table t).
Proof. discriminate. Qed.

Lemma never_raises_new_reader (r : ParquetReader) : never_raises (new_reader r).
Proof. discriminate. Qed.

Lemma never_raises_store_int (p : ptr) (v : Z) : never_raises (store_int p v).
Proof.
  intros w e w'. unfold store_int.
  destruct p as [|l]; [discriminate|]. destruct (ints w !! l); discriminate.
Qed.

Lemma never_raises_FileOutputStream_Open (filename : string) :
  never_raises (FileOutputStream_Open_ filename).
Proof.
  intros w e w'. unfold FileOutputStream_Open_.
  destruct (files w !! filename) as [[]|]; discriminate.
Qed.

Lemma never_raises_ReadableFile_Open (filename : string) :
  never_raises (ReadableFile_Open_ filename).
Proof.
  intros w e w'. unfold ReadableFile_Open_.
  destruct (files w !! filename) as [[]|]; discriminate.
Qed.

Lemma never_raises_ParquetFileReader_OpenFile (filename : string) (mmap : Z) :
  never_raises (ParquetFileReader_OpenFile_ filename mmap).
Proof.
  intros w e w'. unfold ParquetFileReader_OpenFile_.
  destruct (files w !! filename) as [[]|]; discriminate.
Qed.

Lemma never_raises_ipc_WriteTable (writer : string) (t : Table) :
  never_raises (ipc_WriteTable_ writer t).
Proof. discriminate. Qed.

Lemma never_raises_feather_WriteTable (t : Table) (sink : string)
    (wp : WriteProperties) :
  never_raises (feather_WriteTable_ t sink wp).
Proof.
  intros w e w'. unfold feather_WriteTable_.
  destruct (feather_codec (wp_compression wp)); discriminate.
Qed.

Lemma never_raises_parquet_WriteTable (lib : Library) (t : Table) (sink : string)
    (chunk_size : Z) (c : Compression) :
  never_raises (parquet_WriteTable_ lib t sink chunk_size c).
Proof.
  intros w e w'. unfold parquet_WriteTable_.
  destruct (parquet_written lib t chunk_size c); discriminate.
Qed.

Lemma never_raises_export_chunks (chunks : list Array) (e : Type_type) (s : string)
    (out : list ArrowArray) :
  never_raises (export_chunks chunks e s out).
Proof.
  revert out. induction chunks as [|c chunks IH]; intros out; simpl;
    [apply never_raises_ret|].
  destruct (negb (id (arr_type c) =? e)); [|apply IH].
  apply never_raises_bind; [apply never_raises_modify|].
  intros _. apply never_raises_throw.
Qed.

Lemma never_raises_release_chunks (arrays : list ArrowArray) (n : nat) :
  never_raises (release_chunks arrays n).
Proof.
  revert arrays. induction n as [|n IH]; intros arrays; [apply never_raises_ret|].
  destruct arrays as [|a rest]; [apply never_raises_fault|]. cbn [release_chunks].
  apply never_raises_bind; [apply IH | intros; apply never_raises_ret].
Qed.

Lemma never_raises_read_batches (items : RecordBatchReader) (k : Z)
    (acc : list RecordBatch) :
  never_raises (read_batches items k acc).
Proof.
  revert k acc. induction items as [|[b|st] items IH]; intros k acc; simpl;
    destruct (0 <? k); try apply never_raises_ret;
    (apply never_raises_bind; [apply never_raises_modify | intros _]);
    try apply never_raises_ret; try apply never_raises_throw.
  destruct (k <=? rb_num_rows b); [apply never_raises_ret | apply IH].
Qed.

Lemma never_raises_read_row_groups (r : FileReader) (cols : option (list Z))
    (idxs : list Z) (k : Z) (acc : list RecordBatch) :
  never_raises (read_row_groups r cols idxs k acc).
Proof.
  revert k acc. induction idxs as [|idx idxs IH]; intros k acc; simpl;
    [apply never_raises_ret|].
  apply never_raises_bind; [apply never_raises_ok_exn | intros items].
  apply never_raises_bind; [apply never_raises_read_batches | intros res].
  destruct (fst res <=? 0); [apply never_raises_ret | apply IH].
Qed.

Lemma never_raises_deref_tables (ptrs : list ptr) : never_raises (deref_tables ptrs).
Proof.
  induction ptrs as [|p ptrs IH]; simpl; [apply never_raises_ret|].
  apply never_raises_bind; [apply never_raises_deref_table | intros t].
  apply never_raises_bind; [exact IH | intros; apply never_raises_ret].
Qed.

Create HintDb no_raise.

#[local] Hint Resolve never_raises_ret never_raises_throw never_raises_fault
  never_raises_modify never_raises_ok_exn never_raises_status_exn
  never_raises_ValueOrDie
  never_raises_deref_table never_raises_deref_reader never_raises_update_reader
  never_raises_new_table never_raises_new_reader never_raises_store_int
  never_raises_FileOutputStream_Open never_raises_ReadableFile_Open
  never_raises_ParquetFileReader_OpenFile never_raises_ipc_WriteTable
  never_raises_feather_WriteTable never_raises_parquet_WriteTable
  never_raises_export_chunks never_raises_release_chunks
  never_raises_read_batches never_raises_read_row_groups
  never_raises_deref_tables : no_raise.

Ltac no_raise :=
  repeat first
    [ solve [auto with no_raise]
    | apply never_raises_bind; [|intros ?]
    | match goal with
      | |- never_raises (match ?x with _ => _ end) => destruct x
      end ].

(** The macro cuts the message of the exception to the 254 bytes that
    [snprintf(err, 255, ...)] writes. *)
Lemma failures_within_protect {A : Type} (body : M A) :
  never_raises body -> failures_within 254 (OCAML_PROTECT_EXN body).
Proof.
  intros Hbody w msg w'. unfold OCAML_PROTECT_EXN.
  destruct (body w) as [[a|what|e|] w0] eqn:Hrun; try discriminate.
  - intros [= <- <-]. unfold snprintf_s. apply substring_length_le.
  - elim (Hbody w e w0 Hrun).
Qed.

Lemma failures_within_never_raises {A : Type} (n : nat) (m : M A) :
  never_raises m -> failures_within n m.
Proof. intros Hm w msg w' Hrun. elim (Hm _ _ _ Hrun). Qed.

Lemma failures_within_bind {A B : Type} (n : nat) (m : M A) (k : A -> M B) :
  failures_within n m -> (forall a, failures_within n (k a)) ->
  failures_within n (bind m k).
Proof.
  intros Hm Hk w msg w'. unfold bind.
  destruct (m w) as [[a|what|e|] w0] eqn:Hrun; try discriminate.
  - apply Hk.
  - intros [= -> <-]. apply (Hm w msg w0 Hrun).
Qed.

Lemma failures_within_caml_failwith {A : Type} (n : nat) (msg : string) :
  (String.length msg <= n)%nat -> failures_within n (@caml_failwith A msg).
Proof. intros Hlen w msg' w' [= <- <-]. exact Hlen. Qed.

Lemma failures_within_caml_invalid_argument {A : Type} (n : nat) (msg : string) :
  failures_within n (@caml_invalid_argument A msg).
Proof. intros w msg' w'. discriminate. Qed.

(** [check_column_idx] cuts its message to the 126 bytes that
    [snprintf(err, 127, ...)] writes. *)
Lemma failures_within_check_column_idx (column_idx n_cols : Z) :
  failures_within 126 (check_column_idx column_idx n_cols).
Proof.
  intros w msg w'. unfold check_column_idx.
  destruct ((column_idx <? 0) || (n_cols <=? column_idx)); [|discriminate].
  intros [= <- <-]. unfold snprintf_s. apply substring_length_le.
Qed.

Lemma failures_within_le {A : Type} (n n' : nat) (m : M A) :
  (n <= n')%nat -> failures_within n m -> failures_within n' m.
Proof. intros Hle Hm w msg w' Hrun. specialize (Hm _ _ _ Hrun). lia. Qed.

Ltac bounded :=
  repeat first
    [ apply failures_within_protect; solve [no_raise]
    | apply failures_within_never_raises; solve [no_raise]
    | apply failures_within_caml_invalid_argument
    | apply (failures_within_le 126 254); [lia | apply failures_within_check_column_idx]
    | apply failures_within_caml_failwith; vm_compute; lia
    | apply failures_within_bind; [|intros ?]
    | match goal with
      | |- failures_within _ (match ?x with _ => _ end) => destruct x
      end ].

(** X21. Every failure message a function of the bridge hands to the host
    runtime fits the buffer of the protection macro: whatever the library
    reports, however long, a [Failure] raised by any function the host can
    call carries at most 254 bytes. The wrapped functions cut the message of
    the exception to 254 bytes, [check_column_idx] cuts its own to 126, and
    the message of [parquet_reader_next] on a closed reader is a literal of
    30. *)
Theorem bridge_failures_bounded (lib : Library) :
  every_entry_point lib (fun A => @failures_within A 254).
Proof.
  unfold every_entry_point.
  repeat match goal with |- _ /\ _ => split end; intros;
    unfold arrow_schema, feather_schema, parquet_schema, free_schema,
      table_chunked_column, table_chunked_column_by_name, table_chunked_column_,
      free_chunked_column, create_table, parquet_write_file, arrow_write_file,
      feather_write_file, parquet_write_table, feather_write_table,
      parquet_reader_open, parquet_reader_next, parquet_reader_close,
      parquet_reader_free, parquet_read_table, feather_read_table,
      csv_read_table, json_read_table, table_concatenate, table_slice,
      table_num_rows, table_schema, free_table, GetSchema, FileReader_Make;
    bounded.
Qed.

(** The path of the example has 295 bytes, the message of the library 332:
    the failure carries its first 254. *)
Lemma bridge_failures_bounded_witness :
  exists msg,
    parquet_read_table long_path [] (-1) 3 sample_world
    = (Raise (Failure msg), log (ReadableFile_Open long_path) sample_world) /\
    String.length (cannot_open long_path) = 332%nat /\
    String.prefix msg (cannot_open long_path) = true /\
    (String.length msg <= 254)%nat.
Proof.
  exists (snprintf_s 255 (cannot_open long_path)).
  assert (Hrun : parquet_read_table long_path [] (-1) 3 sample_world
                 = (Raise (Failure (snprintf_s 255 (cannot_open long_path))),
                    log (ReadableFile_Open long_path) sample_world))
    by (vm_compute; reflexivity).
  split; [exact Hrun|]. split; [vm_compute; reflexivity|].
  split; [apply prefix_substring|].
  destruct (bridge_failures_bounded sample_library)
    as (_ & _ & _ & _ & _ & _ & _ & _ & _ & _ & _ & _ & _ & _ & _ & _ & _ & _ & _
        & Hread & _).
  exact (Hread _ _ _ _ _ _ _ Hrun).
Defined.
